(** * Auto MOC Linker: a shallow embedding of [main.js] and its properties.

    The plugin scans the notes of a vault, extracts their tags, and adds a
    link line to every hub ("MOC") note that a tag is mapped to.

    JavaScript strings are modelled as lists of code units; the code units
    are the 8-bit ones of [ascii] (Latin-1), which covers every character
    class the source tests for.  JavaScript regular expressions are
    transcribed into a small abstract syntax with a backtracking matcher
    that follows the priority order of the ECMAScript matcher. *)

From Stdlib Require Import Ascii String List Arith Lia Bool.
From stdpp Require Import base option list gmap strings.
From Equations Require Import Equations.

Set Default Proof Using "Type".
Set Warnings "-register-all".
Local Open Scope list_scope.
Local Open Scope char_scope.
Local Open Scope nat_scope.

(** ** JavaScript strings *)

Definition str := list ascii.

Module JS.

Definition LF : ascii := ascii_of_nat 10.
Definition CR : ascii := ascii_of_nat 13.
Definition TAB : ascii := ascii_of_nat 9.

(** A source literal: the escapes [\n], [\r], [\t] and [\\] of a JavaScript
    string literal are decoded, every other character stands for itself. *)
Fixpoint lit (s : string) : str :=
  match s with
  | EmptyString => []
  | String "\" (String "n" r) => LF :: lit r
  | String "\" (String "r" r) => CR :: lit r
  | String "\" (String "t" r) => TAB :: lit r
  | String "\" (String "\" r) => "\" :: lit r
  | String c r => c :: lit r
  end.

Definition code (c : ascii) : nat := nat_of_ascii c.

(** LineTerminator: LF and CR among the 8-bit code units. *)
Definition isLineTerminator (c : ascii) : bool :=
  (code c =? 10) || (code c =? 13).

(** WhiteSpace or LineTerminator, the class of [\s] and of [trim]:
    TAB, LF, VT, FF, CR, SP and NBSP. *)
Definition isSpace (c : ascii) : bool :=
  (code c =? 9) || (code c =? 10) || (code c =? 11) || (code c =? 12)
  || (code c =? 13) || (code c =? 32) || (code c =? 160).

Definition eqc (a b : ascii) : bool := Ascii.eqb a b.

Fixpoint eqs (a b : str) : bool :=
  match a, b with
  | [], [] => true
  | x :: a', y :: b' => eqc x y && eqs a' b'
  | _, _ => false
  end.

(** [stripPrefix p s] is the rest of [s] after its prefix [p], when [s]
    starts with [p]. *)
Fixpoint stripPrefix (p s : str) : option str :=
  match p with
  | [] => Some s
  | x :: p' =>
      match s with
      | [] => None
      | y :: s' => if eqc x y then stripPrefix p' s' else None
      end
  end.

(** [s.startsWith(p)] *)
Definition startsWith (s p : str) : bool :=
  match stripPrefix p s with Some _ => true | None => false end.

(** [s.endsWith(p)] *)
Definition endsWith (s p : str) : bool := startsWith (rev s) (rev p).

(** [s.indexOf(p)]: the least index at which [p] occurs, [None] for -1. *)
Fixpoint indexOf (s p : str) : option nat :=
  if startsWith s p then Some 0
  else match s with
       | [] => None
       | _ :: s' => option_map S (indexOf s' p)
       end.

(** [s.substring(a)] and [s.substring(0, b)] *)
Definition substringFrom (s : str) (a : nat) : str := drop a s.
Definition substringTo (s : str) (b : nat) : str := take b s.

Fixpoint dropSpaces (s : str) : str :=
  match s with
  | c :: s' => if isSpace c then dropSpaces s' else s
  | [] => []
  end.

(** [s.trim()] *)
Definition trim (s : str) : str := rev (dropSpaces (rev (dropSpaces s))).

(** [s.split(sep)] for a non-empty separator: the pieces between the
    occurrences of [sep], found from left to right without overlap.
    [cur] holds the current piece reversed and [skip] counts the code
    units of an occurrence that are still to be passed over. *)
Fixpoint splitFrom (sep : str) (cur : str) (skip : nat) (s : str) : list str :=
  match s with
  | [] => [rev cur]
  | c :: s' =>
      match skip with
      | S k => splitFrom sep cur k s'
      | O =>
          if startsWith s sep
          then rev cur :: splitFrom sep [] (length sep - 1) s'
          else splitFrom sep (c :: cur) 0 s'
      end
  end.

Definition split (s sep : str) : list str := splitFrom sep [] 0 s.

(** [c.toLowerCase()] on the 8-bit code units: A-Z and the Latin-1
    capitals (all of 0xC0-0xDE but the multiplication sign). *)
Definition lowerChar (c : ascii) : ascii :=
  let n := code c in
  if ((65 <=? n) && (n <=? 90))
     || ((192 <=? n) && (n <=? 222) && negb (n =? 215))
  then ascii_of_nat (n + 32) else c.

Definition toLowerCase (s : str) : str := map lowerChar s.

(** GetSubstitution for a pattern without capture groups: in the
    replacement text [$$] stands for a dollar sign, [$&] for the matched
    text, [$`] for the text before the match and [$'] for the text after
    it; every other character, a lone dollar sign included, is copied. *)
Fixpoint getSubstitution (matched before after template : str) : str :=
  match template with
  | [] => []
  | "$" :: t1 =>
      match t1 with
      | "$" :: t2 => "$" :: getSubstitution matched before after t2
      | "&" :: t2 => matched ++ getSubstitution matched before after t2
      | "`" :: t2 => before ++ getSubstitution matched before after t2
      | "'" :: t2 => after ++ getSubstitution matched before after t2
      | _ => "$" :: getSubstitution matched before after t1
      end
  | c :: t1 => c :: getSubstitution matched before after t1
  end.

(** [s.replace(pattern, template)] with a string pattern: the first
    occurrence only. *)
Definition replaceString (s pattern template : str) : str :=
  match indexOf s pattern with
  | None => s
  | Some i =>
      let before := take i s in
      let after := drop (i + length pattern) s in
      before ++ getSubstitution pattern before after template ++ after
  end.

(** [arr.includes(x)] on an array of strings. *)
Definition includes (l : list str) (x : str) : bool := existsb (eqs x) l.

#[global] Arguments eqc : simpl never.
#[global] Arguments code : simpl never.
#[global] Arguments isSpace : simpl never.
#[global] Arguments isLineTerminator : simpl never.
#[global] Arguments lowerChar : simpl never.

End JS.

(** ** Regular expressions *)

Module Regex.
Import JS.

(** The fragment of the pattern syntax that the source uses.  A quantifier
    is only ever applied to a character class: [Star p] is the greedy
    [p*], [StarLazy p] is [p*?], and [p+] is [Cat (Cls p) (Star p)].
    [LineStart] and [LineEnd] are [^] and [$] under the flag [m];
    [InputStart] and [InputEnd] are [^] and [$] without it. *)
Inductive regex : Type :=
| Lit (s : str)
| Cls (p : ascii -> bool)
| Star (p : ascii -> bool)
| StarLazy (p : ascii -> bool)
| InputStart
| InputEnd
| LineStart
| LineEnd
| Cat (a b : regex)
| Or (a b : regex)
| Group (a : regex).

(** A position is at the start of a line when it is the start of the input
    or follows a line terminator, and at the end of a line when it is the
    end of the input or a line terminator follows. *)
Definition atLineStart (b : str) : bool :=
  match last b with
  | None => true
  | Some c => isLineTerminator c
  end.

Definition atLineEnd (r : str) : bool :=
  match r with
  | [] => true
  | c :: _ => isLineTerminator c
  end.

Section Matcher.
Context {A : Type}.

  (** The matcher is written in continuation-passing style, as the
      ECMAScript one: [b] is the input before the current position, [r]
      the input from it on, and the continuation [k] stands for the rest
      of the pattern.  Alternatives are tried in priority order and the
      first success is returned. *)
Fixpoint starGreedy (p : ascii -> bool) (k : str -> str -> option A)
      (b r : str) : option A :=
    match r with
    | c :: r' =>
        if p c
        then match starGreedy p k (b ++ [c]) r' with
             | Some x => Some x
             | None => k b r
             end
        else k b r
    | [] => k b r
    end.

Fixpoint starLazy (p : ascii -> bool) (k : str -> str -> option A)
      (b r : str) : option A :=
    match k b r with
    | Some x => Some x
    | None =>
        match r with
        | c :: r' => if p c then starLazy p k (b ++ [c]) r' else None
        | [] => None
        end
    end.

Fixpoint matchAt (re : regex) (k : str -> str -> option str -> option A)
      (b r : str) (g : option str) : option A :=
    match re with
    | Lit s =>
        match stripPrefix s r with
        | Some r' => k (b ++ s) r' g
        | None => None
        end
    | Cls p =>
        match r with
        | c :: r' => if p c then k (b ++ [c]) r' g else None
        | [] => None
        end
    | Star p => starGreedy p (fun b' r' => k b' r' g) b r
    | StarLazy p => starLazy p (fun b' r' => k b' r' g) b r
    | InputStart => match b with [] => k b r g | _ => None end
    | InputEnd => match r with [] => k b r g | _ => None end
    | LineStart => if atLineStart b then k b r g else None
    | LineEnd => if atLineEnd r then k b r g else None
    | Cat x y => matchAt x (fun b' r' g' => matchAt y k b' r' g') b r g
    | Or x y =>
        match matchAt x k b r g with
        | Some res => Some res
        | None => matchAt y k b r g
        end
    | Group x =>
        matchAt x (fun b' r' _ => k b' r' (Some (drop (length b) b'))) b r g
    end.
End Matcher.

(** The result of [RegExp.prototype.exec]: the text before the match, the
    matched text, the first capture group and the text after the match. *)
Record result : Type := Result {
  mBefore : str;
  mText : str;
  mGroup : option str;
  mAfter : str
}.

(** The match is looked for at position 0, then 1, and so on up to the end
    of the input. *)
Fixpoint search (re : regex) (b r : str) : option result :=
  match matchAt re (fun b' r' g => Some (b', r', g)) b r None with
  | Some (b', r', g) => Some (Result b (drop (length b) b') g r')
  | None =>
      match r with
      | [] => None
      | c :: r' => search re (b ++ [c]) r'
      end
  end.

(** [re.exec(s)], which is also [s.match(re)] for a pattern without the
    flag [g]. *)
Definition exec (re : regex) (s : str) : option result := search re [] s.

(** [re.test(s)] *)
Definition test (re : regex) (s : str) : bool :=
  match exec re s with Some _ => true | None => false end.

(** [s.replace(re, template)] for a pattern without the flag [g] and
    without capture groups: the first match only. *)
Definition replace (s : str) (re : regex) (template : str) : str :=
  match exec re s with
  | None => s
  | Some m =>
      mBefore m ++ getSubstitution (mText m) (mBefore m) (mAfter m) template
      ++ mAfter m
  end.

(** The character classes of the source's patterns. *)
Definition anyChar (c : ascii) : bool := true.               (* [\s\S] *)
Definition dot (c : ascii) : bool := negb (isLineTerminator c).   (* . *)
Definition notNewlineOrBracket (c : ascii) : bool :=         (* [^\n\[\]] *)
  negb (eqc c LF || eqc c "[" || eqc c "]").
Definition wordChar (c : ascii) : bool :=                    (* [a-zA-Z0-9_-] *)
  let n := code c in
  ((97 <=? n) && (n <=? 122)) || ((65 <=? n) && (n <=? 90))
  || ((48 <=? n) && (n <=? 57)) || eqc c "_" || eqc c "-".

(** The syntax characters that the source escapes,
    [/[.*+?^${}()|[\]\\]/]. *)
Definition isSyntaxChar (c : ascii) : bool :=
  existsb (eqc c) (lit ".*+?^${}()|[]\\").

(** [s.replace(/[.*+?^${}()|[\]\\]/g, '\\$&')]: a backslash is put before
    every syntax character. *)
Fixpoint escapeRegExp (s : str) : str :=
  match s with
  | [] => []
  | c :: s' =>
      if isSyntaxChar c then "\" :: c :: escapeRegExp s'
      else c :: escapeRegExp s'
  end.

(** The text that a pattern source made of plain characters and escaped
    syntax characters matches: an escaped character stands for itself. *)
Fixpoint readEscaped (p : str) : str :=
  match p with
  | [] => []
  | "\" :: c :: p' => c :: readEscaped p'
  | c :: p' => c :: readEscaped p'
  end.

End Regex.

Import JS Regex.

(** ** The pure functions of the plugin *)

(** [ensureMdExtension(path)] *)
Definition ensureMdExtension (path : str) : str :=
  match path with
  | [] => path
  | _ => if endsWith (toLowerCase path) (lit ".md") then path
         else path ++ lit ".md"
  end.

(** [tag.startsWith('#') ? tag.substring(1) : tag] *)
Definition withoutHash (tag : str) : str :=
  if startsWith tag (lit "#") then substringFrom tag 1 else tag.

(** [extractExistingLinks(content)] *)
Definition linkOfSection (section : str) : list str :=
  match indexOf section (lit "]]") with
  | Some endIdx =>
      let link := substringTo section endIdx in
      let cleanLink := trim (hd [] (split link (lit "|"))) in
      [cleanLink]
  | None => []
  end.

Definition extractExistingLinks (content : str) : list str :=
  let sections := split content (lit "[[") in
  concat (map linkOfSection (drop 1 sections)).

(** The patterns of [extractTags]. *)
Definition frontmatterRe : regex :=          (* /^---\n([\s\S]*?)\n---/ *)
  Cat InputStart (Cat (Lit (lit "---\n"))
    (Cat (Group (StarLazy anyChar)) (Lit (lit "\n---")))).

Definition singleTagRe : regex :=  (* /tags\s*:\s*([^\n\[\]]+)(?:\n|$)/ *)
  Cat (Lit (lit "tags")) (Cat (Star isSpace) (Cat (Lit (lit ":"))
    (Cat (Star isSpace)
      (Cat (Group (Cat (Cls notNewlineOrBracket) (Star notNewlineOrBracket)))
        (Or (Lit (lit "\n")) InputEnd))))).

Definition inlineArrayRe : regex :=          (* /tags\s*:\s*\[(.*?)\]/ *)
  Cat (Lit (lit "tags")) (Cat (Star isSpace) (Cat (Lit (lit ":"))
    (Cat (Star isSpace) (Cat (Lit (lit "["))
      (Cat (Group (StarLazy dot)) (Lit (lit "]"))))))).

Definition tagsKeyRe : regex :=              (* /^tags\s*:/ *)
  Cat InputStart (Cat (Lit (lit "tags")) (Cat (Star isSpace) (Lit (lit ":")))).

Definition tagItemRe : regex :=              (* /^\s*-\s*(.+)$/ *)
  Cat InputStart (Cat (Star isSpace) (Cat (Lit (lit "-"))
    (Cat (Star isSpace) (Cat (Group (Cat (Cls dot) (Star dot))) InputEnd)))).

Definition bodyTagRe : regex :=              (* /^([a-zA-Z0-9_-]+)/ *)
  Cat InputStart (Group (Cat (Cls wordChar) (Star wordChar))).

(** The first capture group of a match, when there is a match and the
    group is not the empty string (an empty string is falsy). *)
Definition truthyGroup (m : option result) : option str :=
  match m with
  | Some (Result _ _ (Some (c :: g)) _) => Some (c :: g)
  | _ => None
  end.

Definition singleTag (frontmatter : str) : list str :=
  match truthyGroup (exec singleTagRe frontmatter) with
  | Some g => [trim g]
  | None => []
  end.

Definition inlineArrayTags (frontmatter : str) : list str :=
  match truthyGroup (exec inlineArrayRe frontmatter) with
  | Some g =>
      filter (fun tag => 0 < length tag) (map trim (split g (lit ",")))
  | None => []
  end.

(** The loop over the lines of the front-matter; [inTagsBlock] is the
    flag of the source. *)
Fixpoint multilineTags (inTagsBlock : bool) (lines : list str) : list str :=
  match lines with
  | [] => []
  | line :: lines' =>
      if test tagsKeyRe line then multilineTags true lines'
      else if inTagsBlock then
        match exec tagItemRe line with
        | Some tagMatch =>
            trim (default [] (mGroup tagMatch)) :: multilineTags true lines'
        | None =>
            if negb (startsWith (trim line) (lit "-"))
            then multilineTags false lines'
            else multilineTags true lines'
        end
      else multilineTags false lines'
  end.

Definition frontmatterTags (content : str) : list str :=
  match truthyGroup (exec frontmatterRe content) with
  | Some frontmatter =>
      singleTag frontmatter ++ inlineArrayTags frontmatter
      ++ multilineTags false (split frontmatter (lit "\n"))
  | None => []
  end.

Definition bodyTagOf (part : str) : list str :=
  match exec bodyTagRe part with
  | Some (Result _ _ (Some g) _) => [g]
  | _ => []
  end.

Definition bodyTags (content : str) : list str :=
  concat (map bodyTagOf (drop 1 (split content (lit "#")))).

(** [extractTags(content)] *)
Definition extractTags (content : str) : list str :=
  frontmatterTags content ++ bodyTags content.

(** [new RegExp(`^${escaped}\\s*$`, 'm')] for the escaped heading. *)
Definition headingRegex (sectionHeading : str) : regex :=
  Cat LineStart (Cat (Lit (readEscaped (escapeRegExp sectionHeading)))
    (Cat (Star isSpace) LineEnd)).

(** [addLinkToMOC(content, newLink, sectionHeading)] *)
Definition addLinkToMOC (content newLink sectionHeading : str) : str :=
  if test (headingRegex sectionHeading) content
  then replace content (headingRegex sectionHeading)
         (sectionHeading ++ lit "\n" ++ newLink)
  else content ++ lit "\n\n" ++ sectionHeading ++ lit "\n" ++ newLink.

(** ** The vault, the settings and the state of the plugin *)

Record TFile : Type := {
  path : str;
  basename : str;
  extension : str
}.

(** A file or a folder with its children, as the vault hands them out. *)
Inductive TAbstractFile : Type :=
| AFile (f : TFile)
| AFolder (folderPath : str) (children : list TAbstractFile).

Record Mapping : Type := {
  tag : str;
  mocPath : str
}.

(** The settings; [batchSize] is a positive number (the slider of the
    settings tab runs from 10 to 200). *)
Record Settings : Type := {
  tagMappings : list Mapping;
  defaultPath : str;
  appendFormat : str;
  sectionHeading : str;
  batchSize : positive
}.

(** The defaults of [loadSettings]. *)
Definition defaultSettings : Settings := {|
  tagMappings := [];
  defaultPath := lit "/";
  appendFormat := lit "- [[{{fileName}}]]\n";
  sectionHeading := lit "## Links";
  batchSize := 50%positive
|}.

(** The part of the host that does not change during a run: the files it
    lists, the paths it resolves, the paths whose reads and writes fail,
    and whether it raises ['modify'] after a write. *)
Record Host : Type := {
  getMarkdownFiles : list TFile;
  getAbstractFileByPath : str -> option TAbstractFile;
  readFails : str -> bool;
  modifyFails : str -> bool;
  raisesModify : bool
}.

Module FileData.
Record t : Type := { content : str; tags : list str }.
End FileData.

Module MocData.
Record t : Type := { content : str; links : list str }.
End MocData.

(** What the plugin writes to the console and shows as notices. *)
Inductive Event : Type :=
| FailedToReadFile (filePath : str)
| MocNotFound (mocPath : str)
| FailedToReadMoc (mocPath : str)
| AddingLink (fileName mocPath : str)
| AddedLink (fileName mocPath : str) (total : nat)
| ErrorProcessingMapping (mocPath : str)
| NoticeProcessing (totalFiles : nat)
| NoticeProcessed (filesProcessed totalFiles : nat)
| NoticeComplete (total : nat)
| LogComplete (total : nat).

(** The texts of the vault's files and the fields of the plugin object. *)
Record State : Type := {
  vaultText : gmap str str;
  fileCache : gmap str FileData.t;
  mocLinksCache : gmap str MocData.t;
  totalNotesAdded : nat;
  console : list Event
}.

Definition setVaultText (st : State) (v : gmap str str) : State :=
  {| vaultText := v; fileCache := fileCache st;
     mocLinksCache := mocLinksCache st;
     totalNotesAdded := totalNotesAdded st; console := console st |}.

Definition setFileCache (st : State) (c : gmap str FileData.t) : State :=
  {| vaultText := vaultText st; fileCache := c;
     mocLinksCache := mocLinksCache st;
     totalNotesAdded := totalNotesAdded st; console := console st |}.

Definition setMocLinksCache (st : State) (c : gmap str MocData.t) : State :=
  {| vaultText := vaultText st; fileCache := fileCache st;
     mocLinksCache := c;
     totalNotesAdded := totalNotesAdded st; console := console st |}.

Definition setTotalNotesAdded (st : State) (n : nat) : State :=
  {| vaultText := vaultText st; fileCache := fileCache st;
     mocLinksCache := mocLinksCache st;
     totalNotesAdded := n; console := console st |}.

Definition log (st : State) (e : Event) : State :=
  {| vaultText := vaultText st; fileCache := fileCache st;
     mocLinksCache := mocLinksCache st;
     totalNotesAdded := totalNotesAdded st; console := console st ++ [e] |}.

(** ** The batch operation *)

Section Plugin.
Variable host : Host.
Variable settings : Settings.

(** [vault.read(file)]: [None] stands for a thrown error. *)
Definition vaultRead (st : State) (file : TAbstractFile) : option str :=
  match file with
  | AFile f => if readFails host (path f) then None else vaultText st !! path f
  | AFolder _ _ => None
  end.

(** The listener of ['modify'] registered in [onload]. *)
Definition onModify (st : State) (filePath : str) : State :=
  match filePath with
  | [] => st
  | _ => setFileCache st (delete filePath (fileCache st))
  end.

(** [vault.modify(file, data)]: [None] stands for a thrown error, after
    which nothing has changed. *)
Definition vaultModify (st : State) (file : TAbstractFile) (data : str)
    : option State :=
  match file with
  | AFile f =>
      if modifyFails host (path f) then None
      else
        let st' := setVaultText st (<[path f := data]> (vaultText st)) in
        Some (if raisesModify host then onModify st' (path f) else st')
  | AFolder _ _ => None
  end.

(** The cached entry of a hub, read and parsed on the first visit. *)
Definition loadMoc (st : State) (mocPath : str) (mocFile : TAbstractFile)
    : option (State * MocData.t) :=
  match mocLinksCache st !! mocPath with
  | Some mocData => Some (st, mocData)
  | None =>
      match vaultRead st mocFile with
      | Some mocContent =>
          let mocData := {| MocData.content := mocContent;
                            MocData.links := extractExistingLinks mocContent |} in
          Some (setMocLinksCache st (<[mocPath := mocData]> (mocLinksCache st)),
                mocData)
      | None => None
      end
  end.

(** One turn of the loop of [processTagMappings]. *)
Definition processMapping (file : TFile) (st : State) (mapping : Mapping)
    : State :=
  match mocPath mapping with
  | [] => st
  | _ =>
      let mocPathMd := ensureMdExtension (mocPath mapping) in
      match getAbstractFileByPath host mocPathMd with
      | None => log st (MocNotFound mocPathMd)
      | Some mocFile =>
          match loadMoc st mocPathMd mocFile with
          | None => log st (FailedToReadMoc mocPathMd)
          | Some (st1, mocData) =>
              let links := MocData.links mocData in
              let fileName := basename file in
              if includes links fileName then st1
              else
                let newLink :=
                  replaceString (appendFormat settings) (lit "{{fileName}}")
                    fileName in
                let sectionHeading :=
                  match sectionHeading settings with
                  | [] => lit "## Links"
                  | h => h
                  end in
                let updatedContent :=
                  addLinkToMOC (MocData.content mocData) newLink sectionHeading in
                let st2 := log st1 (AddingLink fileName mocPathMd) in
                match vaultModify st2 mocFile updatedContent with
                | None => log st2 (ErrorProcessingMapping (mocPath mapping))
                | Some st3 =>
                    let st4 := setTotalNotesAdded st3 (S (totalNotesAdded st3)) in
                    let st5 :=
                      log st4 (AddedLink fileName mocPathMd (totalNotesAdded st4)) in
                    setMocLinksCache st5
                      (<[mocPathMd := {| MocData.content := updatedContent;
                                       MocData.links := links ++ [fileName] |}]>
                         (mocLinksCache st5))
                end
          end
      end
  end.

(** [processTagMappings(file, mappings)] *)
Definition processTagMappings (file : TFile) (mappings : list Mapping)
    (st : State) : State :=
  foldl (processMapping file) st mappings.

(** The mappings that match a tag. *)
Definition matchingMappings (noteTag : str) : list Mapping :=
  let tagWithoutHash := withoutHash noteTag in
  filter (fun mapping => withoutHash (tag mapping) = tagWithoutHash)
    (tagMappings settings).

(** One turn of the loop over the tags of a file. *)
Definition processTag (file : TFile) (st : State) (tag : str) : State :=
  match matchingMappings tag with
  | [] => st
  | mappings => processTagMappings file mappings st
  end.

(** The cached data of a note, read and parsed when it is not cached. *)
Definition loadFile (st : State) (file : TFile)
    : option (State * FileData.t) :=
  match fileCache st !! path file with
  | Some fileData => Some (st, fileData)
  | None =>
      match vaultRead st (AFile file) with
      | Some content =>
          let fileData := {| FileData.content := content;
                             FileData.tags := extractTags content |} in
          Some (setFileCache st (<[path file := fileData]> (fileCache st)),
                fileData)
      | None => None
      end
  end.

(** One turn of the loop of [processBatch]. *)
Definition processFile (st : State) (file : TFile) : State :=
  if negb (eqs (extension file) (lit "md")) then st
  else
    match loadFile st file with
    | None => log st (FailedToReadFile (path file))
    | Some (st1, fileData) =>
        match FileData.tags fileData with
        | [] => st1
        | tags => foldl (processTag file) st1 tags
        end
    end.

(** [processBatch(files)] *)
Definition processBatch (files : list TFile) (st : State) : State :=
  foldl processFile st files.

(** [collectFiles(folder)] of [getFilesInPath]: the markdown files below
    the children of a folder, in the order of the walk. *)
Fixpoint collectFile (child : TAbstractFile) : list TFile :=
  match child with
  | AFolder _ children => concat (map collectFile children)
  | AFile f => if eqs (extension f) (lit "md") then [f] else []
  end.

(** [getFilesInPath(path)] *)
Definition getFilesInPath (searchPath : str) : list TFile :=
  if eqs searchPath (lit "/") then getMarkdownFiles host
  else
    match getAbstractFileByPath host searchPath with
    | Some (AFolder _ children) => concat (map collectFile children)
    | _ => []
    end.

(** [files.slice(i, j)] *)
Definition slice (files : list TFile) (i j : nat) : list TFile :=
  take (j - i) (drop i files).

(** The loop of [runAutoIndex] over the batches: [i] is the index of the
    loop and [filesProcessed] the running count of the source. *)
Equations? batchLoop (files : list TFile) (i filesProcessed : nat)
    (st : State) : State by wf (length files - i) lt :=
batchLoop files i filesProcessed st with decide (i < length files) => {
  | left _ :=
      batchLoop files (i + Pos.to_nat (batchSize settings))
        (filesProcessed
         + length (slice files i (i + Pos.to_nat (batchSize settings))))
        (let st1 :=
           processBatch (slice files i (i + Pos.to_nat (batchSize settings)))
             st in
         let filesProcessed' :=
           filesProcessed
           + length (slice files i (i + Pos.to_nat (batchSize settings))) in
         if (filesProcessed' mod 100 =? 0) || (filesProcessed' =? length files)
         then log st1 (NoticeProcessed filesProcessed' (length files))
         else st1);
  | right _ := st }.
Proof. lia. Qed.

(** [runAutoIndex()] *)
Definition runAutoIndex (st : State) : State :=
  let searchPath :=
    match defaultPath settings with
    | [] => lit "/"
    | p => p
    end in
  let st0 := setTotalNotesAdded st 0 in
  let files := getFilesInPath searchPath in
  let st1 := log st0 (NoticeProcessing (length files)) in
  let st2 := setMocLinksCache st1 ∅ in
  let st3 := batchLoop files 0 0 st2 in
  log (log st3 (NoticeComplete (totalNotesAdded st3)))
    (LogComplete (totalNotesAdded st3)).

End Plugin.

(** * Definitions for the statements *)

(** A path carries the markdown extension when its last three characters
    are a dot, an m and a d, in either letter case. *)
Definition hasMdExtension (path : str) : bool :=
  match rev path with
  | d :: m :: dot :: _ =>
      eqc dot "." && (eqc m "m" || eqc m "M") && (eqc d "d" || eqc d "D")
  | _ => false
  end.

(** The hash-stripped form of a tag: one leading [#] is dropped. *)
Definition stripHash (t : str) : str :=
  match t with
  | "#" :: r => r
  | _ => t
  end.

Definition mappingTo (t p : string) : Mapping :=
  {| tag := lit t; mocPath := lit p |}.

Definition settingsWith (ms : list Mapping) : Settings :=
  {| tagMappings := ms;
     defaultPath := defaultPath defaultSettings;
     appendFormat := appendFormat defaultSettings;
     sectionHeading := sectionHeading defaultSettings;
     batchSize := batchSize defaultSettings |}.

(** The text before the first occurrence of a separator, the whole text
    when there is none. *)
Definition upTo (sep s : str) : str :=
  match indexOf s sep with
  | Some k => take k s
  | None => s
  end.

(** The linked name of the text between the delimiters: the portion before
    the first [|], trimmed. *)
Definition linkedName (inner : str) : str := trim (upTo (lit "|") inner).

(** The name delimited by the start of [rest] and the next [\]\]] in it. *)
Definition delimited (rest : str) : list str :=
  match indexOf rest (lit "]]") with
  | Some j => [linkedName (take j rest)]
  | None => []
  end.

(** A scan of the text for [\[\[], from left to right and without
    overlap; [name] says what the text after an occurrence contributes. *)
Fixpoint scanLinks (name : str -> list str) (skip : nat) (text : str)
    : list str :=
  match text with
  | [] => []
  | c :: text' =>
      match skip with
      | S k => scanLinks name k text'
      | O =>
          if startsWith text (lit "[[")
          then name (drop 2 text) ++ scanLinks name 1 text'
          else scanLinks name 0 text'
      end
  end.

(** The extraction in the words of the specification: every [\[\[] with
    the next [\]\]] after it delimits a name. *)
Definition extract_links_spec (text : str) : list str :=
  scanLinks delimited 0 text.

(** The extraction with the next [\]\]] looked for no further than the
    next [\[\[]. *)
Definition extract_links_cut (text : str) : list str :=
  scanLinks (fun rest => delimited (upTo (lit "[[") rest)) 0 text.

(** A replacement text is plain when no dollar sign in it is followed by
    a dollar sign, an ampersand, a backquote or a quote: such a text is
    inserted as it is. *)
Definition isPatternChar (d : ascii) : bool :=
  eqc d "$" || eqc d "&" || eqc d "`" || eqc d "'".

Fixpoint plainTemplate (t : str) : bool :=
  match t with
  | [] => true
  | c :: t1 =>
      (negb (eqc c "$")
       || match t1 with
          | [] => true
          | d :: _ => negb (isPatternChar d)
          end)
      && plainTemplate t1
  end.

(** The number of positions of [s] at which [pat] occurs. *)
Fixpoint occurrences (pat s : str) : nat :=
  (if startsWith s pat then 1 else 0)
  + match s with
    | [] => 0
    | _ :: s' => occurrences pat s'
    end.

(** The merge in the words of the specification: the first line that is
    the heading up to trailing white space is replaced by the heading line
    and the link line. *)
Definition isHeadingLine (heading line : str) : bool :=
  match stripPrefix heading line with
  | Some ws => forallb isSpace ws
  | None => false
  end.

Fixpoint replaceHeadingLine (heading link : str) (lines : list str)
    : option (list str) :=
  match lines with
  | [] => None
  | line :: lines' =>
      if isHeadingLine heading line then Some (heading :: link :: lines')
      else option_map (cons line) (replaceHeadingLine heading link lines')
  end.

Definition joinLines (lines : list str) : str :=
  match lines with
  | [] => []
  | line :: lines' => line ++ concat (map (fun l => LF :: l) lines')
  end.

Definition merge_spec (hub_text heading link_line : str) : str :=
  match replaceHeadingLine heading link_line (split hub_text (lit "\n")) with
  | Some lines => joinLines lines
  | None => hub_text ++ lit "\n\n" ++ heading ++ lit "\n" ++ link_line
  end.

(** The insertions that a piece of the console reports: the hub path and
    the basename of every [AddedLink], which is logged after a successful
    write and only then. *)
Definition added (events : list Event) : list (str * str) :=
  omap (fun e => match e with
                 | AddedLink fileName mocPath _ => Some (mocPath, fileName)
                 | _ => None
                 end) events.

(** The invariant of a run: every insertion reported so far is known to
    the cache of its hub, no insertion is reported twice, and the counter
    is the number of insertions. *)
Definition onceSoFar (before : list Event) (st : State) : Prop :=
  exists events,
    console st = before ++ events
    /\ NoDup (added events)
    /\ totalNotesAdded st = length (added events)
    /\ forall p f, (p, f) ∈ added events ->
         exists d, mocLinksCache st !! p = Some d /\ f ∈ MocData.links d.

Definition noteA : TFile :=
  {| path := lit "A.md"; basename := lit "A"; extension := lit "md" |}.

Definition hubMOC : TFile :=
  {| path := lit "MOC.md"; basename := lit "MOC"; extension := lit "md" |}.

(** A vault with the note [A.md] and the hub [MOC.md]; the host lists them
    in either order. *)
Definition scenarioHost (hubFirst notifies : bool)
    (unreadable unwritable : str -> bool) : Host :=
  {| getMarkdownFiles := if hubFirst then [hubMOC; noteA] else [noteA; hubMOC];
     getAbstractFileByPath := fun p =>
       if eqs p (lit "MOC.md") then Some (AFile hubMOC)
       else if eqs p (lit "A.md") then Some (AFile noteA)
       else None;
     readFails := unreadable;
     modifyFails := unwritable;
     raisesModify := notifies |}.

Definition scenarioSettings : Settings :=
  settingsWith [mappingTo "maths" "MOC"].

Definition scenarioState : State :=
  {| vaultText := {[ lit "A.md" := lit "---\ntags: [maths]\n---\n";
                     lit "MOC.md" := lit "## Links\n" ]};
     fileCache := ∅;
     mocLinksCache := ∅;
     totalNotesAdded := 0;
     console := [] |}.

Definition never (p : str) : bool := false.

(** ** Notions of the batch operation *)

Section BatchNotions.
Variable host : Host.
Variable settings : Settings.

(** The heading that [processTagMappings] passes to [addLinkToMOC]. *)
Definition headingOf : str :=
  match sectionHeading settings with
  | [] => lit "## Links"
  | h => h
  end.

(** The content that [processTagMappings] writes to a hub. *)
Definition updatedContentOf (file : TFile) (mocData : MocData.t) : str :=
  addLinkToMOC (MocData.content mocData)
    (replaceString (appendFormat settings) (lit "{{fileName}}") (basename file))
    headingOf.

(** The outcomes of one turn of the loop of [processTagMappings]. *)
Inductive MappingOutcome (file : TFile) (st : State) (mapping : Mapping)
    : State -> Prop :=
| NoMocPath :
    mocPath mapping = [] ->
    MappingOutcome file st mapping st
| NotFound :
    mocPath mapping <> [] ->
    getAbstractFileByPath host (ensureMdExtension (mocPath mapping)) = None ->
    MappingOutcome file st mapping
      (log st (MocNotFound (ensureMdExtension (mocPath mapping))))
| MocUnreadable mocFile :
    mocPath mapping <> [] ->
    getAbstractFileByPath host (ensureMdExtension (mocPath mapping))
      = Some mocFile ->
    loadMoc host st (ensureMdExtension (mocPath mapping)) mocFile = None ->
    MappingOutcome file st mapping
      (log st (FailedToReadMoc (ensureMdExtension (mocPath mapping))))
| AlreadyLinked mocFile st1 mocData :
    mocPath mapping <> [] ->
    getAbstractFileByPath host (ensureMdExtension (mocPath mapping))
      = Some mocFile ->
    loadMoc host st (ensureMdExtension (mocPath mapping)) mocFile
      = Some (st1, mocData) ->
    basename file ∈ MocData.links mocData ->
    MappingOutcome file st mapping st1
| WriteFailed mocFile st1 mocData :
    mocPath mapping <> [] ->
    getAbstractFileByPath host (ensureMdExtension (mocPath mapping))
      = Some mocFile ->
    loadMoc host st (ensureMdExtension (mocPath mapping)) mocFile
      = Some (st1, mocData) ->
    basename file ∉ MocData.links mocData ->
    vaultModify host
      (log st1 (AddingLink (basename file)
                  (ensureMdExtension (mocPath mapping))))
      mocFile (updatedContentOf file mocData) = None ->
    MappingOutcome file st mapping
      (log (log st1 (AddingLink (basename file)
                       (ensureMdExtension (mocPath mapping))))
         (ErrorProcessingMapping (mocPath mapping)))
| LinkAdded mocFile st1 mocData st3 :
    mocPath mapping <> [] ->
    getAbstractFileByPath host (ensureMdExtension (mocPath mapping))
      = Some mocFile ->
    loadMoc host st (ensureMdExtension (mocPath mapping)) mocFile
      = Some (st1, mocData) ->
    basename file ∉ MocData.links mocData ->
    vaultModify host
      (log st1 (AddingLink (basename file)
                  (ensureMdExtension (mocPath mapping))))
      mocFile (updatedContentOf file mocData) = Some st3 ->
    MappingOutcome file st mapping
      (setMocLinksCache
         (log (setTotalNotesAdded st3 (S (totalNotesAdded st3)))
            (AddedLink (basename file) (ensureMdExtension (mocPath mapping))
               (S (totalNotesAdded st3))))
         (<[ensureMdExtension (mocPath mapping) :=
              {| MocData.content := updatedContentOf file mocData;
                 MocData.links := MocData.links mocData ++ [basename file] |}]>
            (mocLinksCache st3))).

(** The hub text that a mapping selects for a file, when the hub path is
    not empty, resolves, and can be read. *)
Definition hubTextOf (st : State) (mapping : Mapping) : list str :=
  match mocPath mapping with
  | [] => []
  | _ =>
      match getAbstractFileByPath host (ensureMdExtension (mocPath mapping)) with
      | Some mocFile =>
          match vaultRead host st mocFile with
          | Some text => [text]
          | None => []
          end
      | None => []
      end
  end.

(** The (note, hub) pairs that the mappings select in a state: the
    basename of every markdown note whose data is cached or can be read,
    with the text of every hub that a mapping matching one of its tags
    points to. *)
Definition selectedPairs (st : State) (files : list TFile)
    : list (str * str) :=
  file ← files;
  if eqs (extension file) (lit "md")
  then match loadFile host st file with
       | Some (_, fileData) =>
           noteTag ← FileData.tags fileData;
           mapping ← matchingMappings settings noteTag;
           text ← hubTextOf st mapping;
           [(basename file, text)]
       | None => []
       end
  else [].

End BatchNotions.

(** The invariant of a run that writes nothing. *)
Definition quiet (host : Host) (st0 st : State) : Prop :=
  vaultText st = vaultText st0
  /\ totalNotesAdded st = 0
  /\ (forall file fileData,
        snd <$> loadFile host st file = Some fileData ->
        snd <$> loadFile host st0 file = Some fileData)
  /\ (forall p d,
        mocLinksCache st !! p = Some d ->
        exists mocFile text,
          getAbstractFileByPath host p = Some mocFile
          /\ vaultRead host st0 mocFile = Some text
          /\ d = {| MocData.content := text;
                    MocData.links := extractExistingLinks text |}).

Definition alreadyLinked (pair : str * str) : bool :=
  includes (extractExistingLinks (snd pair)) (fst pair).

(** The files that a run goes over. *)
Definition filesOfRun (host : Host) (settings : Settings) : list TFile :=
  getFilesInPath host
    match defaultPath settings with
    | [] => lit "/"
    | p => p
    end.

(** The longest prefix of characters of a class, and the rest. *)
Fixpoint munch (p : ascii -> bool) (s : str) : str :=
  match s with
  | c :: s' => if p c then c :: munch p s' else []
  | [] => []
  end.

Fixpoint afterMunch (p : ascii -> bool) (s : str) : str :=
  match s with
  | c :: s' => if p c then afterMunch p s' else s
  | [] => []
  end.

(** The front-matter block in the words of the specification: the text
    begins with a line [---], and the block runs up to the first line
    break that is followed by [---]. *)
Definition frontMatterOf (text : str) : option str :=
  match stripPrefix (lit "---\n") text with
  | Some rest =>
      match indexOf rest (lit "\n---") with
      | Some n => Some (take n rest)
      | None => None
      end
  | None => None
  end.

(** An entry of an inline list: not empty, without white space at its
    ends, and without comma, closing bracket or line terminator. *)
Definition entryChar (c : ascii) : bool :=
  dot c && negb (eqc "," c) && negb (eqc "]" c).

Definition isEntry (x : str) : bool :=
  negb (eqs x []) && eqs (trim x) x && forallb entryChar x.

(** The inline tags in the words of the specification: every [#] that is
    followed by one or more characters of [A-Za-z0-9_-] gives the run of
    these characters. *)
Fixpoint inline_tags_spec (text : str) : list str :=
  match text with
  | [] => []
  | c :: text' =>
      (if eqc "#" c
       then match munch wordChar text' with
            | [] => []
            | w => [w]
            end
       else [])
      ++ inline_tags_spec text'
  end.

(** A line opens a block when it begins with [tags], optional white space
    and a colon. *)
Definition opensBlock (line : str) : bool :=
  match stripPrefix (lit "tags") line with
  | Some r => startsWith (afterMunch isSpace r) (lit ":")
  | None => false
  end.

(** The value of a list item: optional white space, a dash, optional
    white space, and at least one more character up to the end of the
    line, none of them a line terminator. *)
Definition valueAfterDash (r : str) : option str :=
  match afterMunch isSpace r with
  | [] =>
      match last r with
      | Some c => if dot c then Some [] else None
      | None => None
      end
  | v => if forallb dot v then Some (trim v) else None
  end.

Definition itemValue (line : str) : option str :=
  match afterMunch isSpace line with
  | "-" :: r => valueAfterDash r
  | _ => None
  end.

(** The text from which the value of an item is taken. *)
Definition nonEmptyDots (r : str) : bool :=
  match r with
  | [] => false
  | _ => forallb dot r
  end.

(** A line begins with a dash after trimming. *)
Definition dashed (line : str) : bool := startsWith (trim line) (lit "-").

(** What a line does inside a block: it gives a tag, or is passed over,
    or ends the block. *)
Definition keepsBlock (line : str) : bool :=
  negb (opensBlock line)
  && (match itemValue line with Some _ => true | None => false end
      || dashed line).

Definition endsBlock (line : str) : bool :=
  negb (opensBlock line)
  && match itemValue line with Some _ => false | None => true end
  && negb (dashed line).

(** The block list in the words of the specification: the block starts
    after a line that is [tags:] up to white space around it, every
    following line that is a list item gives its value, and the first line
    that is not a list item ends the block for good. *)
Definition isTagsLine_spec (line : str) : bool := eqs (trim line) (lit "tags:").

Fixpoint block_items_spec (lines : list str) : list str :=
  match lines with
  | line :: lines' =>
      match itemValue line with
      | Some v => v :: block_items_spec lines'
      | None => []
      end
  | [] => []
  end.

Fixpoint block_tags_spec (lines : list str) : list str :=
  match lines with
  | line :: lines' =>
      if isTagsLine_spec line then block_items_spec lines'
      else block_tags_spec lines'
  | [] => []
  end.

(** ** Notions of the further properties *)

(** A name that a link line of the default format gives back: without
    white space at its ends and without bracket, bar or dollar sign. *)
Definition linkNameChar (c : ascii) : bool :=
  negb (eqc "[" c) && negb (eqc "]" c) && negb (eqc "|" c)
  && negb (eqc c "$").

Definition isLinkName (x : str) : bool :=
  eqs (trim x) x && forallb linkNameChar x.

(** The value of a scalar [tags] key: it starts with a character that is
    not white space and has no line feed and no bracket. *)
Definition isScalarValue (value : str) : bool :=
  match value with
  | c :: _ => negb (isSpace c) && forallb notNewlineOrBracket value
  | [] => false
  end.

(** The text after the value is empty or starts with a line feed. *)
Definition endsValue (rest : str) : bool :=
  match rest with
  | c :: _ => eqc c LF
  | [] => true
  end.

(** A file is below a node of the vault's tree when it is the node or is
    below one of the children of the node. *)
Inductive fileBelow (f : TFile) : TAbstractFile -> Prop :=
| FileHere : fileBelow f (AFile f)
| FileInFolder folderPath children child :
    child ∈ children -> fileBelow f child ->
    fileBelow f (AFolder folderPath children).

Definition noteB : TFile :=
  {| path := lit "notes/sub/B.md"; basename := lit "B";
     extension := lit "md" |}.

Definition picture : TFile :=
  {| path := lit "notes/pic.png"; basename := lit "pic";
     extension := lit "png" |}.

(** A vault with the folder [notes], which holds a picture and the
    folder [sub] with the note [B.md]. *)
Definition folderHost : Host :=
  {| getMarkdownFiles := [noteB];
     getAbstractFileByPath := fun p =>
       if eqs p (lit "notes")
       then Some (AFolder (lit "notes")
                    [AFile picture; AFolder (lit "notes/sub") [AFile noteB]])
       else None;
     readFails := never;
     modifyFails := never;
     raisesModify := true |}.

(** The paths of the files that the hub paths of the mappings resolve
    to. *)
Definition hubFilePaths (host : Host) (settings : Settings) : list str :=
  mapping ← tagMappings settings;
  match mocPath mapping with
  | [] => []
  | _ =>
      match getAbstractFileByPath host (ensureMdExtension (mocPath mapping)) with
      | Some (AFile f) => [path f]
      | _ => []
      end
  end.

(** The cache of the notes agrees with the vault: an entry holds the
    text of its file and the tags of that text. *)
Definition coherentNotes (st : State) : Prop :=
  forall p d,
    p <> [] -> fileCache st !! p = Some d ->
    vaultText st !! p = Some (FileData.content d)
    /\ FileData.tags d = extractTags (FileData.content d).

(** The host resolves a path to the file at that path. *)
Definition resolvesByPath (host : Host) : Prop :=
  forall p f, getAbstractFileByPath host p = Some (AFile f) -> path f = p.


(** The settings with another batch size, as the slider of the settings
    tab stores it. *)
Definition setBatchSize (settings : Settings) (value : positive) : Settings :=
  {| tagMappings := tagMappings settings;
     defaultPath := defaultPath settings;
     appendFormat := appendFormat settings;
     sectionHeading := sectionHeading settings;
     batchSize := value |}.

(** The settings with another table of mappings. *)
Definition setTagMappings (settings : Settings) (mappings : list Mapping)
    : Settings :=
  {| tagMappings := mappings;
     defaultPath := defaultPath settings;
     appendFormat := appendFormat settings;
     sectionHeading := sectionHeading settings;
     batchSize := batchSize settings |}.

(** The button [Add New Mapping] of the settings tab. *)
Definition addNewMapping (settings : Settings) : Settings :=
  setTagMappings settings
    (tagMappings settings ++ [{| tag := []; mocPath := [] |}]).

(** A state without the progress notices of the batches. *)
Definition isProgress (e : Event) : bool :=
  match e with
  | NoticeProcessed _ _ => true
  | _ => false
  end.

Definition setConsole (st : State) (events : list Event) : State :=
  {| vaultText := vaultText st; fileCache := fileCache st;
     mocLinksCache := mocLinksCache st;
     totalNotesAdded := totalNotesAdded st; console := events |}.

Definition withoutProgress (st : State) : State :=
  setConsole st (List.filter (fun e => negb (isProgress e)) (console st)).

(** A step adds to the console and does not read it. *)
Definition addsToConsole (step : State -> State) : Prop :=
  forall st,
    step st = setConsole (step (setConsole st []))
                (console st ++ console (step (setConsole st []))).

(** The pattern of the settings tab, [/\.md$/i]: with the flag [i] a
    letter stands for both of its cases. *)
Definition letterM (c : ascii) : bool := eqc c "m" || eqc c "M".
Definition letterD (c : ascii) : bool := eqc c "d" || eqc c "D".

Definition mdSuffixRe : regex :=
  Cat (Lit (lit ".")) (Cat (Cls letterM) (Cat (Cls letterD) InputEnd)).

(** The hub path that the settings tab shows for a mapping:
    [mapping.mocPath ? mapping.mocPath.replace(/\.md$/i, '') : ''] *)
Definition shownMocPath (mocPath : str) : str :=
  match mocPath with
  | [] => []
  | _ => replace mocPath mdSuffixRe []
  end.

(** The three characters of a markdown extension. *)
Definition isMdSuffix (x y z : ascii) : bool :=
  eqc x "." && letterM y && letterD z.

(** The text between the brackets of an inline list: no closing bracket
    and no line terminator. *)
Definition listChar (c : ascii) : bool := dot c && negb (eqc "]" c).

(** A pattern matches at a position of a text, and at no position before
    a given one. *)
Definition matchesAt (re : regex) (before rest : str) : bool :=
  match matchAt re (fun b' r' g => Some (b', r', g)) before rest None with
  | Some _ => true
  | None => false
  end.

Definition noMatchBefore (re : regex) (n : nat) (s : str) : bool :=
  forallb (fun i => negb (matchesAt re (take i s) (drop i s))) (seq 0 n).

(** ** The pattern source of [new RegExp]

    The part of the pattern syntax that the source of the heading pattern
    can hold, read as the constructor reads it: a syntax character has
    its meaning unless a backslash stands before it, and every other
    character stands for itself.  A pattern with anything else ([+], [?],
    brackets, braces, [|], other escapes, a [*] with nothing to repeat)
    is not read. *)

(** SyntaxCharacter of the grammar of patterns. *)
Definition isPatternSyntaxChar (c : ascii) : bool :=
  existsb (eqc c) (lit "^$\\.*+?()[]{}|").

Inductive token : Type :=
| TChar (c : ascii)
| TSpace
| TDot
| TStar
| TStart
| TEnd.

Fixpoint tokens (source : str) : option (list token) :=
  match source with
  | [] => Some []
  | c :: rest =>
      if eqc c "\" then
        match rest with
        | d :: rest' =>
            if isPatternSyntaxChar d then cons (TChar d) <$> tokens rest'
            else if eqc d "s" then cons TSpace <$> tokens rest'
            else None
        | [] => None
        end
      else if eqc c "^" then cons TStart <$> tokens rest
      else if eqc c "$" then cons TEnd <$> tokens rest
      else if eqc c "." then cons TDot <$> tokens rest
      else if eqc c "*" then cons TStar <$> tokens rest
      else if isPatternSyntaxChar c then None
      else cons (TChar c) <$> tokens rest
  end.

(** The pattern of a sequence of terms; a [*] repeats the atom before
    it. *)
Fixpoint terms (multiline : bool) (ts : list token) : option regex :=
  match ts with
  | [] => Some (Lit [])
  | t :: ts' =>
      let atom (one : regex) (many : ascii -> bool) :=
        match ts' with
        | TStar :: ts'' => Cat (Star many) <$> terms multiline ts''
        | _ => Cat one <$> terms multiline ts'
        end in
      match t with
      | TChar c => atom (Lit [c]) (eqc c)
      | TSpace => atom (Cls isSpace) isSpace
      | TDot => atom (Cls dot) dot
      | TStar => None
      | TStart =>
          Cat (if multiline then LineStart else InputStart)
            <$> terms multiline ts'
      | TEnd =>
          Cat (if multiline then LineEnd else InputEnd)
            <$> terms multiline ts'
      end
  end.

(** [new RegExp(source, 'm')] and [new RegExp(source)] *)
Definition compilePattern (multiline : bool) (source : str) : option regex :=
  tokens source ≫= terms multiline.

(** The pattern of a text taken character by character. *)
Definition literally (h : str) (then_ : regex) : regex :=
  foldr (fun c re => Cat (Lit [c]) re) then_ h.

(** * Properties *)

(** ** Properties of the string primitives *)

Lemma eqc_true (a b : ascii) : eqc a b = true <-> a = b.
Proof. unfold eqc. apply Ascii.eqb_eq. Qed.

Lemma eqc_refl (a : ascii) : eqc a a = true.
Proof. apply eqc_true. reflexivity. Qed.

Lemma eqs_true (a b : str) : eqs a b = true <-> a = b.
Proof.
  revert b. induction a as [|x a IH]; intros [|y b]; simpl; split;
    try congruence; try reflexivity.
  - intros H. apply andb_true_iff in H as [Hx Ha].
    apply eqc_true in Hx. apply IH in Ha. congruence.
  - intros H. injection H as -> ->. rewrite eqc_refl. simpl. apply IH.
    reflexivity.
Qed.

Lemma stripPrefix_Some (p s r : str) :
  stripPrefix p s = Some r <-> s = p ++ r.
Proof.
  revert s. induction p as [|x p IH]; intros s; simpl.
  - split; congruence.
  - destruct s as [|y s]; [split; discriminate|].
    destruct (eqc x y) eqn:E.
    + apply eqc_true in E. subst y. rewrite IH. split; congruence.
    + split; [discriminate|]. intros H. injection H as -> _.
      rewrite eqc_refl in E. discriminate.
Qed.

Lemma stripPrefix_app (p r : str) : stripPrefix p (p ++ r) = Some r.
Proof. apply stripPrefix_Some. reflexivity. Qed.

Lemma startsWith_true (s p : str) :
  startsWith s p = true <-> exists r, s = p ++ r.
Proof.
  unfold startsWith. destruct (stripPrefix p s) as [r|] eqn:E.
  - apply stripPrefix_Some in E. split; eauto.
  - split; [discriminate|]. intros [r ->].
    rewrite stripPrefix_app in E. discriminate.
Qed.

Lemma lowerChar_m (c : ascii) :
  eqc "m" (lowerChar c) = eqc c "m" || eqc c "M".
Proof.
  destruct c as [[] [] [] [] [] [] [] []]; vm_compute; reflexivity.
Qed.

Lemma lowerChar_d (c : ascii) :
  eqc "d" (lowerChar c) = eqc c "d" || eqc c "D".
Proof.
  destruct c as [[] [] [] [] [] [] [] []]; vm_compute; reflexivity.
Qed.

Lemma lowerChar_dot (c : ascii) : eqc "." (lowerChar c) = eqc c ".".
Proof.
  destruct c as [[] [] [] [] [] [] [] []]; vm_compute; reflexivity.
Qed.

Lemma endsWith_lower_md (path : str) :
  endsWith (toLowerCase path) (lit ".md") = hasMdExtension path.
Proof.
  unfold endsWith, toLowerCase, hasMdExtension, startsWith.
  rewrite <- map_rev.
  destruct (rev path) as [|d [|m [|dot r]]]; simpl; try reflexivity.
  - destruct (eqc "d" (lowerChar d)); reflexivity.
  - destruct (eqc "d" (lowerChar d)); [|reflexivity].
    destruct (eqc "m" (lowerChar m)); reflexivity.
  - rewrite lowerChar_d, lowerChar_m, lowerChar_dot.
    destruct (eqc d "d" || eqc d "D"), (eqc m "m" || eqc m "M"),
      (eqc dot "."); reflexivity.
Qed.

Lemma hasMdExtension_app_md (path : str) :
  hasMdExtension (path ++ lit ".md") = true.
Proof.
  unfold hasMdExtension. rewrite rev_app_distr. reflexivity.
Qed.

(** ** Hub-path normalization *)

(** C10: [ensureMdExtension] returns the empty path and every path that
    ends with [.md] in any letter case unchanged, appends [.md] to every
    other path, and applying it twice is the same as applying it once. *)
Theorem ensureMdExtension_idempotent (path : str) :
  ensureMdExtension path =
    (if bool_decide (path = []) || hasMdExtension path then path
     else path ++ lit ".md")
  /\ ensureMdExtension (lit "MOC.MD") = lit "MOC.MD"
  /\ ensureMdExtension (ensureMdExtension path) = ensureMdExtension path.
Proof.
  assert (Hdef : forall p, ensureMdExtension p =
            if bool_decide (p = []) || hasMdExtension p then p
            else p ++ lit ".md").
  { intros [|c p]; [reflexivity|].
    unfold ensureMdExtension. rewrite endsWith_lower_md.
    rewrite bool_decide_eq_false_2 by discriminate. reflexivity. }
  split; [apply Hdef|]. split; [reflexivity|].
  rewrite (Hdef path).
  destruct (bool_decide (path = []) || hasMdExtension path) eqn:E.
  - rewrite Hdef, E. reflexivity.
  - rewrite Hdef, hasMdExtension_app_md, orb_true_r. reflexivity.
Qed.

(** ** Mapping resolution *)

Lemma withoutHash_stripHash (t : str) : withoutHash t = stripHash t.
Proof.
  unfold withoutHash, startsWith. destruct t as [|c t]; [reflexivity|].
  simpl. destruct (eqc "#" c) eqn:E.
  - apply eqc_true in E. subst c. reflexivity.
  - destruct c as [[] [] [] [] [] [] [] []]; try reflexivity.
    vm_compute in E. discriminate.
Qed.

(** C8: the mappings resolved for a tag are exactly the mappings of the
    table whose hash-stripped tag equals the hash-stripped tag, in the
    order of the table; the result is empty when none matches, and the tag
    is then passed over without any effect; [maths] is matched by [#maths]
    and by [maths], and neither by [Maths] nor by [math]. *)
Theorem matchingMappings_exact (settings : Settings) (noteTag : str) :
  matchingMappings settings noteTag =
    filter (fun m => stripHash (tag m) = stripHash noteTag)
      (tagMappings settings)
  /\ (forall m, m ∈ matchingMappings settings noteTag <->
        m ∈ tagMappings settings /\ stripHash (tag m) = stripHash noteTag)
  /\ (matchingMappings settings noteTag = [] <->
        forall m, m ∈ tagMappings settings ->
          stripHash (tag m) <> stripHash noteTag)
  /\ (forall host file st, matchingMappings settings noteTag = [] ->
        processTag host settings file st noteTag = st)
  /\ matchingMappings (settingsWith [mappingTo "maths" "MOC"]) (lit "#maths")
       = [mappingTo "maths" "MOC"]
  /\ matchingMappings (settingsWith [mappingTo "maths" "MOC"]) (lit "maths")
       = [mappingTo "maths" "MOC"]
  /\ matchingMappings (settingsWith [mappingTo "#maths" "MOC"]) (lit "maths")
       = [mappingTo "#maths" "MOC"]
  /\ matchingMappings (settingsWith [mappingTo "maths" "MOC"]) (lit "Maths")
       = []
  /\ matchingMappings (settingsWith [mappingTo "maths" "MOC"]) (lit "math")
       = [].
Proof.
  assert (Heq : matchingMappings settings noteTag =
                filter (fun m => stripHash (tag m) = stripHash noteTag)
                  (tagMappings settings)).
  { unfold matchingMappings. rewrite withoutHash_stripHash.
    apply list_filter_iff. intros m. rewrite withoutHash_stripHash. done. }
  split; [exact Heq|]. split; [|split; [|split]].
  - intros m. rewrite Heq, list_elem_of_filter. tauto.
  - rewrite Heq. split.
    + intros Hnil m Hm Hmatch.
      assert (Hin : m ∈ filter (fun m => stripHash (tag m) = stripHash noteTag)
                          (tagMappings settings))
        by (apply list_elem_of_filter; done).
      rewrite Hnil in Hin. by apply not_elem_of_nil in Hin.
    + intros Hnone.
      destruct (filter _ (tagMappings settings)) as [|m l] eqn:E; [done|].
      assert (Hin : m ∈ m :: l) by left.
      rewrite <- E in Hin. apply list_elem_of_filter in Hin as [Hmatch Hm].
      by destruct (Hnone m Hm).
  - intros host file st Hnil. unfold processTag. by rewrite Hnil.
  - repeat split; vm_compute; reflexivity.
Qed.

(** ** Splitting and scanning *)

Lemma startsWith_nil_false (sep : str) :
  sep <> [] -> startsWith [] sep = false.
Proof. destruct sep; [congruence|reflexivity]. Qed.

Lemma indexOf_nil (sep : str) : sep <> [] -> indexOf [] sep = None.
Proof. intros H. simpl. rewrite startsWith_nil_false by done. reflexivity. Qed.

Lemma indexOf_cons (c : ascii) (s sep : str) :
  indexOf (c :: s) sep =
    if startsWith (c :: s) sep then Some 0 else option_map S (indexOf s sep).
Proof. reflexivity. Qed.

Lemma startsWith_length (s sep : str) :
  startsWith s sep = true -> length sep <= length s.
Proof.
  intros H. apply startsWith_true in H as [r ->]. rewrite length_app. lia.
Qed.

Lemma splitFrom_skip (sep cur : str) (k : nat) (s : str) :
  k <= length s -> splitFrom sep cur k s = splitFrom sep cur 0 (drop k s).
Proof.
  revert k. induction s as [|c s IH]; intros [|k] Hk; simpl in *;
    try reflexivity; try lia.
  apply IH. lia.
Qed.

(** [split] cuts at the first occurrence of the separator and goes on
    after it. *)
Lemma splitFrom_indexOf (sep cur s : str) :
  sep <> [] ->
  splitFrom sep cur 0 s =
    match indexOf s sep with
    | None => [rev cur ++ s]
    | Some i => (rev cur ++ take i s) :: splitFrom sep [] 0 (drop (i + length sep) s)
    end.
Proof.
  intros Hsep. revert cur. induction s as [|c s IH]; intros cur.
  - rewrite indexOf_nil by done. simpl. by rewrite app_nil_r.
  - rewrite indexOf_cons. cbn [splitFrom].
    destruct (startsWith (c :: s) sep) eqn:E.
    + apply startsWith_length in E. simpl in E.
      rewrite splitFrom_skip by lia. simpl. rewrite app_nil_r.
      destruct sep as [|x sep]; [done|]. simpl. by rewrite Nat.sub_0_r.
    + rewrite IH. destruct (indexOf s sep) as [i|]; simpl.
      * by rewrite <- app_assoc.
      * by rewrite <- app_assoc.
Qed.

Lemma split_indexOf (s sep : str) :
  sep <> [] ->
  split s sep =
    match indexOf s sep with
    | None => [s]
    | Some i => take i s :: split (drop (i + length sep) s) sep
    end.
Proof.
  intros Hsep. unfold split. rewrite splitFrom_indexOf by done.
  destruct (indexOf s sep); reflexivity.
Qed.

Lemma split_head (s sep : str) :
  sep <> [] -> split s sep = upTo sep s :: drop 1 (split s sep).
Proof.
  intros Hsep. unfold upTo. rewrite split_indexOf by done.
  destruct (indexOf s sep); reflexivity.
Qed.

Lemma split_tail (s sep : str) :
  sep <> [] ->
  drop 1 (split s sep) =
    match indexOf s sep with
    | None => []
    | Some i => split (drop (i + length sep) s) sep
    end.
Proof.
  intros Hsep. rewrite split_indexOf by done.
  destruct (indexOf s sep); reflexivity.
Qed.

(** ** Link extraction *)

Lemma scanLinks_skip (name : str -> list str) (k : nat) (s : str) :
  k <= length s -> scanLinks name k s = scanLinks name 0 (drop k s).
Proof.
  revert k. induction s as [|c s IH]; intros [|k] Hk; simpl in *;
    try reflexivity; try lia.
  apply IH. lia.
Qed.

Lemma scanLinks_indexOf (name : str -> list str) (s : str) :
  scanLinks name 0 s =
    match indexOf s (lit "[[") with
    | None => []
    | Some i => name (drop (i + 2) s) ++ scanLinks name 0 (drop (i + 2) s)
    end.
Proof.
  induction s as [|c s IH]; [reflexivity|].
  rewrite indexOf_cons. cbn [scanLinks].
  destruct (startsWith (c :: s) (lit "[[")) eqn:E.
  - apply startsWith_length in E. simpl in E.
    rewrite scanLinks_skip by lia. reflexivity.
  - rewrite IH. destruct (indexOf s (lit "[[")); reflexivity.
Qed.

Lemma linkOfSection_delimited (section : str) :
  linkOfSection section = delimited section.
Proof.
  unfold linkOfSection, delimited, linkedName, substringTo.
  destruct (indexOf section (lit "]]")) as [j|]; [|reflexivity].
  rewrite split_head by done. reflexivity.
Qed.

Lemma extractExistingLinks_indexOf (s : str) :
  extractExistingLinks s =
    match indexOf s (lit "[[") with
    | None => []
    | Some i =>
        delimited (upTo (lit "[[") (drop (i + 2) s))
        ++ extractExistingLinks (drop (i + 2) s)
    end.
Proof.
  unfold extractExistingLinks. rewrite split_tail by done.
  destruct (indexOf s (lit "[[")) as [i|]; [|reflexivity].
  change (length (lit "[[")) with 2.
  rewrite (split_head (drop (i + 2) s)) at 1 by done.
  simpl. by rewrite linkOfSection_delimited.
Qed.

Lemma extractExistingLinks_cut_bounded (n : nat) (s : str) :
  length s <= n -> extractExistingLinks s = extract_links_cut s.
Proof.
  revert s. induction n as [|n IH]; intros s Hn.
  - destruct s; [reflexivity|simpl in Hn; lia].
  - rewrite extractExistingLinks_indexOf. unfold extract_links_cut.
    rewrite scanLinks_indexOf.
    destruct (indexOf s (lit "[[")) as [i|] eqn:E; [|reflexivity].
    f_equal. apply IH. rewrite length_drop.
    destruct s; [discriminate|]. cbn [length] in Hn |- *. lia.
Qed.

(** C5, as the code has it: the text is scanned for [\[\[] and every
    occurrence contributes the name delimited by it and the next [\]\]]
    only when that [\]\]] comes before the next [\[\[]; the name is the
    portion before the first [|], trimmed.  A [\[\[] with no [\]\]] before
    the next [\[\[] or the end of the text contributes nothing. *)
Theorem extractExistingLinks_cut (text : str) :
  extractExistingLinks text = extract_links_cut text
  /\ extractExistingLinks (lit "see [[ Note A | alias ]] and [[B]] and [[C")
       = [lit "Note A"; lit "B"].
Proof.
  split; [|vm_compute; reflexivity].
  apply (extractExistingLinks_cut_bounded (length text)). lia.
Qed.

(** C5 fails as stated: in [\[\[a \[\[b\]\]] the first [\[\[] is followed
    by a [\]\]], yet it contributes no name. *)
Lemma extractExistingLinks_not_spec :
  extractExistingLinks (lit "[[a [[b]]") = [lit "b"]
  /\ extract_links_spec (lit "[[a [[b]]") = [lit "a [[b"; lit "b"]
  /\ extractExistingLinks (lit "[[a [[b]]")
       <> extract_links_spec (lit "[[a [[b]]").
Proof.
  split; [vm_compute; reflexivity|].
  split; [vm_compute; reflexivity|].
  vm_compute. discriminate.
Qed.

(** ** Properties of the matcher *)

Section MatcherFacts.
Context {A : Type}.
Implicit Types (p : ascii -> bool) (k : str -> str -> option A).

Lemma starGreedy_sound p k (b r : str) (x : A) :
  starGreedy p k b r = Some x ->
  exists ws r', r = ws ++ r' /\ forallb p ws = true /\ k (b ++ ws) r' = Some x.
Proof.
  revert b. induction r as [|c r IH]; intros b H; simpl in H.
  - exists [], []. simpl. rewrite app_nil_r. auto.
  - destruct (p c) eqn:Hc.
    + destruct (starGreedy p k (b ++ [c]) r) as [y|] eqn:E.
      * injection H as ->. apply IH in E as (ws & r' & -> & Hws & Hk).
        exists (c :: ws), r'. simpl. rewrite Hc, Hws.
        rewrite <- app_assoc in Hk. auto.
      * exists [], (c :: r). simpl. rewrite app_nil_r. auto.
    + exists [], (c :: r). simpl. rewrite app_nil_r. auto.
Qed.

Lemma starGreedy_here p k (b r : str) :
  is_Some (k b r) -> is_Some (starGreedy p k b r).
Proof.
  intros H. destruct r as [|c r]; simpl; [done|].
  destruct (p c); [|done]. by destruct (starGreedy p k (b ++ [c]) r).
Qed.

Lemma starGreedy_complete p k (b ws r' : str) :
  forallb p ws = true -> is_Some (k (b ++ ws) r') ->
  is_Some (starGreedy p k b (ws ++ r')).
Proof.
  revert b. induction ws as [|c ws IH]; intros b Hws Hk.
  - rewrite app_nil_r in Hk. by apply starGreedy_here.
  - simpl in Hws. apply andb_true_iff in Hws as [Hc Hws]. simpl. rewrite Hc.
    assert (Hin : is_Some (starGreedy p k (b ++ [c]) (ws ++ r'))).
    { apply IH; [done|]. by rewrite <- app_assoc. }
    destruct Hin as [y ->]. by eexists.
Qed.

End MatcherFacts.

Lemma search_sound (re : regex) (b r : str) (res : result) :
  search re b r = Some res ->
  exists skipped r0 b',
    r = skipped ++ r0 /\ mBefore res = b ++ skipped
    /\ matchAt re (fun b' r' g => Some (b', r', g)) (b ++ skipped) r0 None
         = Some (b', mAfter res, mGroup res)
    /\ mText res = drop (length (b ++ skipped)) b'.
Proof.
  revert b. induction r as [|c r IH]; intros b H; simpl in H.
  - destruct (matchAt re _ b [] None) as [[[b' r'] g]|] eqn:E; [|done].
    injection H as <-. exists [], [], b'. simpl. rewrite app_nil_r. auto.
  - destruct (matchAt re _ b (c :: r) None) as [[[b' r'] g]|] eqn:E.
    + injection H as <-. exists [], (c :: r), b'. simpl.
      rewrite app_nil_r. auto.
    + apply IH in H as (skipped & r0 & b' & -> & Hb & Hm & Ht).
      exists (c :: skipped), r0, b'.
      rewrite <- app_assoc in Hb, Hm, Ht. auto.
Qed.

Lemma search_complete (re : regex) (b skipped r0 : str) :
  is_Some (matchAt re (fun b' r' g => Some (b', r', g)) (b ++ skipped) r0 None) ->
  exists res, search re b (skipped ++ r0) = Some res
              /\ length (mBefore res) <= length (b ++ skipped).
Proof.
  revert b. induction skipped as [|c skipped IH]; intros b H.
  - rewrite app_nil_r in H. destruct H as [[[b' r'] g] H].
    exists (Result b (drop (length b) b') g r'). rewrite app_nil_r.
    split; [|done]. simpl. destruct r0; simpl; by rewrite H.
  - simpl.
    destruct (matchAt re _ b (c :: skipped ++ r0) None) as [[[b' r'] g]|] eqn:E.
    + eexists. split; [reflexivity|]. simpl. rewrite length_app. lia.
    + assert (Hb : b ++ c :: skipped = (b ++ [c]) ++ skipped)
        by (by rewrite <- app_assoc).
      rewrite Hb in H |- *. by apply IH.
Qed.

Lemma search_none (re : regex) (b skipped r0 : str) :
  search re b (skipped ++ r0) = None ->
  matchAt re (fun b' r' g => Some (b', r', g)) (b ++ skipped) r0 None = None.
Proof.
  intros H.
  destruct (matchAt re _ (b ++ skipped) r0 None) as [x|] eqn:E; [|done].
  destruct (search_complete re b skipped r0) as (res & Hres & _);
    [by rewrite E|]. congruence.
Qed.

Lemma starGreedy_greedy {A : Type} (p : ascii -> bool)
    (k : str -> str -> option A) (b r : str) (x : A) :
  starGreedy p k b r = Some x ->
  exists ws r',
    r = ws ++ r' /\ forallb p ws = true /\ k (b ++ ws) r' = Some x
    /\ forall ws2 r2, r = ws2 ++ r2 -> forallb p ws2 = true ->
         length ws < length ws2 -> k (b ++ ws2) r2 = None.
Proof.
  revert b. induction r as [|c r IH]; intros b H; simpl in H.
  - exists [], []. simpl. rewrite app_nil_r. repeat split; auto.
    intros [|c2 ws2] r2 Hr _ Hlen; [simpl in Hlen; lia|discriminate].
  - assert (Hfallback : k b (c :: r) = Some x ->
              (forall ws2 r2, c :: r = ws2 ++ r2 -> forallb p ws2 = true ->
                 0 < length ws2 -> k (b ++ ws2) r2 = None) ->
              exists ws r', c :: r = ws ++ r' /\ forallb p ws = true
                /\ k (b ++ ws) r' = Some x
                /\ forall ws2 r2, c :: r = ws2 ++ r2 -> forallb p ws2 = true ->
                     length ws < length ws2 -> k (b ++ ws2) r2 = None).
    { intros Hk Hmax. exists [], (c :: r). simpl. rewrite app_nil_r. auto. }
    destruct (p c) eqn:Hc.
    + destruct (starGreedy p k (b ++ [c]) r) as [y|] eqn:E.
      * injection H as ->.
        apply IH in E as (ws & r' & -> & Hws & Hk & Hmax).
        exists (c :: ws), r'. simpl. rewrite Hc, Hws.
        rewrite <- app_assoc in Hk. repeat split; auto.
        intros [|c2 ws2] r2 Hr Hws2 Hlen; [simpl in Hlen; lia|].
        simpl in Hr. injection Hr as <- Hr. simpl in Hws2.
        apply andb_true_iff in Hws2 as [_ Hws2].
        specialize (Hmax ws2 r2 Hr Hws2). rewrite <- app_assoc in Hmax.
        apply Hmax. simpl in Hlen. lia.
      * apply Hfallback; [done|].
        intros [|c2 ws2] r2 Hr Hws2 Hlen; [simpl in Hlen; lia|].
        simpl in Hr. injection Hr as <- Hr. simpl in Hws2.
        apply andb_true_iff in Hws2 as [_ Hws2].
        destruct (k (b ++ c :: ws2) r2) as [z|] eqn:Hz; [|done].
        assert (Hsome : is_Some (starGreedy p k (b ++ [c]) (ws2 ++ r2))).
        { apply starGreedy_complete; [done|].
          rewrite <- app_assoc. simpl. by rewrite Hz. }
        rewrite <- Hr, E in Hsome. by destruct Hsome.
    + apply Hfallback; [done|].
      intros [|c2 ws2] r2 Hr Hws2 Hlen; [simpl in Hlen; lia|].
      simpl in Hr. injection Hr as <- Hr. simpl in Hws2. rewrite Hc in Hws2.
      discriminate.
Qed.

(** ** The heading pattern *)

Lemma isSyntaxChar_backslash (c : ascii) :
  isSyntaxChar c = false -> c <> "\".
Proof. intros H ->. vm_compute in H. discriminate. Qed.

Lemma readEscaped_plain (c : ascii) (p : str) :
  c <> "\" -> readEscaped (c :: p) = c :: readEscaped p.
Proof.
  intros Hc. destruct c as [[] [] [] [] [] [] [] []]; try reflexivity.
  by destruct Hc.
Qed.

(** Escaping makes the heading a literal: the pattern source built from
    the escaped heading reads back as the heading itself. *)
Lemma readEscaped_escapeRegExp (h : str) : readEscaped (escapeRegExp h) = h.
Proof.
  induction h as [|c h IH]; [reflexivity|]. simpl.
  destruct (isSyntaxChar c) eqn:E.
  - simpl. by rewrite IH.
  - rewrite readEscaped_plain by (by apply isSyntaxChar_backslash).
    by rewrite IH.
Qed.

Lemma matchAt_heading {A : Type} (h : str)
    (k : str -> str -> option str -> option A) (b r : str) (g : option str) :
  matchAt (headingRegex h) k b r g =
    if atLineStart b
    then match stripPrefix h r with
         | Some r1 =>
             starGreedy isSpace
               (fun b' r' => if atLineEnd r' then k b' r' g else None)
               (b ++ h) r1
         | None => None
         end
    else None.
Proof. unfold headingRegex. rewrite readEscaped_escapeRegExp. reflexivity. Qed.

(** A match of the heading pattern: the heading at the start of a line,
    followed by the longest run of white space after which a line ends. *)
Lemma exec_heading_sound (h content : str) (m : result) :
  exec (headingRegex h) content = Some m ->
  exists ws,
    content = mBefore m ++ h ++ ws ++ mAfter m
    /\ mText m = h ++ ws
    /\ atLineStart (mBefore m) = true
    /\ forallb isSpace ws = true
    /\ atLineEnd (mAfter m) = true
    /\ forall ws2 post2, ws ++ mAfter m = ws2 ++ post2 ->
         forallb isSpace ws2 = true -> atLineEnd post2 = true ->
         length ws2 <= length ws.
Proof.
  intros H. apply search_sound in H as (skipped & r0 & b' & -> & Hb & Hm & Ht).
  cbn [app] in Hb, Hm, Ht. rewrite <- Hb in *. clear Hb skipped.
  rewrite matchAt_heading in Hm.
  destruct (atLineStart (mBefore m)) eqn:Hstart; [|done].
  destruct (stripPrefix h r0) as [r1|] eqn:Hh; [|done].
  apply stripPrefix_Some in Hh as ->.
  apply starGreedy_greedy in Hm as (ws & r' & -> & Hws & Hk & Hmax).
  destruct (atLineEnd r') eqn:Hend; [|done].
  injection Hk as <- <- _. exists ws. repeat split; auto.
  - rewrite Ht, <- app_assoc. by rewrite drop_app_length.
  - intros ws2 post2 Heq Hws2 Hend2.
    destruct (decide (length ws2 <= length ws)) as [|Hgt]; [done|].
    specialize (Hmax ws2 post2 Heq Hws2). rewrite Hend2 in Hmax.
    discriminate Hmax. lia.
Qed.

Lemma exec_heading_complete (h pre ws post : str) :
  atLineStart pre = true -> forallb isSpace ws = true ->
  atLineEnd post = true ->
  exists m, exec (headingRegex h) (pre ++ h ++ ws ++ post) = Some m
            /\ length (mBefore m) <= length pre.
Proof.
  intros Hstart Hws Hend. apply (search_complete _ [] pre).
  cbn [app]. rewrite matchAt_heading, Hstart, stripPrefix_app.
  apply starGreedy_complete; [done|]. by rewrite Hend.
Qed.

Lemma getSubstitution_plain_char (matched before after : str) (c : ascii)
    (t : str) :
  eqc c "$" = false ->
  getSubstitution matched before after (c :: t)
  = c :: getSubstitution matched before after t.
Proof.
  intros Hc. destruct c as [[] [] [] [] [] [] [] []]; try reflexivity.
  vm_compute in Hc. discriminate.
Qed.

Lemma getSubstitution_lone_dollar (matched before after : str) (d : ascii)
    (t : str) :
  isPatternChar d = false ->
  getSubstitution matched before after ("$" :: d :: t)
  = "$" :: getSubstitution matched before after (d :: t).
Proof.
  intros Hd. destruct d as [[] [] [] [] [] [] [] []]; try reflexivity;
    vm_compute in Hd; discriminate.
Qed.

Lemma getSubstitution_plain (matched before after t : str) :
  plainTemplate t = true -> getSubstitution matched before after t = t.
Proof.
  induction t as [|c t IH]; [reflexivity|]. intros H.
  cbn [plainTemplate] in H. apply andb_true_iff in H as [Hc Ht].
  destruct (eqc c "$") eqn:E.
  - apply eqc_true in E. subst c. destruct t as [|d t]; [reflexivity|].
    cbn [negb orb] in Hc. apply negb_true_iff in Hc.
    rewrite getSubstitution_lone_dollar by done. f_equal. by apply IH.
  - rewrite getSubstitution_plain_char by done. f_equal. by apply IH.
Qed.

(** What [addLinkToMOC] returns, by the outcome of the search for the
    heading. *)
Lemma addLinkToMOC_exec (content newLink h : str) :
  plainTemplate (h ++ lit "\n" ++ newLink) = true ->
  addLinkToMOC content newLink h =
    match exec (headingRegex h) content with
    | Some m => mBefore m ++ h ++ lit "\n" ++ newLink ++ mAfter m
    | None => content ++ lit "\n\n" ++ h ++ lit "\n" ++ newLink
    end.
Proof.
  intros Hfree. unfold addLinkToMOC, test, replace.
  destruct (exec (headingRegex h) content) as [m|]; [|reflexivity].
  rewrite getSubstitution_plain by done.
  by rewrite <- !app_assoc.
Qed.




(** C4, as the code has it: when a line of the text is the heading up to
    trailing white space, and the heading, a newline and the link line
    make a plain replacement text, the first such heading, together with
    the longest run of white space after it that ends at a line end, is
    replaced by the heading, a newline and the link line; all that came
    before the heading and all that came after that white space is kept. *)
Theorem addLinkToMOC_under_heading
    (pre0 ws0 post0 newLink sectionHeading : str) :
  plainTemplate (sectionHeading ++ lit "\n" ++ newLink) = true ->
  atLineStart pre0 = true -> forallb isSpace ws0 = true ->
  atLineEnd post0 = true ->
  (exists pre ws post,
     pre0 ++ sectionHeading ++ ws0 ++ post0
     = pre ++ sectionHeading ++ ws ++ post
     /\ length pre <= length pre0
     /\ atLineStart pre = true /\ forallb isSpace ws = true
     /\ atLineEnd post = true
     /\ (forall ws2 post2, ws ++ post = ws2 ++ post2 ->
           forallb isSpace ws2 = true -> atLineEnd post2 = true ->
           length ws2 <= length ws)
     /\ addLinkToMOC (pre0 ++ sectionHeading ++ ws0 ++ post0) newLink
          sectionHeading
        = pre ++ sectionHeading ++ lit "\n" ++ newLink ++ post)
  /\ addLinkToMOC (lit "## Links\n- [[A]]") (lit "- [[B]]") (lit "## Links")
     = lit "## Links\n- [[B]]\n- [[A]]".
Proof.
  intros Hfree Hs0 Hws0 He0. split; [|vm_compute; reflexivity].
  rewrite addLinkToMOC_exec by done.
  destruct (exec_heading_complete sectionHeading pre0 ws0 post0 Hs0 Hws0 He0)
    as (m & Hm & Hlen).
  rewrite Hm.
  apply exec_heading_sound in Hm as (ws & Hc & _ & Hs & Hws & He & Hmax).
  exists (mBefore m), ws, (mAfter m). auto 10.
Qed.

Lemma addLinkToMOC_under_heading_witness :
  (plainTemplate (lit "## Links" ++ lit "\n" ++ lit "- [[B]]") = true
   /\ atLineStart [] = true /\ forallb isSpace [] = true
   /\ atLineEnd (lit "\n- [[A]]") = true)
  /\ exists pre ws post,
       [] ++ lit "## Links" ++ [] ++ lit "\n- [[A]]"
       = pre ++ lit "## Links" ++ ws ++ post
       /\ length pre <= length (@nil ascii)
       /\ atLineStart pre = true /\ forallb isSpace ws = true
       /\ atLineEnd post = true
       /\ (forall ws2 post2, ws ++ post = ws2 ++ post2 ->
             forallb isSpace ws2 = true -> atLineEnd post2 = true ->
             length ws2 <= length ws)
       /\ addLinkToMOC ([] ++ lit "## Links" ++ [] ++ lit "\n- [[A]]")
            (lit "- [[B]]") (lit "## Links")
          = pre ++ lit "## Links" ++ lit "\n" ++ lit "- [[B]]" ++ post.
Proof.
  split; [repeat split; reflexivity|].
  apply (addLinkToMOC_under_heading [] [] (lit "\n- [[A]]") (lit "- [[B]]")
           (lit "## Links")); reflexivity.
Defined.

(** C4 fails as stated: an empty line below the heading is taken away
    together with the heading line, and a link line with [$$] is not the
    line that ends up under the heading. *)
Lemma addLinkToMOC_not_line_replacement :
  merge_spec (lit "## Links\n\nintro") (lit "## Links") (lit "- [[B]]")
  = lit "## Links\n- [[B]]\n\nintro"
  /\ addLinkToMOC (lit "## Links\n\nintro") (lit "- [[B]]") (lit "## Links")
     = lit "## Links\n- [[B]]\nintro"
  /\ addLinkToMOC (lit "## Links") (lit "- [[a$$b]]") (lit "## Links")
     = lit "## Links\n- [[a$b]]"
  /\ addLinkToMOC (lit "## Links\n\nintro") (lit "- [[B]]") (lit "## Links")
     <> merge_spec (lit "## Links\n\nintro") (lit "## Links") (lit "- [[B]]").
Proof.
  split; [vm_compute; reflexivity|].
  split; [vm_compute; reflexivity|].
  split; [vm_compute; reflexivity|].
  vm_compute. discriminate.
Qed.

(** ** The batch operation: one failing item *)

Lemma includes_true (l : list str) (x : str) :
  includes l x = true <-> x ∈ l.
Proof.
  unfold includes. rewrite existsb_exists. split.
  - intros (y & Hy & E). apply eqs_true in E. subst y.
    by apply list_elem_of_In.
  - intros H. exists x. split; [by apply list_elem_of_In|by apply eqs_true].
Qed.

Lemma includes_false (l : list str) (x : str) :
  includes l x = false <-> x ∉ l.
Proof.
  rewrite <- includes_true. destruct (includes l x); split; congruence.
Qed.

Section Batch.
Variable host : Host.
Variable settings : Settings.

Lemma processMapping_outcome (file : TFile) (st : State) (mapping : Mapping) :
  MappingOutcome host settings file st mapping (processMapping host settings file st mapping).
Proof.
  unfold processMapping.
  destruct (mocPath mapping) as [|c r] eqn:Hp; [by constructor|].
  rewrite <- Hp. assert (Hne : mocPath mapping <> []) by (by rewrite Hp).
  clear Hp c r.
  destruct (getAbstractFileByPath host (ensureMdExtension (mocPath mapping)))
    as [mocFile|] eqn:Hf; [|by constructor].
  destruct (loadMoc host st (ensureMdExtension (mocPath mapping)) mocFile)
    as [[st1 mocData]|] eqn:Hl; [|by econstructor].
  destruct (includes (MocData.links mocData) (basename file)) eqn:Hi.
  { apply includes_true in Hi. by econstructor. }
  apply includes_false in Hi.
  fold (headingOf settings). fold (updatedContentOf settings file mocData).
  destruct (vaultModify host _ mocFile (updatedContentOf settings file mocData))
    as [st3|] eqn:Hm.
  - exact (LinkAdded host settings file st mapping mocFile st1 mocData st3 Hne Hf Hl Hi Hm).
  - exact (WriteFailed host settings file st mapping mocFile st1 mocData Hne Hf Hl Hi Hm).
Qed.

End Batch.

(** ** Invariants of the loops *)

Section LoopInvariant.
Variable host : Host.
Variable settings : Settings.
Variable P : State -> Prop.
Variable files : list TFile.
Hypothesis P_file :
  forall st f, f ∈ files -> P st -> P (processFile host settings st f).
Hypothesis P_notice :
  forall st a b, P st -> P (log st (NoticeProcessed a b)).

Lemma processBatch_invariant (fs : list TFile) (st : State) :
  fs ⊆ files -> P st -> P (processBatch host settings fs st).
Proof using P_file.
  unfold processBatch. revert st.
  induction fs as [|f fs IH]; intros st Hsub HP; [done|].
  simpl. apply IH.
  - intros x Hx. apply Hsub. by right.
  - apply P_file; [|done]. apply Hsub. by left.
Qed.

Lemma slice_subseteq (i j : nat) : slice files i j ⊆ files.
Proof.
  unfold slice. intros x Hx.
  apply subseteq_take in Hx. by apply subseteq_drop in Hx.
Qed.

Lemma batchLoop_invariant (i n : nat) (st : State) :
  P st -> P (batchLoop host settings files i n st).
Proof using P_file P_notice.
  funelim (batchLoop host settings files i n st); intros HP.
  - apply H.
    match goal with
    | |- P (if ?c then _ else _) => destruct c
    end.
    + apply P_notice. apply processBatch_invariant; [apply slice_subseteq|done].
    + apply processBatch_invariant; [apply slice_subseteq|done].
  - done.
Qed.

End LoopInvariant.

Lemma foldl_invariant {S X : Type} (P : S -> Prop) (f : S -> X -> S)
    (l : list X) (s : S) :
  (forall x s', x ∈ l -> P s' -> P (f s' x)) -> P s -> P (foldl f s l).
Proof.
  revert s. induction l as [|x l IH]; intros s Hf HP; [done|].
  simpl. apply IH.
  - intros y s' Hy. apply Hf. by right.
  - apply Hf; [by left|done].
Qed.

Section StepFacts.
Variable host : Host.
Variable settings : Settings.

(** An invariant of the turns for the mappings of a file is an invariant
    of the turn for the file. *)
Lemma processFile_invariant (P : State -> Prop) (file : TFile) (st : State) :
  (forall st1 fileData,
     extension file = lit "md" ->
     loadFile host st file = Some (st1, fileData) ->
     P st1 /\
     forall noteTag mapping s,
       noteTag ∈ FileData.tags fileData ->
       mapping ∈ matchingMappings settings noteTag ->
       P s -> P (processMapping host settings file s mapping)) ->
  (loadFile host st file = None ->
   P (log st (FailedToReadFile (path file)))) ->
  P st -> P (processFile host settings st file).
Proof.
  intros Hload Hfail HP. unfold processFile.
  destruct (eqs (extension file) (lit "md")) eqn:Hext; [|done].
  apply eqs_true in Hext. simpl.
  destruct (loadFile host st file) as [[st1 fileData]|] eqn:E; [|by apply Hfail].
  destruct (Hload st1 fileData Hext eq_refl) as [HP1 Hmap].
  assert (Hfold : P (foldl (processTag host settings file) st1
                       (FileData.tags fileData))).
  { apply foldl_invariant; [|done]. intros noteTag s Htag Hs.
    unfold processTag.
    destruct (matchingMappings settings noteTag) as [|m ms] eqn:Em; [done|].
    rewrite <- Em. unfold processTagMappings.
    apply foldl_invariant; [|done]. intros mapping s' Hm Hs'.
    by apply (Hmap noteTag). }
  by destruct (FileData.tags fileData).
Qed.

Lemma loadMoc_Some (st st1 : State) (mocPath : str) (mocFile : TAbstractFile)
    (mocData : MocData.t) :
  loadMoc host st mocPath mocFile = Some (st1, mocData) ->
  (mocLinksCache st !! mocPath = Some mocData /\ st1 = st)
  \/ (mocLinksCache st !! mocPath = None
      /\ st1 = setMocLinksCache st (<[mocPath := mocData]> (mocLinksCache st))
      /\ exists mocContent,
           vaultRead host st mocFile = Some mocContent
           /\ mocData = {| MocData.content := mocContent;
                           MocData.links := extractExistingLinks mocContent |}).
Proof.
  unfold loadMoc. destruct (mocLinksCache st !! mocPath) as [d|] eqn:E.
  - intros H. injection H as <- <-. by left.
  - destruct (vaultRead host st mocFile) as [c|] eqn:Er; [|done].
    intros H. injection H as <- <-. right. eauto.
Qed.

Lemma loadMoc_fields (st st1 : State) (mocPath : str)
    (mocFile : TAbstractFile) (mocData : MocData.t) :
  loadMoc host st mocPath mocFile = Some (st1, mocData) ->
  mocLinksCache st1 !! mocPath = Some mocData
  /\ (forall p, p <> mocPath -> mocLinksCache st1 !! p = mocLinksCache st !! p)
  /\ vaultText st1 = vaultText st /\ fileCache st1 = fileCache st
  /\ totalNotesAdded st1 = totalNotesAdded st /\ console st1 = console st.
Proof.
  intros H. apply loadMoc_Some in H as [[Hc ->]|(Hc & -> & _)]; simpl.
  - done.
  - rewrite lookup_insert_eq. repeat split; try done.
    intros p Hp. by rewrite lookup_insert_ne.
Qed.

Lemma loadMoc_mono (st st1 : State) (mocPath : str)
    (mocFile : TAbstractFile) (mocData : MocData.t) (p : str) (d : MocData.t) :
  loadMoc host st mocPath mocFile = Some (st1, mocData) ->
  mocLinksCache st !! p = Some d -> mocLinksCache st1 !! p = Some d.
Proof.
  intros H Hd. apply loadMoc_Some in H as [[_ ->]|(Hc & -> & _)]; [done|].
  simpl. rewrite lookup_insert_ne; [done|]. intros ->. congruence.
Qed.

Lemma vaultModify_fields (st st3 : State) (mocFile : TAbstractFile)
    (data : str) :
  vaultModify host st mocFile data = Some st3 ->
  mocLinksCache st3 = mocLinksCache st
  /\ totalNotesAdded st3 = totalNotesAdded st /\ console st3 = console st
  /\ exists f, mocFile = AFile f /\ modifyFails host (path f) = false
               /\ vaultText st3 = <[path f := data]> (vaultText st).
Proof.
  unfold vaultModify. destruct mocFile as [f|]; [|done].
  destruct (modifyFails host (path f)) eqn:E; [done|].
  intros H. injection H as <-.
  assert (Hon : forall s p, mocLinksCache (onModify s p) = mocLinksCache s
                /\ totalNotesAdded (onModify s p) = totalNotesAdded s
                /\ console (onModify s p) = console s
                /\ vaultText (onModify s p) = vaultText s).
  { intros s [|c p]; done. }
  destruct (raisesModify host).
  - destruct (Hon (setVaultText st (<[path f:=data]> (vaultText st))) (path f))
      as (-> & -> & -> & Hv).
    repeat split; try done. exists f. by rewrite Hv.
  - repeat split; try done. by exists f.
Qed.

Lemma loadFile_fields (st st1 : State) (file : TFile) (fileData : FileData.t) :
  loadFile host st file = Some (st1, fileData) ->
  mocLinksCache st1 = mocLinksCache st /\ vaultText st1 = vaultText st
  /\ totalNotesAdded st1 = totalNotesAdded st /\ console st1 = console st.
Proof.
  unfold loadFile. destruct (fileCache st !! path file).
  - intros H. by injection H as <- <-.
  - destruct (vaultRead host st (AFile file)); [|done].
    intros H. by injection H as <- <-.
Qed.

End StepFacts.

(** ** At most one insertion per hub and basename in a run *)

Section OncePerRun.
Variable host : Host.
Variable settings : Settings.
Variable before : list Event.

Lemma onceSoFar_log (st : State) (e : Event) :
  (forall f p n, e <> AddedLink f p n) ->
  onceSoFar before st -> onceSoFar before (log st e).
Proof.
  intros He (events & Hc & Hnd & Hn & Hk). exists (events ++ [e]).
  assert (Ha : added (events ++ [e]) = added events).
  { unfold added. rewrite omap_app. simpl.
    destruct e; try (by rewrite app_nil_r). by destruct (He fileName mocPath0 total). }
  rewrite Ha. simpl. rewrite Hc, <- app_assoc. done.
Qed.

Lemma onceSoFar_loaded (st st1 : State) (mocPath : str)
    (mocFile : TAbstractFile) (mocData : MocData.t) :
  loadMoc host st mocPath mocFile = Some (st1, mocData) ->
  onceSoFar before st -> onceSoFar before st1.
Proof.
  intros Hl (events & Hc & Hnd & Hn & Hk). exists events.
  destruct (loadMoc_fields host _ _ _ _ _ Hl) as (_ & _ & _ & _ & -> & ->).
  repeat split; try done. intros p f Hpf.
  destruct (Hk p f Hpf) as (d & Hd & Hf). exists d. split; [|done].
  by apply (loadMoc_mono host _ _ _ _ _ _ _ Hl).
Qed.

Lemma onceSoFar_mapping (file : TFile) (st : State) (mapping : Mapping) :
  onceSoFar before st -> onceSoFar before (processMapping host settings file st mapping).
Proof.
  intros Hinv.
  destruct (processMapping_outcome host settings file st mapping)
    as [Hp|Hp Hf|mocFile Hp Hf Hl|mocFile st1 mocData Hp Hf Hl Hi
        |mocFile st1 mocData Hp Hf Hl Hi Hm
        |mocFile st1 mocData st3 Hp Hf Hl Hi Hm].
  - done.
  - by apply onceSoFar_log.
  - by apply onceSoFar_log.
  - by apply (onceSoFar_loaded _ _ _ _ _ Hl).
  - apply onceSoFar_log; [done|]. apply onceSoFar_log; [done|].
    by apply (onceSoFar_loaded _ _ _ _ _ Hl).
  - apply (onceSoFar_loaded _ _ _ _ _ Hl) in Hinv.
    destruct Hinv as (events & Hc & Hnd & Hn & Hk).
    destruct (loadMoc_fields host _ _ _ _ _ Hl) as (Hc1 & _).
    apply vaultModify_fields in Hm as (Hm1 & Hm2 & Hm3 & _).
    simpl in Hm2, Hm3. set (p := ensureMdExtension (mocPath mapping)) in *.
    exists (events ++ [AddingLink (basename file) p;
                       AddedLink (basename file) p (S (totalNotesAdded st3))]).
    assert (Ha : added (events ++ [AddingLink (basename file) p;
                   AddedLink (basename file) p (S (totalNotesAdded st3))])
                 = added events ++ [(p, basename file)]).
    { unfold added. by rewrite omap_app. }
    rewrite Ha. simpl. rewrite Hm3, Hc, Hm2, Hn, length_app, Hm1.
    simpl. repeat split.
    + by rewrite <- !app_assoc.
    + apply NoDup_app. repeat split; [done| |apply NoDup_singleton].
      intros [p' f'] Hin Hin'. apply list_elem_of_singleton in Hin'.
      injection Hin' as -> ->. destruct (Hk _ _ Hin) as (d & Hd & Hfd).
      rewrite Hc1 in Hd. injection Hd as <-. done.
    + lia.
    + intros p' f' Hin. apply elem_of_app in Hin as [Hin|Hin].
      * destruct (Hk _ _ Hin) as (d & Hd & Hfd).
        destruct (decide (p' = p)) as [->|Hne].
        -- rewrite lookup_insert_eq. eexists. split; [done|]. simpl.
           rewrite Hc1 in Hd. injection Hd as <-. apply elem_of_app. by left.
        -- rewrite lookup_insert_ne by done. eauto.
      * apply list_elem_of_singleton in Hin. injection Hin as -> ->.
        rewrite lookup_insert_eq. eexists. split; [done|]. simpl.
        apply elem_of_app. right. by apply list_elem_of_singleton.
Qed.

Lemma onceSoFar_file (st : State) (file : TFile) :
  onceSoFar before st -> onceSoFar before (processFile host settings st file).
Proof.
  intros Hinv. apply processFile_invariant; [| |done].
  - intros st1 fileData _ Hl. split.
    + destruct Hinv as (events & Hc & Hnd & Hn & Hk). exists events.
      destruct (loadFile_fields host _ _ _ _ Hl) as (-> & _ & -> & ->).
      done.
    + intros noteTag mapping s _ _. apply onceSoFar_mapping.
  - intros _. by apply onceSoFar_log.
Qed.

End OncePerRun.

Lemma runAutoIndex_console (host : Host) (settings : Settings) (st : State) :
  exists events,
    console (runAutoIndex host settings st)
    = console st ++ events
      ++ [NoticeComplete (totalNotesAdded (runAutoIndex host settings st));
          LogComplete (totalNotesAdded (runAutoIndex host settings st))]
    /\ NoDup (added events)
    /\ totalNotesAdded (runAutoIndex host settings st) = length (added events).
Proof.
  unfold runAutoIndex.
  set (files := getFilesInPath host _).
  set (st2 := setMocLinksCache _ ∅).
  assert (Hinv : onceSoFar (console st) (batchLoop host settings files 0 0 st2)).
  { apply batchLoop_invariant.
    - intros s f _. apply onceSoFar_file.
    - intros s a b. by apply onceSoFar_log.
    - exists [NoticeProcessing (length files)]. repeat split.
      + apply NoDup_nil_2.
      + intros p f Hin. by apply elem_of_nil in Hin. }
  destruct Hinv as (events & Hc & Hnd & Hn & _).
  exists events. simpl. rewrite Hc, <- !app_assoc. done.
Qed.

(** C2: among the insertions of one run no hub path receives the same
    basename twice, and the counter of the run is the number of its
    insertions; an insertion happens only when the cached links of the hub
    do not hold the basename, and right after it the cache of the hub holds
    the written content and the links with the basename appended. *)
Theorem one_insertion_per_hub_and_basename
    (host : Host) (settings : Settings) (st : State) :
  (exists events,
     console (runAutoIndex host settings st)
     = console st ++ events
       ++ [NoticeComplete (totalNotesAdded (runAutoIndex host settings st));
           LogComplete (totalNotesAdded (runAutoIndex host settings st))]
     /\ NoDup (added events)
     /\ totalNotesAdded (runAutoIndex host settings st)
        = length (added events))
  /\ (forall file mapping fileName hubPath total,
        AddedLink fileName hubPath total
          ∈ drop (length (console st))
              (console (processMapping host settings file st mapping)) ->
        exists mocFile st1 mocData,
          fileName = basename file
          /\ hubPath = ensureMdExtension (mocPath mapping)
          /\ loadMoc host st hubPath mocFile = Some (st1, mocData)
          /\ (fileName ∉ MocData.links mocData)
          /\ (mocLinksCache (processMapping host settings file st mapping)
                !! hubPath)
             = Some {| MocData.content :=
                         updatedContentOf settings file mocData;
                       MocData.links := MocData.links mocData ++ [fileName] |}).
Proof.
  split; [apply runAutoIndex_console|].
  intros file mapping fileName hubPath total.
  assert (Hdrop : forall (l1 l2 : list Event),
            drop (length l1) (l1 ++ l2) = l2)
    by (intros; apply drop_app_length).
  assert (Hnil : forall (l1 : list Event), drop (length l1) l1 = [])
    by (intros; apply drop_all).
  destruct (processMapping_outcome host settings file st mapping)
    as [Hp|Hp Hf|mocFile Hp Hf Hl|mocFile st1 mocData Hp Hf Hl Hi
        |mocFile st1 mocData Hp Hf Hl Hi Hm
        |mocFile st1 mocData st3 Hp Hf Hl Hi Hm]; simpl.
  - rewrite Hnil. intros H. by apply elem_of_nil in H.
  - rewrite Hdrop. intros H. by apply list_elem_of_singleton in H.
  - rewrite Hdrop. intros H. by apply list_elem_of_singleton in H.
  - destruct (loadMoc_fields host _ _ _ _ _ Hl) as (_ & _ & _ & _ & _ & ->).
    rewrite Hnil. intros H. by apply elem_of_nil in H.
  - destruct (loadMoc_fields host _ _ _ _ _ Hl) as (_ & _ & _ & _ & _ & ->).
    rewrite <- app_assoc, Hdrop. intros H.
    apply elem_of_cons in H as [H|H]; [done|].
    by apply list_elem_of_singleton in H.
  - destruct (loadMoc_fields host _ _ _ _ _ Hl) as (_ & _ & _ & _ & _ & Hcon).
    apply vaultModify_fields in Hm as (_ & _ & -> & _). simpl.
    rewrite Hcon, <- app_assoc, Hdrop. intros H.
    apply elem_of_cons in H as [H|H]; [done|].
    apply list_elem_of_singleton in H. injection H as -> -> _.
    exists mocFile, st1, mocData. rewrite lookup_insert_eq. done.
Qed.

(** ** Failures skip one item *)

(** C9: a note that cannot be read is passed over and the batch goes on
    with the next file; a hub that cannot be read is passed over and the
    loop goes on with the next mapping; when the write to a hub fails the
    counter, the vault and the cache entry of the hub stay as they were
    before the write and the loop goes on with the next mapping; and every
    run ends by reporting its counter. *)
Theorem failures_skip_one_item (host : Host) (settings : Settings)
    (st : State) :
  (forall file files,
     extension file = lit "md" ->
     fileCache st !! path file = None ->
     vaultRead host st (AFile file) = None ->
     processBatch host settings (file :: files) st
     = processBatch host settings files
         (log st (FailedToReadFile (path file))))
  /\ (forall file mapping mappings mocFile,
        mocPath mapping <> [] ->
        getAbstractFileByPath host (ensureMdExtension (mocPath mapping))
          = Some mocFile ->
        mocLinksCache st !! ensureMdExtension (mocPath mapping) = None ->
        vaultRead host st mocFile = None ->
        processTagMappings host settings file (mapping :: mappings) st
        = processTagMappings host settings file mappings
            (log st (FailedToReadMoc (ensureMdExtension (mocPath mapping)))))
  /\ (forall file mapping mappings mocFile st1 mocData,
        mocPath mapping <> [] ->
        getAbstractFileByPath host (ensureMdExtension (mocPath mapping))
          = Some mocFile ->
        loadMoc host st (ensureMdExtension (mocPath mapping)) mocFile
          = Some (st1, mocData) ->
        (basename file ∉ MocData.links mocData) ->
        vaultModify host
          (log st1 (AddingLink (basename file)
                      (ensureMdExtension (mocPath mapping))))
          mocFile (updatedContentOf settings file mocData) = None ->
        exists st',
          processTagMappings host settings file (mapping :: mappings) st
          = processTagMappings host settings file mappings st'
          /\ totalNotesAdded st' = totalNotesAdded st
          /\ vaultText st' = vaultText st
          /\ (mocLinksCache st' !! ensureMdExtension (mocPath mapping))
             = Some mocData
          /\ (forall p d, mocLinksCache st !! p = Some d ->
                mocLinksCache st' !! p = Some d)
          /\ console st'
             = console st
               ++ [AddingLink (basename file)
                     (ensureMdExtension (mocPath mapping));
                   ErrorProcessingMapping (mocPath mapping)])
  /\ (exists events,
        console (runAutoIndex host settings st)
        = console st ++ events
          ++ [NoticeComplete (totalNotesAdded (runAutoIndex host settings st));
              LogComplete (totalNotesAdded (runAutoIndex host settings st))])
  /\ (forall hubFirst notifies,
        let st' := runAutoIndex
                     (scenarioHost hubFirst notifies never
                        (fun p => eqs p (lit "MOC.md")))
                     scenarioSettings scenarioState in
        vaultText st' !! lit "MOC.md" = Some (lit "## Links\n")
        /\ totalNotesAdded st' = 0
        /\ console st'
           = [NoticeProcessing 2;
              AddingLink (lit "A") (lit "MOC.md");
              ErrorProcessingMapping (lit "MOC");
              NoticeProcessed 2 2; NoticeComplete 0; LogComplete 0]).
Proof.
  split; [|split; [|split; [|split]]].
  - intros file files Hext Hcache Hread. unfold processBatch. simpl.
    f_equal. unfold processFile, loadFile.
    rewrite Hext, Hcache, Hread. reflexivity.
  - intros file mapping mappings mocFile Hp Hf Hcache Hread.
    unfold processTagMappings. simpl. f_equal.
    assert (Hl : loadMoc host st (ensureMdExtension (mocPath mapping)) mocFile
                 = None) by (unfold loadMoc; by rewrite Hcache, Hread).
    destruct (processMapping_outcome host settings file st mapping)
      as [Hp'|Hp' Hf'|mocFile' Hp' Hf' Hl'|mocFile' st1 mocData Hp' Hf' Hl' Hi'
          |mocFile' st1 mocData Hp' Hf' Hl' Hi' Hm'
          |mocFile' st1 mocData st3 Hp' Hf' Hl' Hi' Hm']; congruence.
  - intros file mapping mappings mocFile st1 mocData Hp Hf Hl Hi Hm.
    exists (log (log st1 (AddingLink (basename file)
                            (ensureMdExtension (mocPath mapping))))
              (ErrorProcessingMapping (mocPath mapping))).
    split.
    { unfold processTagMappings. simpl. f_equal.
      destruct (processMapping_outcome host settings file st mapping)
        as [Hp'|Hp' Hf'|mocFile' Hp' Hf' Hl'
            |mocFile' st1' mocData' Hp' Hf' Hl' Hi'
            |mocFile' st1' mocData' Hp' Hf' Hl' Hi' Hm'
            |mocFile' st1' mocData' st3 Hp' Hf' Hl' Hi' Hm'];
        try congruence.
      all: rewrite Hf in Hf'; injection Hf' as <-; rewrite Hl in Hl';
        injection Hl' as <- <-; first [done|congruence]. }
    destruct (loadMoc_fields host _ _ _ _ _ Hl) as (Hc1 & _ & Hv & _ & Hn & Hcon).
    simpl. rewrite Hcon, <- app_assoc. repeat split; try done.
    intros p d Hd. by apply (loadMoc_mono host _ _ _ _ _ _ _ Hl).
  - destruct (runAutoIndex_console host settings st) as (events & Hc & _).
    by exists events.
  - intros hubFirst notifies st'. subst st'.
    split; [|split]; destruct hubFirst, notifies; vm_compute; reflexivity.
Qed.

(** ** A second run over an unchanged vault *)

Section Rerun.
Variable host : Host.
Variable settings : Settings.

Lemma hubTextOf_resolved (st : State) (mapping : Mapping) :
  mocPath mapping <> [] ->
  hubTextOf host st mapping =
    match getAbstractFileByPath host (ensureMdExtension (mocPath mapping)) with
    | Some mocFile =>
        match vaultRead host st mocFile with
        | Some text => [text]
        | None => []
        end
    | None => []
    end.
Proof. unfold hubTextOf. by destruct (mocPath mapping). Qed.

Lemma vaultRead_ext (st st' : State) (file : TAbstractFile) :
  vaultText st = vaultText st' ->
  vaultRead host st file = vaultRead host st' file.
Proof. intros H. unfold vaultRead. by rewrite H. Qed.

Lemma loadFile_data_ext (st st' : State) (file : TFile) :
  vaultText st' = vaultText st -> fileCache st' = fileCache st ->
  snd <$> loadFile host st file = snd <$> loadFile host st' file.
Proof.
  intros Hv Hf. unfold loadFile. rewrite Hf.
  rewrite (vaultRead_ext st' st) by done.
  destruct (fileCache st !! path file); [done|].
  by destruct (vaultRead host st (AFile file)).
Qed.

Variable st0 : State.
Variable files : list TFile.
Hypothesis linked :
  forallb alreadyLinked (selectedPairs host settings st0 files) = true.

Lemma quiet_ext (st st' : State) :
  vaultText st' = vaultText st -> fileCache st' = fileCache st ->
  mocLinksCache st' = mocLinksCache st ->
  totalNotesAdded st' = totalNotesAdded st ->
  quiet host st0 st -> quiet host st0 st'.
Proof.
  intros Hv Hf Hm Hn (Q1 & Q2 & Q3 & Q4). unfold quiet.
  rewrite Hv, Hn, Hm. repeat split; try done.
  intros file fileData H. apply Q3.
  by rewrite (loadFile_data_ext st st').
Qed.

Lemma quiet_log (st : State) (e : Event) : quiet host st0 st -> quiet host st0 (log st e).
Proof. by apply quiet_ext. Qed.

Lemma linked_pair (file : TFile) (fileData : FileData.t) (noteTag : str)
    (mapping : Mapping) (mocFile : TAbstractFile) (text : str) :
  file ∈ files ->
  extension file = lit "md" ->
  snd <$> loadFile host st0 file = Some fileData ->
  noteTag ∈ FileData.tags fileData ->
  mapping ∈ matchingMappings settings noteTag ->
  mocPath mapping <> [] ->
  getAbstractFileByPath host (ensureMdExtension (mocPath mapping))
    = Some mocFile ->
  vaultRead host st0 mocFile = Some text ->
  basename file ∈ extractExistingLinks text.
Proof using linked.
  intros Hfile Hext Hload Htag Hmap Hp Hf Hread.
  apply includes_true.
  rewrite forallb_forall in linked.
  apply (linked (basename file, text)). apply list_elem_of_In.
  unfold selectedPairs. apply list_elem_of_bind. exists file. split; [|done].
  rewrite Hext. simpl.
  destruct (loadFile host st0 file) as [[s d]|]; [|done].
  injection Hload as ->.
  apply list_elem_of_bind. exists noteTag. split; [|done].
  apply list_elem_of_bind. exists mapping. split; [|done].
  apply list_elem_of_bind. exists text. split; [by left|].
  rewrite hubTextOf_resolved by done. rewrite Hf, Hread. by left.
Qed.

Lemma quiet_loaded (st st1 : State) (p : str) (mocFile : TAbstractFile)
    (mocData : MocData.t) :
  getAbstractFileByPath host p = Some mocFile ->
  loadMoc host st p mocFile = Some (st1, mocData) ->
  quiet host st0 st ->
  quiet host st0 st1
  /\ exists text,
       vaultRead host st0 mocFile = Some text
       /\ mocData = {| MocData.content := text;
                       MocData.links := extractExistingLinks text |}.
Proof.
  intros Hf Hl Hq. pose proof Hq as (Q1 & Q2 & Q3 & Q4).
  apply loadMoc_Some in Hl as [[Hc ->]|(Hc & -> & text & Hr & ->)].
  - split; [done|]. destruct (Q4 _ _ Hc) as (mocFile' & text & Hf' & Hr & ->).
    rewrite Hf in Hf'. injection Hf' as <-. eauto.
  - rewrite (vaultRead_ext st st0) in Hr by done. split; [|eauto].
    unfold quiet. simpl. repeat split; try done.
    + intros file fileData H. apply Q3. rewrite <- H.
      by apply loadFile_data_ext.
    + intros p' d Hd. destruct (decide (p' = p)) as [->|Hne].
      * rewrite lookup_insert_eq in Hd. injection Hd as <-. eauto.
      * rewrite lookup_insert_ne in Hd by done. by apply Q4.
Qed.

Lemma quiet_mapping (file : TFile) (fileData : FileData.t) (noteTag : str)
    (mapping : Mapping) (st : State) :
  file ∈ files ->
  extension file = lit "md" ->
  snd <$> loadFile host st0 file = Some fileData ->
  noteTag ∈ FileData.tags fileData ->
  mapping ∈ matchingMappings settings noteTag ->
  quiet host st0 st -> quiet host st0 (processMapping host settings file st mapping).
Proof using linked.
  intros Hfile Hext Hload Htag Hmap Hq.
  destruct (processMapping_outcome host settings file st mapping)
    as [Hp|Hp Hf|mocFile Hp Hf Hl|mocFile st1 mocData Hp Hf Hl Hi
        |mocFile st1 mocData Hp Hf Hl Hi Hm
        |mocFile st1 mocData st3 Hp Hf Hl Hi Hm].
  - done.
  - by apply quiet_log.
  - by apply quiet_log.
  - by destruct (quiet_loaded _ _ _ _ _ Hf Hl Hq).
  - destruct (quiet_loaded _ _ _ _ _ Hf Hl Hq) as (_ & text & Hr & ->).
    destruct Hi. simpl. by eapply linked_pair.
  - destruct (quiet_loaded _ _ _ _ _ Hf Hl Hq) as (_ & text & Hr & ->).
    destruct Hi. simpl. by eapply linked_pair.
Qed.

Lemma quiet_file (st : State) (file : TFile) :
  file ∈ files -> quiet host st0 st -> quiet host st0 (processFile host settings st file).
Proof using linked.
  intros Hfile Hq. apply processFile_invariant; [| |done].
  - intros st1 fileData Hext Hl.
    assert (Hdata : snd <$> loadFile host st file = Some fileData)
      by (by rewrite Hl).
    pose proof Hq as (Q1 & Q2 & Q3 & Q4). split.
    + unfold loadFile in Hl.
      destruct (fileCache st !! path file) as [d|] eqn:Hc.
      { by injection Hl as <- <-. }
      destruct (vaultRead host st (AFile file)) as [content|] eqn:Hr; [|done].
      injection Hl as <- <-. unfold quiet. simpl. repeat split; try done.
      intros file' d'. destruct (decide (path file' = path file)) as [E|E].
      * intros H. apply Q3. rewrite <- H. unfold loadFile. simpl in *.
        rewrite E, Hc, lookup_insert_eq. simpl in Hr. rewrite Hr. done.
      * intros H. apply Q3. rewrite <- H. unfold loadFile. simpl in *.
        rewrite lookup_insert_ne by done.
        destruct (fileCache st !! path file'); [done|].
        by destruct (readFails host (path file')), (vaultText st !! path file').
    + intros noteTag mapping s Htag Hmap. apply (quiet_mapping file fileData noteTag);
        try done. by apply Q3.
  - intros _. by apply quiet_log.
Qed.

End Rerun.

(** C1: when every selected (note, hub) pair has the basename of the note
    among the links extracted from the hub, a run leaves the text of every
    file of the vault as it is and ends with the counter at 0.  In the
    scenario of the specification the first run writes the link of [A]
    under the heading of [MOC.md] and counts 1, and the second run changes
    nothing and counts 0. *)
Theorem rerun_changes_nothing (host : Host) (settings : Settings)
    (st : State) :
  forallb alreadyLinked
    (selectedPairs host settings st (filesOfRun host settings)) = true ->
  (vaultText (runAutoIndex host settings st) = vaultText st
   /\ totalNotesAdded (runAutoIndex host settings st) = 0)
  /\ (forall hubFirst notifies,
        let scenario := scenarioHost hubFirst notifies never never in
        let st1 := runAutoIndex scenario scenarioSettings scenarioState in
        let st2 := runAutoIndex scenario scenarioSettings st1 in
        vaultText st1 !! lit "MOC.md" = Some (lit "## Links\n- [[A]]\n")
        /\ totalNotesAdded st1 = 1
        /\ vaultText st2 !! lit "MOC.md" = Some (lit "## Links\n- [[A]]\n")
        /\ totalNotesAdded st2 = 0).
Proof.
  intros Hlinked. split.
  - unfold runAutoIndex. fold (filesOfRun host settings).
    set (files := filesOfRun host settings) in *.
    set (st2 := setMocLinksCache _ ∅).
    assert (Hq : quiet host st (batchLoop host settings files 0 0 st2)).
    { apply batchLoop_invariant.
      - intros s f Hf. by apply (quiet_file host settings st files Hlinked).
      - intros s a b. apply quiet_log.
      - unfold quiet. simpl. repeat split; try done.
        intros file fileData H. rewrite <- H.
        by apply loadFile_data_ext. }
    destruct Hq as (Q1 & Q2 & _). simpl. by rewrite Q1, Q2.
  - intros hubFirst notifies scenario st1 st2. subst scenario st1 st2.
    split; [|split; [|split]]; destruct hubFirst, notifies; vm_compute;
      reflexivity.
Qed.

Lemma rerun_changes_nothing_witness :
  forallb alreadyLinked
    (selectedPairs (scenarioHost false true never never) scenarioSettings
       (runAutoIndex (scenarioHost false true never never) scenarioSettings
          scenarioState)
       (filesOfRun (scenarioHost false true never never) scenarioSettings))
  = true
  /\ vaultText
       (runAutoIndex (scenarioHost false true never never) scenarioSettings
          (runAutoIndex (scenarioHost false true never never)
             scenarioSettings scenarioState))
     = vaultText
         (runAutoIndex (scenarioHost false true never never) scenarioSettings
            scenarioState)
  /\ totalNotesAdded
       (runAutoIndex (scenarioHost false true never never) scenarioSettings
          (runAutoIndex (scenarioHost false true never never)
             scenarioSettings scenarioState))
     = 0.
Proof.
  split; [vm_compute; reflexivity|].
  apply (rerun_changes_nothing (scenarioHost false true never never)
           scenarioSettings
           (runAutoIndex (scenarioHost false true never never)
              scenarioSettings scenarioState)).
  vm_compute. reflexivity.
Defined.

(** ** Closed forms of the matcher *)

Lemma munch_afterMunch (p : ascii -> bool) (s : str) :
  munch p s ++ afterMunch p s = s.
Proof.
  induction s as [|c s IH]; [done|]. simpl. destruct (p c); [|done].
  simpl. by rewrite IH.
Qed.

Lemma munch_all (p : ascii -> bool) (s : str) : forallb p (munch p s) = true.
Proof.
  induction s as [|c s IH]; [done|]. simpl. destruct (p c) eqn:E; [|done].
  simpl. by rewrite E.
Qed.

Lemma munch_app (p : ascii -> bool) (run rest : str) :
  forallb p run = true ->
  munch p (run ++ rest) = run ++ munch p rest
  /\ afterMunch p (run ++ rest) = afterMunch p rest.
Proof.
  induction run as [|c run IH]; [done|]. simpl. intros H.
  apply andb_true_iff in H as [-> H]. destruct (IH H) as [-> ->]. done.
Qed.

Lemma munch_stop (p : ascii -> bool) (c : ascii) (s : str) :
  p c = false -> munch p (c :: s) = [] /\ afterMunch p (c :: s) = c :: s.
Proof. intros H. simpl. by rewrite H. Qed.

Section ClosedForms.
Context {A : Type}.
Implicit Types (p : ascii -> bool) (k : str -> str -> option A).

(** A greedy star takes the longest run when what follows accepts it. *)
Lemma starGreedy_munch_some p k (b r : str) (x : A) :
  k (b ++ munch p r) (afterMunch p r) = Some x ->
  starGreedy p k b r = Some x.
Proof.
  revert b. induction r as [|c r IH]; intros b; simpl.
  - by rewrite app_nil_r.
  - destruct (p c).
    + intros H. rewrite (IH (b ++ [c])); [done|]. by rewrite <- app_assoc.
    + by rewrite app_nil_r.
Qed.

(** A greedy star takes the longest run when what follows never accepts
    a position before a character of the class. *)
Lemma starGreedy_munch p k (b r : str) :
  (forall b' c r', p c = true -> k b' (c :: r') = None) ->
  starGreedy p k b r = k (b ++ munch p r) (afterMunch p r).
Proof.
  intros Hk. revert b. induction r as [|c r IH]; intros b; simpl.
  - by rewrite app_nil_r.
  - destruct (p c) eqn:Hc.
    + rewrite IH, <- app_assoc. simpl.
      destruct (k (b ++ c :: munch p r) (afterMunch p r)); [done|].
      by apply Hk.
    + by rewrite app_nil_r.
Qed.

(** A lazy star over any character, followed by a literal and then by
    something that always accepts, stops at the first occurrence of the
    literal. *)
Lemma starLazy_indexOf (sep : str) (F : str -> str -> A) (b r : str) :
  sep <> [] ->
  starLazy anyChar
    (fun b' r' => match stripPrefix sep r' with
                  | Some r'' => Some (F b' r'')
                  | None => None
                  end) b r
  = match indexOf r sep with
    | Some n => Some (F (b ++ take n r) (drop (n + length sep) r))
    | None => None
    end.
Proof.
  intros Hsep. revert b. induction r as [|c r IH]; intros b.
  - rewrite indexOf_nil by done. simpl.
    destruct sep; [done|reflexivity].
  - rewrite indexOf_cons. unfold startsWith. cbn [starLazy].
    destruct (stripPrefix sep (c :: r)) as [r''|] eqn:E.
    + apply stripPrefix_Some in E. cbn [take Nat.add]. rewrite app_nil_r.
      rewrite E. by rewrite drop_app_length.
    + unfold anyChar at 1. rewrite IH.
      destruct (indexOf r sep) as [n|]; [|done]. simpl.
      by rewrite <- app_assoc.
Qed.

(** A lazy star followed by a character stops at the first occurrence of
    that character, when the characters before it are of the class. *)
Lemma starLazy_until p (x : ascii) (F : str -> str -> A) (b run rest : str) :
  forallb (fun c => p c && negb (eqc x c)) run = true ->
  starLazy p
    (fun b' r' => match stripPrefix [x] r' with
                  | Some r'' => Some (F b' r'')
                  | None => None
                  end) b (run ++ x :: rest)
  = Some (F (b ++ run) rest).
Proof.
  revert b. induction run as [|c run IH]; intros b H.
  - simpl. rewrite eqc_refl. simpl. by rewrite app_nil_r.
  - simpl in H. apply andb_true_iff in H as [Hc H].
    apply andb_true_iff in Hc as [Hp Hx]. apply negb_true_iff in Hx.
    simpl. rewrite Hx, Hp, IH by done. by rewrite <- app_assoc.
Qed.

End ClosedForms.

(** A pattern that starts with [^] matches at the start of the input or
    not at all. *)
Lemma search_anchored (re : regex) (b r : str) :
  b <> [] -> search (Cat InputStart re) b r = None.
Proof.
  revert b. induction r as [|c r IH]; intros b Hb.
  - simpl. by destruct b.
  - cbn [search]. assert (Hm : forall A (k : str -> str -> option str -> option A) g,
                     matchAt (Cat InputStart re) k b (c :: r) g = None)
      by (intros; simpl; by destruct b).
    rewrite Hm. apply IH. by destruct b.
Qed.

Lemma exec_anchored (re : regex) (s : str) :
  exec (Cat InputStart re) s =
    match matchAt re (fun b' r' g => Some (b', r', g)) [] s None with
    | Some (b', r', g) => Some (Result [] b' g r')
    | None => None
    end.
Proof.
  unfold exec. destruct s as [|c s]; simpl.
  - by destruct (matchAt re _ [] [] None) as [[[b' r'] g]|].
  - destruct (matchAt re _ [] (c :: s) None) as [[[b' r'] g]|]; [done|].
    by apply search_anchored.
Qed.

(** A pattern that starts with a literal matches no earlier than the first
    occurrence of the literal. *)
Lemma search_literal_first (lit0 : str) (re : regex) (b r : str) (n : nat)
    (b' r' : str) (g : option str) :
  lit0 <> [] ->
  indexOf r lit0 = Some n ->
  matchAt (Cat (Lit lit0) re) (fun b' r' g => Some (b', r', g))
    (b ++ take n r) (drop n r) None = Some (b', r', g) ->
  search (Cat (Lit lit0) re) b r
  = Some (Result (b ++ take n r) (drop (length (b ++ take n r)) b') g r').
Proof.
  intros Hlit. revert b n. induction r as [|c r IH]; intros b n Hn Hm.
  - by rewrite indexOf_nil in Hn.
  - rewrite indexOf_cons in Hn. destruct (startsWith (c :: r) lit0) eqn:E.
    + injection Hn as <-. simpl in Hm. rewrite app_nil_r in Hm.
      cbn [search]. cbn [matchAt] in Hm |- *. rewrite Hm.
      by rewrite app_nil_r.
    + destruct (indexOf r lit0) as [n'|] eqn:En; [|done].
      injection Hn as <-. cbn [search].
      assert (Hfail : matchAt (Cat (Lit lit0) re)
                        (fun b' r' g => Some (b', r', g)) b (c :: r) None = None).
      { cbn [matchAt]. unfold startsWith in E.
        by destruct (stripPrefix lit0 (c :: r)). }
      rewrite Hfail. cbn [take drop] in Hm |- *.
      assert (Hb : b ++ c :: take n' r = (b ++ [c]) ++ take n' r)
        by (by rewrite <- app_assoc).
      rewrite Hb in Hm |- *. by apply IH.
Qed.

(** ** Tag extraction: the front-matter block and the inline list *)

Lemma exec_frontmatterRe (text : str) :
  mGroup <$> exec frontmatterRe text = Some <$> frontMatterOf text.
Proof.
  unfold frontmatterRe, frontMatterOf. rewrite exec_anchored.
  cbn [matchAt]. destruct (stripPrefix (lit "---\n") text) as [rest|]; [|done].
  rewrite (starLazy_indexOf (lit "\n---")
             (fun b' r'' => (b' ++ lit "\n---", r'',
                             Some (drop (length ([] ++ lit "---\n")) b'))))
    by done.
  destruct (indexOf rest (lit "\n---")) as [n|]; [|done]. simpl.
  by rewrite drop_0.
Qed.

Lemma truthyGroup_group (m : option result) :
  truthyGroup m =
    match mGroup <$> m with
    | Some (Some (c :: g)) => Some (c :: g)
    | _ => None
    end.
Proof. by destruct m as [[? ? [[|c g]|] ?]|]. Qed.

Lemma frontmatterTags_frontMatterOf (text : str) :
  frontmatterTags text =
    match frontMatterOf text with
    | Some (c :: fm) =>
        singleTag (c :: fm) ++ inlineArrayTags (c :: fm)
        ++ multilineTags false (split (c :: fm) (lit "\n"))
    | _ => []
    end.
Proof.
  unfold frontmatterTags. rewrite truthyGroup_group, exec_frontmatterRe.
  by destruct (frontMatterOf text) as [[|c fm]|].
Qed.

Lemma isEntry_true (x : str) :
  isEntry x = true -> x <> [] /\ trim x = x /\ forallb entryChar x = true.
Proof.
  unfold isEntry. intros H. apply andb_true_iff in H as [H H3].
  apply andb_true_iff in H as [H1 H2]. apply eqs_true in H2.
  repeat split; try done. intros ->. done.
Qed.

Lemma indexOf_char_none (x : ascii) (s : str) :
  forallb (fun c => negb (eqc x c)) s = true -> indexOf s [x] = None.
Proof.
  induction s as [|c s IH]; [done|]. simpl. intros H.
  apply andb_true_iff in H as [Hc H]. apply negb_true_iff in Hc.
  unfold startsWith. simpl. rewrite Hc. by rewrite IH.
Qed.

Lemma indexOf_char_app (x : ascii) (s r : str) :
  forallb (fun c => negb (eqc x c)) s = true ->
  indexOf (s ++ x :: r) [x] = Some (length s).
Proof.
  induction s as [|c s IH]; simpl.
  - intros _. unfold startsWith. simpl. by rewrite eqc_refl.
  - intros H. apply andb_true_iff in H as [Hc H]. apply negb_true_iff in Hc.
    unfold startsWith. simpl. rewrite Hc. by rewrite IH.
Qed.

Lemma forallb_weaken (p q : ascii -> bool) (s : str) :
  (forall c, p c = true -> q c = true) ->
  forallb p s = true -> forallb q s = true.
Proof.
  intros Hpq. induction s as [|c s IH]; [done|]. simpl. intros H.
  apply andb_true_iff in H as [Hc H]. by rewrite (Hpq c Hc), IH.
Qed.

Lemma entryChar_dot_not_bracket (c : ascii) :
  entryChar c = true -> dot c && negb (eqc "]" c) = true.
Proof.
  unfold entryChar. intros H. apply andb_true_iff in H as [H ->].
  apply andb_true_iff in H as [-> _]. done.
Qed.

Lemma entryChar_not_comma (c : ascii) :
  entryChar c = true -> negb (eqc "," c) = true.
Proof.
  unfold entryChar. intros H. apply andb_true_iff in H as [H _].
  by apply andb_true_iff in H as [_ ->].
Qed.

Lemma trim_leading_space (s : str) : trim (" " :: s) = trim s.
Proof. reflexivity. Qed.

(** A pattern that matches at a position and at no position before it is
    found there. *)
Lemma search_at (re : regex) (n : nat) (b r b' r' : str) (g : option str) :
  n <= length r ->
  (forall i, i < n ->
     matchAt re (fun b' r' g => Some (b', r', g)) (b ++ take i r) (drop i r)
       None = None) ->
  matchAt re (fun b' r' g => Some (b', r', g)) (b ++ take n r) (drop n r) None
    = Some (b', r', g) ->
  search re b r
  = Some (Result (b ++ take n r) (drop (length (b ++ take n r)) b') g r').
Proof.
  revert b r. induction n as [|n IH]; intros b r Hn Hbefore Hm.
  - rewrite take_0, drop_0, app_nil_r in *.
    destruct r; cbn [search]; by rewrite Hm.
  - destruct r as [|c r]; [simpl in Hn; lia|].
    pose proof (Hbefore 0 ltac:(lia)) as H0.
    rewrite take_0, drop_0, app_nil_r in H0.
    cbn [search]. rewrite H0.
    assert (Hb : forall k, b ++ take (S k) (c :: r) = (b ++ [c]) ++ take k r)
      by (intros; simpl; by rewrite <- app_assoc).
    rewrite Hb in Hm |- *. change (drop (S n) (c :: r)) with (drop n r) in Hm.
    apply IH; [simpl in Hn; lia| |done].
    intros i Hi. specialize (Hbefore (S i) ltac:(lia)).
    by rewrite Hb in Hbefore.
Qed.

Lemma noMatchBefore_true (re : regex) (n : nat) (s : str) (i : nat) :
  noMatchBefore re n s = true -> i < n ->
  matchAt re (fun b' r' g => Some (b', r', g)) (take i s) (drop i s) None
  = None.
Proof.
  unfold noMatchBefore, matchesAt. rewrite forallb_forall. intros H Hi.
  specialize (H i). rewrite in_seq in H.
  destruct (matchAt re _ (take i s) (drop i s) None); [|done].
  discriminate H. lia.
Qed.

(** The match of the inline-list pattern, when the pattern matches at no
    position before the list. *)
Lemma exec_inlineArrayRe_two (pre post a b : str) :
  noMatchBefore inlineArrayRe (length pre)
    (pre ++ lit "tags: [" ++ a ++ lit ", " ++ b ++ lit "]" ++ post) = true ->
  isEntry a = true -> isEntry b = true ->
   exec inlineArrayRe (pre ++ lit "tags: [" ++ a ++ lit ", " ++ b ++ lit "]" ++ post)
                  = Some (Result pre (lit "tags: [" ++ a ++ lit ", " ++ b ++ lit "]")
                            (Some (a ++ lit ", " ++ b)) post).
Proof.
  intros Hfirst Ha Hb.
  apply isEntry_true in Ha as (Ha1 & Ha2 & Ha3).
  apply isEntry_true in Hb as (Hb1 & Hb2 & Hb3).
  set (body := lit "tags: [" ++ a ++ lit ", " ++ b ++ lit "]").
  assert (Hm : matchAt inlineArrayRe (fun b' r' g => Some (b', r', g))
                 ([] ++ take (length pre) (pre ++ lit "tags: [" ++ a ++ lit ", " ++ b ++ lit "]" ++ post))
                 (drop (length pre) (pre ++ lit "tags: [" ++ a ++ lit ", " ++ b ++ lit "]" ++ post)) None
               = Some (pre ++ body, post, Some (a ++ lit ", " ++ b))).
  { cbn [app]. rewrite take_app_length, drop_app_length.
    unfold inlineArrayRe. cbn [matchAt].
    change (lit "tags: [" ++ a ++ lit ", " ++ b ++ lit "]" ++ post)
      with (lit "tags" ++ ":" :: " " :: "[" :: a ++ "," :: " " :: b ++ "]" :: post).
    rewrite stripPrefix_app.
    apply starGreedy_munch_some. cbn [munch afterMunch].
    change (isSpace ":") with false. cbv iota. rewrite app_nil_r.
    change (":" :: " " :: "[" :: a ++ "," :: " " :: b ++ "]" :: post)
      with (lit ":" ++ " " :: "[" :: a ++ "," :: " " :: b ++ "]" :: post).
    rewrite stripPrefix_app.
    apply starGreedy_munch_some. cbn [munch afterMunch].
    change (isSpace " ") with true. change (isSpace "[") with false. cbv iota.
    change ("[" :: a ++ "," :: " " :: b ++ "]" :: post)
      with (lit "[" ++ a ++ "," :: " " :: b ++ "]" :: post).
    rewrite stripPrefix_app.
    change (a ++ "," :: " " :: b ++ "]" :: post)
      with (a ++ (lit ", " ++ b ++ "]" :: post)).
    rewrite (app_assoc a), (app_assoc (a ++ lit ", ")).
    change (lit "]") with ["]"].
    set (B := (((pre ++ lit "tags") ++ lit ":") ++ [" "]) ++ lit "[").
    rewrite (starLazy_until dot "]"
               (fun b'1 r'4 => (b'1 ++ ["]"], r'4, Some (drop (length B) b'1)))).
    2:{ rewrite !forallb_app. cbn [forallb lit].
        rewrite (forallb_weaken entryChar _ a entryChar_dot_not_bracket Ha3).
        rewrite (forallb_weaken entryChar _ b entryChar_dot_not_bracket Hb3).
        reflexivity. }
    rewrite drop_app_length. subst B body.
    rewrite <- !app_assoc. reflexivity. }
  unfold exec.
  rewrite (search_at inlineArrayRe (length pre) [] _ (pre ++ body) post
             (Some (a ++ lit ", " ++ b))).
  - cbn [app]. rewrite take_app_length, drop_app_length. reflexivity.
  - rewrite length_app. lia.
  - intros i Hi. by apply (noMatchBefore_true _ _ _ i Hfirst).
  - exact Hm.
Qed.

(** The tags of an inline list with two entries. *)
Lemma inlineArrayTags_two (pre post a b : str) :
  noMatchBefore inlineArrayRe (length pre)
    (pre ++ lit "tags: [" ++ a ++ lit ", " ++ b ++ lit "]" ++ post) = true ->
  isEntry a = true -> isEntry b = true ->
  inlineArrayTags
    (pre ++ lit "tags: [" ++ a ++ lit ", " ++ b ++ lit "]" ++ post)
  = [a; b].
Proof.
  intros Hfirst Ha Hb. unfold inlineArrayTags.
  rewrite (exec_inlineArrayRe_two pre post a b Hfirst Ha Hb).
  apply isEntry_true in Ha as (Ha1 & Ha2 & Ha3).
  apply isEntry_true in Hb as (Hb1 & Hb2 & Hb3).
  assert (Hg : truthyGroup (Some (Result pre (lit "tags: [" ++ a ++ lit ", " ++ b ++ lit "]")
                            (Some (a ++ lit ", " ++ b)) post)) = Some (a ++ lit ", " ++ b)).
  { destruct a; [done|reflexivity]. }
  rewrite Hg.
  change (a ++ lit ", " ++ b) with (a ++ "," :: " " :: b).
  change (lit ",") with [","].
  rewrite split_indexOf by done.
  rewrite indexOf_char_app
    by (apply (forallb_weaken entryChar); [apply entryChar_not_comma|done]).
  rewrite take_app_length. change (length [","]) with 1.
  replace (drop (length a + 1) (a ++ "," :: " " :: b)) with (" " :: b).
  2:{ rewrite Nat.add_1_r. change (a ++ "," :: " " :: b) with (a ++ [","] ++ " " :: b).
      rewrite app_assoc. rewrite <- (drop_app_length (a ++ [","]) (" " :: b)) at 1.
      f_equal. rewrite length_app. simpl. lia. }
  rewrite split_indexOf by done.
  rewrite indexOf_char_none.
  2:{ cbn [forallb]. change (negb (eqc "," " ")) with true.
      cbn [andb]. apply (forallb_weaken entryChar); [apply entryChar_not_comma|done]. }
  cbn [map]. rewrite trim_leading_space, Ha2, Hb2.
  assert (Hla : 0 < length a) by (destruct a; [done|simpl; lia]).
  assert (Hlb : 0 < length b) by (destruct b; [done|simpl; lia]).
  rewrite filter_cons_True by done. rewrite filter_cons_True by done.
  reflexivity.
Qed.

Lemma bodyTagOf_munch (part : str) :
  bodyTagOf part = match munch wordChar part with [] => [] | w => [w] end.
Proof.
  unfold bodyTagOf, bodyTagRe. rewrite exec_anchored. cbn [matchAt].
  destruct part as [|c r]; [done|]. cbn [munch].
  destruct (wordChar c) eqn:Hc; [|done].
  rewrite (starGreedy_munch_some wordChar _ _ _
             ([c] ++ munch wordChar r, afterMunch wordChar r,
              Some (drop (length (@nil ascii)) ([c] ++ munch wordChar r))))
    by done.
  reflexivity.
Qed.

Lemma munch_wordChar_upTo (s : str) :
  munch wordChar (upTo (lit "#") s) = munch wordChar s.
Proof.
  unfold upTo. induction s as [|c s IH]; [done|].
  rewrite indexOf_cons. unfold startsWith. cbn [stripPrefix lit].
  destruct (eqc "#" c) eqn:E.
  - apply eqc_true in E. subst c. reflexivity.
  - change (lit "#") with ["#"] in IH.
    destruct (indexOf s ["#"]) as [n|]; [|done]. simpl.
    destruct (wordChar c); [|done]. by rewrite IH.
Qed.

Lemma bodyTags_cons (c : ascii) (s : str) :
  bodyTags (c :: s) =
    (if eqc "#" c
     then match munch wordChar s with [] => [] | w => [w] end
     else [])
    ++ bodyTags s.
Proof.
  unfold bodyTags. rewrite !split_tail by done. rewrite indexOf_cons.
  unfold startsWith. cbn [stripPrefix lit].
  destruct (eqc "#" c) eqn:E.
  - cbn [drop Nat.add length]. rewrite (split_head s) at 1 by done.
    cbn [map concat]. rewrite bodyTagOf_munch, munch_wordChar_upTo.
    rewrite split_tail by done. reflexivity.
  - change (lit "#") with ["#"].
    destruct (indexOf s ["#"]) as [n|]; reflexivity.
Qed.

Lemma bodyTags_spec (text : str) : bodyTags text = inline_tags_spec text.
Proof.
  induction text as [|c s IH]; [reflexivity|].
  rewrite bodyTags_cons. simpl. by rewrite IH.
Qed.

(** C6, as the code has it: when the front-matter holds an inline list
    [tags: \[a, b\]] with two entries and the inline-list pattern matches
    at no position of the front-matter before it, the tags are, in this
    order, the tag of the scalar form if that pattern matches, then [a] and
    [b], then the tags of the block form, then the run of tag characters
    after every [#] of the whole text; nothing is deduplicated. *)
Theorem extractTags_inline_list (text fm pre post a b : str) :
  frontMatterOf text = Some fm ->
  fm = pre ++ lit "tags: [" ++ a ++ lit ", " ++ b ++ lit "]" ++ post ->
  noMatchBefore inlineArrayRe (length pre) fm = true ->
  isEntry a = true -> isEntry b = true ->
  extractTags text
  = singleTag fm ++ [a; b] ++ multilineTags false (split fm (lit "\n"))
    ++ inline_tags_spec text
  /\ extractTags (lit "---\ntags: [a, b]\n---\n#a and #b")
     = [lit "a"; lit "b"; lit "a"; lit "b"].
Proof.
  intros Hfm -> Hfirst Ha Hb. split; [|vm_compute; reflexivity].
  set (fm := pre ++ _) in *.
  assert (Hne : exists c r, fm = c :: r) by (subst fm; destruct pre; eauto).
  destruct Hne as (c & r & Hcr).
  assert (Hft : frontmatterTags text
                = singleTag fm ++ inlineArrayTags fm
                  ++ multilineTags false (split fm (lit "\n"))).
  { rewrite frontmatterTags_frontMatterOf, Hfm, Hcr. reflexivity. }
  unfold extractTags. rewrite Hft, bodyTags_spec. subst fm.
  rewrite inlineArrayTags_two by done. by rewrite <- !app_assoc.
Qed.

Lemma extractTags_inline_list_witness :
  (frontMatterOf
     (lit "---\ntitle: my tags\ntags: [maths, physics]\n---\nSee #todo")
   = Some (lit "title: my tags\ntags: [maths, physics]")
   /\ lit "title: my tags\ntags: [maths, physics]"
      = lit "title: my tags\n" ++ lit "tags: [" ++ lit "maths" ++ lit ", "
        ++ lit "physics" ++ lit "]" ++ []
   /\ indexOf (lit "title: my tags\ntags: [maths, physics]") (lit "tags")
      = Some 10
   /\ noMatchBefore inlineArrayRe (length (lit "title: my tags\n"))
        (lit "title: my tags\ntags: [maths, physics]") = true
   /\ isEntry (lit "maths") = true /\ isEntry (lit "physics") = true)
  /\ extractTags
       (lit "---\ntitle: my tags\ntags: [maths, physics]\n---\nSee #todo")
     = [lit "maths"; lit "physics"; lit "todo"].
Proof.
  split; [repeat split; reflexivity|].
  apply (extractTags_inline_list
           (lit "---\ntitle: my tags\ntags: [maths, physics]\n---\nSee #todo")
           (lit "title: my tags\ntags: [maths, physics]")
           (lit "title: my tags\n") [] (lit "maths") (lit "physics"));
    reflexivity.
Defined.

(** C6 fails as stated: the front-matter holds the line [tags: \[a, b\]],
    but the inline-list pattern is matched once, at the first place where
    it fits, so neither [a] nor [b] is returned when another list comes
    first. *)
Lemma extractTags_first_list_only :
  frontMatterOf (lit "---\ntags: [x]\ntags: [a, b]\n---\n")
  = Some (lit "tags: [x]\ntags: [a, b]")
  /\ split (lit "tags: [x]\ntags: [a, b]") (lit "\n")
     = [lit "tags: [x]"; lit "tags: [a, b]"]
  /\ extractTags (lit "---\ntags: [x]\ntags: [a, b]\n---\n") = [lit "x"]
  /\ extractTags (lit "---\nalltags: [x]\ntags: [a, b]\n---\n") = [lit "x"]
  /\ ~ In (lit "a") (extractTags (lit "---\ntags: [x]\ntags: [a, b]\n---\n")).
Proof.
  split; [vm_compute; reflexivity|].
  split; [vm_compute; reflexivity|].
  split; [vm_compute; reflexivity|].
  split; [vm_compute; reflexivity|].
  vm_compute. intros [H|[]]. discriminate.
Qed.

(** ** Tag extraction: the block list *)

Lemma isSpace_not (x c : ascii) :
  isSpace x = false -> isSpace c = true -> eqc x c = false.
Proof.
  intros Hx Hc. destruct (eqc x c) eqn:E; [|done].
  apply eqc_true in E. congruence.
Qed.

Lemma test_tagsKeyRe (line : str) : test tagsKeyRe line = opensBlock line.
Proof.
  unfold test, tagsKeyRe, opensBlock. rewrite exec_anchored. cbn [matchAt].
  destruct (stripPrefix (lit "tags") line) as [r|]; [|done].
  rewrite starGreedy_munch.
  - unfold startsWith.
    by destruct (stripPrefix (lit ":") (afterMunch isSpace r)).
  - intros b' c r' Hc. cbn [stripPrefix lit].
    by rewrite (isSpace_not ":" c).
Qed.

Lemma afterMunch_nil (p : ascii -> bool) (s : str) :
  afterMunch p s = [] <-> forallb p s = true.
Proof.
  induction s as [|c s IH]; [done|]. simpl. destruct (p c); [done|].
  split; discriminate.
Qed.

Lemma munch_whole (p : ascii -> bool) (s : str) :
  forallb p s = true -> munch p s = s.
Proof.
  induction s as [|c s IH]; [done|]. simpl. intros H.
  apply andb_true_iff in H as [-> H]. by rewrite IH.
Qed.

Lemma forallb_afterMunch_false (p q : ascii -> bool) (s : str) :
  forallb q (afterMunch p s) = false -> forallb q s = false.
Proof.
  induction s as [|c s IH]; [done|]. simpl. destruct (p c); [|done].
  intros H. rewrite (IH H). apply andb_false_r.
Qed.

Lemma forallb_last_false (q : ascii -> bool) (s : str) (c : ascii) :
  last s = Some c -> q c = false -> forallb q s = false.
Proof.
  induction s as [|x s IH]; [done|]. destruct s as [|y s].
  - simpl. intros H. injection H as ->. intros ->. done.
  - intros H Hq. change (forallb q (x :: y :: s))
      with (q x && forallb q (y :: s)).
    rewrite (IH H Hq). apply andb_false_r.
Qed.

Lemma forallb_last_true (q : ascii -> bool) (s : str) (c : ascii) :
  last s = Some c -> forallb q s = true -> q c = true.
Proof.
  intros Hl Hs. destruct (q c) eqn:E; [done|].
  by rewrite (forallb_last_false q s c Hl E) in Hs.
Qed.

Lemma matchAt_value {A : Type} (k : str -> str -> option str -> option A)
    (b r : str) (g : option str) :
  matchAt (Cat (Group (Cat (Cls dot) (Star dot))) InputEnd) k b r g
  = if nonEmptyDots r then k (b ++ r) [] (Some r) else None.
Proof.
  cbn [matchAt]. destruct r as [|c r]; [done|]. cbn [nonEmptyDots forallb].
  destruct (dot c); [|done]. rewrite starGreedy_munch.
  - destruct (forallb dot r) eqn:E.
    + rewrite munch_whole by done. apply afterMunch_nil in E. rewrite E.
      rewrite <- app_assoc. cbn [andb app]. by rewrite drop_app_length.
    + destruct (afterMunch dot r) eqn:E'; [|done].
      apply afterMunch_nil in E'. congruence.
  - done.
Qed.

Lemma starGreedy_value {A : Type} (F : str -> str -> A) (b r : str) :
  starGreedy isSpace
    (fun b' r' => if nonEmptyDots r' then Some (F b' r') else None) b r
  = match afterMunch isSpace r with
    | [] =>
        match last r with
        | Some c => if dot c then Some (F (b ++ removelast r) [c]) else None
        | None => None
        end
    | v => if forallb dot v then Some (F (b ++ munch isSpace r) v) else None
    end.
Proof.
  revert b. induction r as [|c r IH]; intros b; [done|].
  cbn [starGreedy munch afterMunch]. destruct (isSpace c) eqn:Hc.
  - rewrite IH. destruct (afterMunch isSpace r) as [|v0 v] eqn:Ev.
    + destruct r as [|c2 r2].
      * cbn [last removelast nonEmptyDots forallb]. rewrite app_nil_r, andb_true_r.
        done.
      * change (last (c :: c2 :: r2)) with (last (c2 :: r2)).
        change (removelast (c :: c2 :: r2)) with (c :: removelast (c2 :: r2)).
        destruct (last (c2 :: r2)) as [c'|] eqn:El.
        -- destruct (dot c') eqn:Hd.
           ++ by rewrite <- app_assoc.
           ++ cbn [nonEmptyDots].
              change (forallb dot (c :: c2 :: r2))
                with (dot c && forallb dot (c2 :: r2)).
              rewrite (forallb_last_false dot _ _ El Hd), andb_false_r. done.
        -- by apply last_None in El.
    + cbv zeta. destruct (forallb dot (v0 :: v)) eqn:Hd.
      * by rewrite <- app_assoc.
      * cbn [nonEmptyDots].
        change (forallb dot (c :: r)) with (dot c && forallb dot r).
        rewrite (forallb_afterMunch_false isSpace dot r), andb_false_r; [done|].
        by rewrite Ev.
  - by rewrite app_nil_r.
Qed.

Lemma trim_spaces (s : str) : forallb isSpace s = true -> trim s = [].
Proof.
  intros H. unfold trim.
  assert (Hd : forall t, forallb isSpace t = true -> dropSpaces t = []).
  { induction t as [|c t IH]; [done|]. simpl. intros Ht.
    apply andb_true_iff in Ht as [-> Ht]. by apply IH. }
  by rewrite (Hd s H).
Qed.

Lemma dropSpaces_afterMunch (s : str) : dropSpaces s = afterMunch isSpace s.
Proof. induction s as [|c s IH]; [done|]. simpl. by destruct (isSpace c). Qed.

Lemma trim_afterMunch (s : str) : trim (afterMunch isSpace s) = trim s.
Proof.
  unfold trim. rewrite <- !dropSpaces_afterMunch.
  assert (Hd : forall t, dropSpaces (dropSpaces t) = dropSpaces t).
  { induction t as [|c t IH]; [done|]. simpl.
    destruct (isSpace c) eqn:E; [done|]. simpl. by rewrite E. }
  by rewrite Hd.
Qed.

Lemma starGreedy_ext {A : Type} (p : ascii -> bool)
    (k k' : str -> str -> option A) (b r : str) :
  (forall b' r', k b' r' = k' b' r') ->
  starGreedy p k b r = starGreedy p k' b r.
Proof.
  intros Hk. revert b. induction r as [|c r IH]; intros b; simpl.
  - apply Hk.
  - by rewrite IH, Hk.
Qed.

(** The trimmed capture group of the item pattern. *)
Lemma exec_tagItemRe (line : str) :
  (fun m => trim (default [] (mGroup m))) <$> exec tagItemRe line
  = itemValue line.
Proof.
  unfold tagItemRe, itemValue. rewrite exec_anchored. cbn [matchAt].
  rewrite starGreedy_munch.
  2:{ intros b' c r' Hc. cbn [stripPrefix lit]. by rewrite (isSpace_not "-" c). }
  cbn [app].
  destruct (afterMunch isSpace line) as [|d r]; [done|].
  cbn [stripPrefix lit]. destruct (eqc "-" d) eqn:Ed.
  2:{ by destruct d as [[] [] [] [] [] [] [] []]. }
  apply eqc_true in Ed. subst d.
  rewrite (starGreedy_ext isSpace _
             (fun b' r' => if nonEmptyDots r'
                           then Some (b' ++ r', @nil ascii, Some r')
                           else None)).
  2:{ intros b' r'.
      exact (matchAt_value (fun b' r' g => Some (b', r', g)) b' r' None). }
  rewrite (starGreedy_value (fun b' r' => (b' ++ r', [], Some r'))).
  unfold valueAfterDash. destruct (afterMunch isSpace r) as [|v0 v] eqn:Ev.
  - destruct (last r) as [c|] eqn:El; [|done]. destruct (dot c); [|done].
    simpl. f_equal. apply trim_spaces. simpl. rewrite andb_true_r.
    apply afterMunch_nil in Ev. by apply (forallb_last_true isSpace r).
  - cbv zeta. by destruct (forallb dot (v0 :: v)).
Qed.

Lemma exec_tagItemRe_cases (line : str) :
  match exec tagItemRe line with
  | Some tagMatch => itemValue line = Some (trim (default [] (mGroup tagMatch)))
  | None => itemValue line = None
  end.
Proof.
  rewrite <- exec_tagItemRe. by destruct (exec tagItemRe line).
Qed.

Lemma multilineTags_outside (lines : list str) :
  forallb (fun l => negb (opensBlock l)) lines = true ->
  multilineTags false lines = [].
Proof.
  induction lines as [|l lines IH]; [done|]. simpl. intros H.
  apply andb_true_iff in H as [Hl H]. apply negb_true_iff in Hl.
  rewrite test_tagsKeyRe, Hl. by apply IH.
Qed.

Lemma multilineTags_skip (before rest : list str) :
  forallb (fun l => negb (opensBlock l)) before = true ->
  multilineTags false (before ++ rest) = multilineTags false rest.
Proof.
  induction before as [|l before IH]; [done|]. simpl. intros H.
  apply andb_true_iff in H as [Hl H]. apply negb_true_iff in Hl.
  rewrite test_tagsKeyRe, Hl. by apply IH.
Qed.

Lemma omap_cons_match {X Y : Type} (f : X -> option Y) (x : X) (l : list X) :
  omap f (x :: l) = match f x with
                    | Some y => y :: omap f l
                    | None => omap f l
                    end.
Proof. reflexivity. Qed.

Lemma multilineTags_inside (body rest : list str) :
  forallb keepsBlock body = true ->
  multilineTags true (body ++ rest)
  = omap itemValue body ++ multilineTags true rest.
Proof.
  induction body as [|l body IH]; [done|].
  cbn [forallb app multilineTags]. rewrite omap_cons_match. intros H.
  apply andb_true_iff in H as [Hl H]. unfold keepsBlock in Hl.
  apply andb_true_iff in Hl as [Ho Hk]. apply negb_true_iff in Ho.
  rewrite test_tagsKeyRe, Ho. pose proof (exec_tagItemRe_cases l) as Hc.
  destruct (exec tagItemRe l) as [m|].
  - rewrite Hc. cbn [app]. by rewrite IH.
  - rewrite Hc in Hk |- *. cbn [orb] in Hk. unfold dashed in Hk. rewrite Hk.
    cbn [negb]. by apply IH.
Qed.

Lemma multilineTags_stop (stop : str) (rest : list str) :
  endsBlock stop = true ->
  multilineTags true (stop :: rest) = multilineTags false rest.
Proof.
  unfold endsBlock. intros H. apply andb_true_iff in H as [H Hd].
  apply andb_true_iff in H as [Ho Hi]. apply negb_true_iff in Ho, Hd.
  cbn [multilineTags].
  rewrite test_tagsKeyRe, Ho. pose proof (exec_tagItemRe_cases stop) as Hc.
  destruct (exec tagItemRe stop) as [m|].
  - by rewrite Hc in Hi.
  - unfold dashed in Hd. by rewrite Hd.
Qed.

Lemma opensBlock_shape (line : str) :
  opensBlock line = true <->
  exists ws rest,
    line = lit "tags" ++ ws ++ ":" :: rest /\ forallb isSpace ws = true.
Proof.
  unfold opensBlock. split.
  - destruct (stripPrefix (lit "tags") line) as [r|] eqn:E; [|done].
    apply stripPrefix_Some in E. intros H. apply startsWith_true in H as [rest H].
    exists (munch isSpace r), rest. split; [|apply munch_all].
    rewrite E. f_equal. rewrite <- (munch_afterMunch isSpace r) at 1.
    by rewrite H.
  - intros (ws & rest & -> & Hws). rewrite stripPrefix_app.
    destruct (munch_app isSpace ws (":" :: rest) Hws) as [_ ->].
    reflexivity.
Qed.

(** C7, as the code has it: a block starts after a line that begins with
    [tags], optional white space and a colon (nothing before [tags],
    anything after the colon); every following line that is a list item
    gives its trimmed value; a following line that is no list item but
    begins with a dash after trimming is passed over; the block ends at
    the first following line that is neither, and after it no line gives a
    tag until another line opens a block. *)
Theorem multilineTags_block (before body after : list str)
    (opener stop : str) :
  forallb (fun l => negb (opensBlock l)) before = true ->
  opensBlock opener = true ->
  forallb keepsBlock body = true ->
  endsBlock stop = true ->
  multilineTags false (before ++ opener :: body ++ stop :: after)
  = omap itemValue body ++ multilineTags false after
  /\ multilineTags false (before ++ opener :: body) = omap itemValue body
  /\ (forallb (fun l => negb (opensBlock l)) after = true ->
      multilineTags false after = [])
  /\ multilineTags false
       [lit "title: x"; lit "tags:"; lit "- a"; lit "  -  b c "; lit "date: 1";
        lit "- d"]
     = [lit "a"; lit "b c"].
Proof.
  intros Hbefore Hopen Hbody Hstop.
  split; [|split; [|split; [apply multilineTags_outside|vm_compute; reflexivity]]].
  - rewrite multilineTags_skip by done. cbn [multilineTags].
    rewrite test_tagsKeyRe, Hopen, multilineTags_inside by done.
    by rewrite multilineTags_stop.
  - rewrite multilineTags_skip by done. cbn [multilineTags].
    rewrite test_tagsKeyRe, Hopen.
    rewrite <- (app_nil_r body) at 1. rewrite multilineTags_inside by done.
    apply app_nil_r.
Qed.

Lemma multilineTags_block_witness :
  (forallb (fun l => negb (opensBlock l)) [lit "title: x"] = true
   /\ opensBlock (lit "tags : [x]") = true
   /\ forallb keepsBlock [lit "- a"; lit "-"; lit " - b"] = true
   /\ endsBlock (lit "date: 1") = true)
  /\ multilineTags false
       ([lit "title: x"] ++ lit "tags : [x]" :: [lit "- a"; lit "-"; lit " - b"]
        ++ lit "date: 1" :: [lit "- c"])
     = omap itemValue [lit "- a"; lit "-"; lit " - b"]
       ++ multilineTags false [lit "- c"].
Proof.
  split; [repeat split; reflexivity|].
  apply (multilineTags_block [lit "title: x"] [lit "- a"; lit "-"; lit " - b"]
           [lit "- c"] (lit "tags : [x]") (lit "date: 1")); reflexivity.
Defined.

(** C7 fails as stated: white space before [tags] keeps a line from
    opening a block, text after the colon does not, and a lone dash does
    not end the block. *)
Lemma multilineTags_not_spec :
  (block_tags_spec [lit " tags:"; lit "- a"] = [lit "a"]
   /\ multilineTags false [lit " tags:"; lit "- a"] = [])
  /\ (block_tags_spec [lit "tags: x"; lit "- a"] = []
      /\ multilineTags false [lit "tags: x"; lit "- a"] = [lit "a"])
  /\ (block_tags_spec [lit "tags:"; lit "- a"; lit "-"; lit "- b"] = [lit "a"]
      /\ multilineTags false [lit "tags:"; lit "- a"; lit "-"; lit "- b"]
         = [lit "a"; lit "b"])
  /\ multilineTags false [lit "tags:"; lit "- a"; lit "-"; lit "- b"]
     <> block_tags_spec [lit "tags:"; lit "- a"; lit "-"; lit "- b"].
Proof.
  split; [split; vm_compute; reflexivity|].
  split; [split; vm_compute; reflexivity|].
  split; [split; vm_compute; reflexivity|].
  vm_compute. discriminate.
Qed.

(** * Further properties *)

(** ** The heading is matched as it is written *)

Lemma isPatternSyntaxChar_escaped (c : ascii) :
  isPatternSyntaxChar c = isSyntaxChar c.
Proof. destruct c as [[] [] [] [] [] [] [] []]; vm_compute; reflexivity. Qed.

Lemma tokens_plain (c : ascii) (rest : str) :
  isSyntaxChar c = false ->
  tokens (c :: rest) = cons (TChar c) <$> tokens rest.
Proof.
  intros H. rewrite <- isPatternSyntaxChar_escaped in H.
  cbn [tokens]. rewrite H.
  assert (Hne : forall x, isPatternSyntaxChar x = true -> eqc c x = false).
  { intros x Hx. destruct (eqc c x) eqn:E; [|done].
    apply eqc_true in E. congruence. }
  by rewrite !Hne.
Qed.

Lemma tokens_escapeRegExp (h rest : str) :
  tokens (escapeRegExp h ++ rest) = (map TChar h ++.) <$> tokens rest.
Proof.
  induction h as [|c h IH].
  - simpl. by destruct (tokens rest).
  - cbn [escapeRegExp]. destruct (isSyntaxChar c) eqn:E.
    + cbn [app tokens]. rewrite eqc_refl, isPatternSyntaxChar_escaped, E, IH.
      by destruct (tokens rest).
    + cbn [app]. rewrite tokens_plain by done. rewrite IH.
      by destruct (tokens rest).
Qed.

Lemma terms_chars (multiline : bool) (h : str) (t : token) (ts : list token) :
  t <> TStar ->
  terms multiline (map TChar h ++ t :: ts)
  = literally h <$> terms multiline (t :: ts).
Proof.
  intros Ht. remember (terms multiline (t :: ts)) as X eqn:HX.
  induction h as [|c h IH].
  - cbn [map app]. rewrite <- HX. by destruct X.
  - cbn [map app terms]. cbn [map app] in IH.
    destruct (map TChar h ++ t :: ts) as [|t' ts'] eqn:E.
    { by destruct h. }
    assert (t' <> TStar) by (destruct h; simpl in E; congruence).
    destruct t'; try done; rewrite IH; by destruct X.
Qed.

Lemma compilePattern_heading (h : str) :
  compilePattern true (lit "^" ++ escapeRegExp h ++ lit "\\s*$")
  = Some (Cat LineStart
            (literally h (Cat (Star isSpace) (Cat LineEnd (Lit []))))).
Proof.
  unfold compilePattern. change (lit "^" ++ ?s) with ("^" :: s).
  cbn [tokens]. change (eqc "^" "\") with false. rewrite eqc_refl.
  cbv iota. rewrite tokens_escapeRegExp.
  change (tokens (lit "\\s*$")) with (Some [TSpace; TStar; TEnd]).
  cbn [fmap option_fmap option_map mbind option_bind terms].
  by rewrite terms_chars.
Qed.

Lemma matchAt_literally {A : Type} (h : str) (re : regex)
    (k : str -> str -> option str -> option A) (b r : str) (g : option str) :
  matchAt (literally h re) k b r g =
    match stripPrefix h r with
    | Some r' => matchAt re k (b ++ h) r' g
    | None => None
    end.
Proof.
  revert b r. induction h as [|c h IH]; intros b r.
  - simpl. by rewrite app_nil_r.
  - cbn [literally foldr matchAt stripPrefix]. destruct r as [|x r]; [done|].
    destruct (eqc c x); [|done]. fold (literally h re). rewrite IH.
    by rewrite <- app_assoc.
Qed.

Lemma matchAt_compiled_heading {A : Type} (h : str)
    (k : str -> str -> option str -> option A) (b r : str) (g : option str) :
  matchAt (Cat LineStart
             (literally h (Cat (Star isSpace) (Cat LineEnd (Lit [])))))
    k b r g
  = matchAt (headingRegex h) k b r g.
Proof.
  rewrite matchAt_heading. cbn [matchAt].
  destruct (atLineStart b); [|done]. rewrite matchAt_literally.
  destruct (stripPrefix h r) as [r1|]; [|done]. cbn [matchAt stripPrefix].
  apply starGreedy_ext. intros b' r'. by rewrite app_nil_r.
Qed.

Lemma search_ext (re re' : regex) (b r : str) :
  (forall b' r',
     matchAt re (fun b'' r'' g => Some (b'', r'', g)) b' r' None
     = matchAt re' (fun b'' r'' g => Some (b'', r'', g)) b' r' None) ->
  search re b r = search re' b r.
Proof.
  intros H. revert b. induction r as [|c r IH]; intros b; cbn [search];
    rewrite H; [done|]. by rewrite IH.
Qed.

(** X1: the pattern that the constructor reads from the source text of
    line 203, with every syntax character in its meaning, is read without
    failure for every heading and matches as the heading taken literally:
    it finds the same matches as [headingRegex], and its test succeeds
    exactly when the heading stands in the content at the start of a line
    and is followed by white space only up to the end of a line. *)
Theorem heading_matched_literally (sectionHeading content : str) :
  exists re,
    compilePattern true
      (lit "^" ++ escapeRegExp sectionHeading ++ lit "\\s*$") = Some re
    /\ (forall text, exec re text = exec (headingRegex sectionHeading) text)
    /\ (test re content = true <->
        exists pre ws post,
          content = pre ++ sectionHeading ++ ws ++ post
          /\ atLineStart pre = true /\ forallb isSpace ws = true
          /\ atLineEnd post = true).
Proof.
  eexists. split; [apply compilePattern_heading|].
  assert (Hexec : forall text,
            exec (Cat LineStart
                    (literally sectionHeading
                       (Cat (Star isSpace) (Cat LineEnd (Lit []))))) text
            = exec (headingRegex sectionHeading) text).
  { intros text. apply search_ext. intros. apply matchAt_compiled_heading. }
  split; [exact Hexec|]. unfold test. rewrite Hexec. split.
  - destruct (exec (headingRegex sectionHeading) content) as [m|] eqn:E; [|done].
    intros _. apply exec_heading_sound in E as (ws & Hc & _ & Hs & Hws & He & _).
    by exists (mBefore m), ws, (mAfter m).
  - intros (pre & ws & post & -> & Hs & Hws & He).
    destruct (exec_heading_complete sectionHeading pre ws post Hs Hws He)
      as (m & -> & _). done.
Qed.

Lemma atLineStart_snoc_LF (s : str) : atLineStart (s ++ [LF]) = true.
Proof. unfold atLineStart. by rewrite last_snoc. Qed.

(** X2: when the heading, a newline and the link line make a plain
    replacement text, the text that [addLinkToMOC] returns has the heading
    on a line of its own, so that the next call finds it and no second
    section is created. *)
Theorem heading_present_after_merge (content newLink sectionHeading : str) :
  plainTemplate (sectionHeading ++ lit "\n" ++ newLink) = true ->
  test (headingRegex sectionHeading)
    (addLinkToMOC content newLink sectionHeading) = true.
Proof.
  intros Hplain. rewrite addLinkToMOC_exec by done. unfold test.
  destruct (exec (headingRegex sectionHeading) content) as [m|] eqn:E.
  - apply exec_heading_sound in E as (ws & Hc & _ & Hs & Hws & He & _).
    destruct (exec_heading_complete sectionHeading (mBefore m) []
                (lit "\n" ++ newLink ++ mAfter m)) as (m' & Hm' & _);
      [done..|].
    cbn [app] in Hm'. cbn [app]. by rewrite Hm'.
  - destruct (exec_heading_complete sectionHeading (content ++ lit "\n\n") []
                (lit "\n" ++ newLink)) as (m' & Hm' & _); [|done..|].
    + change (lit "\n\n") with ([LF] ++ [LF]). rewrite app_assoc.
      apply atLineStart_snoc_LF.
    + rewrite <- app_assoc in Hm'. cbn [app] in Hm'. cbn [app].
      by rewrite Hm'.
Qed.

Lemma heading_present_after_merge_witness :
  test (headingRegex (lit "## Links"))
    (addLinkToMOC (lit "# Hub\n## Links  \n- [[B]]\n") (lit "- [[A]]\n")
       (lit "## Links")) = true.
Proof. apply heading_present_after_merge. reflexivity. Defined.

(** ** A link line of the default format is found again *)

Lemma indexOf_app_free (x : ascii) (p' pre rest : str) :
  forallb (fun c => negb (eqc x c)) pre = true ->
  indexOf (pre ++ rest) (x :: p')
    = option_map (plus (length pre)) (indexOf rest (x :: p')).
Proof.
  induction pre as [|c pre IH]; simpl.
  - intros _. by destruct (indexOf rest (x :: p')).
  - intros H. apply andb_true_iff in H as [Hc H]. apply negb_true_iff in Hc.
    unfold startsWith. simpl. rewrite Hc. rewrite IH by done.
    by destruct (indexOf rest (x :: p')).
Qed.

Lemma plainTemplate_no_dollar (t : str) :
  forallb (fun c => negb (eqc c "$")) t = true -> plainTemplate t = true.
Proof.
  induction t as [|c t IH]; [done|]. simpl. intros H.
  apply andb_true_iff in H as [-> H]. by rewrite IH.
Qed.

Lemma scanLinks_through (name : str -> list str) (x : str) (c : ascii)
    (rest pre : str) (k : nat) :
  k <= 1 -> eqc "[" c = false ->
  x ∈ scanLinks name 0 rest ->
  x ∈ scanLinks name k (pre ++ c :: rest).
Proof.
  intros Hk Hc Hx. revert k Hk. induction pre as [|a pre IH]; intros k Hk.
  - cbn [app scanLinks]. destruct k as [|k].
    + unfold startsWith. cbn [lit stripPrefix]. simpl. by rewrite Hc.
    + destruct k; [done|lia].
  - cbn [app scanLinks]. destruct k as [|k].
    + destruct (startsWith _ _).
      * apply elem_of_app. right. apply IH. lia.
      * apply IH. lia.
    + apply IH. lia.
Qed.

Lemma linkNameChar_true (c : ascii) :
  linkNameChar c = true ->
  eqc "[" c = false /\ eqc "]" c = false /\ eqc "|" c = false
  /\ eqc c "$" = false.
Proof.
  unfold linkNameChar. intros H.
  apply andb_true_iff in H as [H H4]. apply andb_true_iff in H as [H H3].
  apply andb_true_iff in H as [H1 H2].
  by rewrite !negb_true_iff in *.
Qed.

Lemma isLinkName_true (x : str) :
  isLinkName x = true ->
  trim x = x
  /\ forallb (fun c => negb (eqc "[" c)) x = true
  /\ forallb (fun c => negb (eqc "]" c)) x = true
  /\ forallb (fun c => negb (eqc "|" c)) x = true
  /\ forallb (fun c => negb (eqc c "$")) x = true.
Proof.
  unfold isLinkName. intros H. apply andb_true_iff in H as [H1 H2].
  apply eqs_true in H1. split; [done|].
  repeat split; (eapply forallb_weaken; [|exact H2]); intros c Hc;
    apply linkNameChar_true in Hc as (? & ? & ? & ?); by apply negb_true_iff.
Qed.

(** The name that the text after [\[\[] contributes, when the text starts
    with a link name and [\]\]]. *)
Lemma delimited_link_name (x rest : str) :
  isLinkName x = true ->
  delimited (upTo (lit "[[") (x ++ lit "]]" ++ rest)) = [x].
Proof.
  intros Hx. apply isLinkName_true in Hx as (Htrim & Hopen & Hclose & Hbar & _).
  assert (exists rest', upTo (lit "[[") (x ++ lit "]]" ++ rest)
                        = x ++ lit "]]" ++ rest') as [rest' ->].
  { unfold upTo. change (lit "[[") with ("[" :: lit "[").
    rewrite app_assoc. rewrite indexOf_app_free.
    2:{ rewrite forallb_app. by rewrite Hopen. }
    destruct (indexOf rest _) as [k|]; simpl.
    - exists (take k rest). rewrite take_app_add'; [|done].
      by rewrite <- app_assoc.
    - exists rest. by rewrite <- app_assoc. }
  unfold delimited.
  pose proof (indexOf_app_free "]" (lit "]") x (lit "]]" ++ rest') Hclose) as E.
  change ("]" :: lit "]") with (lit "]]") in E. rewrite E.
  replace (indexOf (lit "]]" ++ rest') (lit "]]")) with (Some 0) by done.
  simpl. rewrite Nat.add_0_r, take_app_length.
  unfold linkedName, upTo. change (lit "|") with ["|"].
  rewrite indexOf_char_none by done.
  by rewrite Htrim.
Qed.

Lemma replaceString_default_format (x : str) :
  forallb (fun c => negb (eqc c "$")) x = true ->
  replaceString (lit "- [[{{fileName}}]]\n") (lit "{{fileName}}") x
    = lit "- [[" ++ x ++ lit "]]\n".
Proof.
  intros Hx. unfold replaceString.
  replace (indexOf (lit "- [[{{fileName}}]]\n") (lit "{{fileName}}"))
    with (Some 4) by (vm_compute; reflexivity).
  cbv zeta. rewrite getSubstitution_plain by by apply plainTemplate_no_dollar.
  reflexivity.
Qed.

Lemma link_found_after (pre x rest : str) :
  isLinkName x = true ->
  x ∈ extractExistingLinks (pre ++ lit "- [[" ++ x ++ lit "]]" ++ rest).
Proof.
  intros Hx.
  rewrite (extractExistingLinks_cut_bounded
             (length (pre ++ lit "- [[" ++ x ++ lit "]]" ++ rest))) by lia.
  unfold extract_links_cut.
  change (lit "- [[" ++ x ++ lit "]]" ++ rest)
    with ("-" :: " " :: lit "[[" ++ x ++ lit "]]" ++ rest).
  replace (pre ++ "-" :: " " :: lit "[[" ++ x ++ lit "]]" ++ rest)
    with ((pre ++ ["-"]) ++ " " :: lit "[[" ++ x ++ lit "]]" ++ rest)
    by by rewrite <- app_assoc.
  apply scanLinks_through; [lia|done|].
  change (scanLinks ?n 0 (lit "[[" ++ ?r))
    with (n r ++ scanLinks n 1 ("[" :: r)).
  apply elem_of_app. left.
  rewrite (delimited_link_name x rest Hx). by apply list_elem_of_singleton.
Qed.

Lemma plainTemplate_snoc_app (a : str) (c : ascii) (b : str) :
  plainTemplate (a ++ [c]) = true -> eqc c "$" = false ->
  plainTemplate b = true -> plainTemplate (a ++ c :: b) = true.
Proof.
  intros Ha Hc Hb. induction a as [|a0 a IH].
  - cbn [app plainTemplate]. by rewrite Hc, Hb.
  - cbn [app plainTemplate] in Ha |- *.
    apply andb_true_iff in Ha as [H0 Ha]. rewrite (IH Ha), andb_true_r.
    by destruct a.
Qed.

(** X3: with the default format [- \[\[{{fileName}}\]\]] the link that
    [addLinkToMOC] inserts is found again by [extractExistingLinks] in the
    text it returns, for every hub text, when the name has no white space
    at its ends and no bracket, bar or dollar sign and the heading with a
    newline is a plain replacement text. *)
Theorem link_found_after_merge (content sectionHeading fileName : str) :
  isLinkName fileName = true ->
  plainTemplate (sectionHeading ++ lit "\n") = true ->
  fileName ∈
    extractExistingLinks
      (addLinkToMOC content
         (replaceString (lit "- [[{{fileName}}]]\n") (lit "{{fileName}}")
            fileName)
         sectionHeading).
Proof.
  intros Hx Hh.
  pose proof (isLinkName_true _ Hx) as (_ & _ & _ & _ & Hd).
  rewrite replaceString_default_format by done.
  rewrite addLinkToMOC_exec.
  - destruct (exec _ content) as [m|].
    + replace (mBefore m ++ sectionHeading ++ lit "\n"
               ++ (lit "- [[" ++ fileName ++ lit "]]\n") ++ mAfter m)
        with ((mBefore m ++ sectionHeading ++ lit "\n")
              ++ lit "- [[" ++ fileName ++ lit "]]" ++ lit "\n" ++ mAfter m).
      * by apply link_found_after.
      * rewrite <- !app_assoc. reflexivity.
    + replace (content ++ lit "\n\n" ++ sectionHeading ++ lit "\n"
               ++ lit "- [[" ++ fileName ++ lit "]]\n")
        with ((content ++ lit "\n\n" ++ sectionHeading ++ lit "\n")
              ++ lit "- [[" ++ fileName ++ lit "]]" ++ lit "\n").
      * by apply link_found_after.
      * rewrite <- !app_assoc. reflexivity.
  - apply (plainTemplate_snoc_app sectionHeading LF); [done|done|].
    apply plainTemplate_no_dollar.
    change (lit "- [[" ++ fileName ++ lit "]]\n")
      with ("-" :: " " :: "[" :: "[" :: fileName ++ lit "]]\n").
    cbn [forallb]. rewrite forallb_app, Hd. done.
Qed.

Lemma link_found_after_merge_witness :
  lit "A" ∈
    extractExistingLinks
      (addLinkToMOC (lit "# Hub\n## Links\n- [[B]]\n")
         (replaceString (lit "- [[{{fileName}}]]\n") (lit "{{fileName}}")
            (lit "A"))
         (lit "## Links")).
Proof. apply link_found_after_merge; reflexivity. Defined.

(** ** The shape of the extracted links *)

Lemma dropSpaces_fixed (s : str) :
  match s with c :: _ => isSpace c = false | [] => True end ->
  dropSpaces s = s.
Proof. destruct s as [|c s]; [done|]. simpl. by intros ->. Qed.

Lemma dropSpaces_head (s : str) :
  match dropSpaces s with c :: _ => isSpace c = false | [] => True end.
Proof.
  induction s as [|c s IH]; [done|]. simpl.
  destruct (isSpace c) eqn:E; [done|]. simpl. done.
Qed.

Lemma dropSpaces_suffix (s : str) : exists ws, s = ws ++ dropSpaces s.
Proof.
  exists (munch isSpace s). rewrite dropSpaces_afterMunch.
  symmetry. apply munch_afterMunch.
Qed.

Lemma trim_trim (s : str) : trim (trim s) = trim s.
Proof.
  unfold trim.
  pose proof (dropSpaces_head s) as Ha.
  pose proof (dropSpaces_head (rev (dropSpaces s))) as Hb.
  destruct (dropSpaces_suffix (rev (dropSpaces s))) as [ws Hws].
  set (a := dropSpaces s) in *. set (b := dropSpaces (rev a)) in *.
  assert (Hfix : dropSpaces (rev b) = rev b).
  { apply dropSpaces_fixed.
    destruct (rev b) as [|c r] eqn:E; [done|].
    assert (a = (c :: r) ++ rev ws) as Ea.
    { rewrite <- E, <- rev_app_distr, <- Hws. by rewrite rev_involutive. }
    rewrite Ea in Ha. exact Ha. }
  rewrite Hfix, rev_involutive. f_equal. by apply dropSpaces_fixed.
Qed.

Lemma forallb_dropSpaces (p : ascii -> bool) (s : str) :
  forallb p s = true -> forallb p (dropSpaces s) = true.
Proof.
  destruct (dropSpaces_suffix s) as [ws Hws]. rewrite Hws at 1.
  rewrite forallb_app. intros H. by apply andb_true_iff in H as [_ H].
Qed.

Lemma forallb_rev (p : ascii -> bool) (s : str) :
  forallb p (rev s) = forallb p s.
Proof.
  induction s as [|c s IH]; [done|]. simpl.
  rewrite forallb_app, IH. simpl. rewrite andb_true_r. apply andb_comm.
Qed.

Lemma forallb_trim (p : ascii -> bool) (s : str) :
  forallb p s = true -> forallb p (trim s) = true.
Proof.
  intros H. unfold trim. rewrite forallb_rev. apply forallb_dropSpaces.
  rewrite forallb_rev. by apply forallb_dropSpaces.
Qed.

Lemma upTo_char_free (x : ascii) (s : str) :
  forallb (fun c => negb (eqc x c)) (upTo [x] s) = true.
Proof.
  unfold upTo. induction s as [|c s IH]; [done|].
  rewrite indexOf_cons. unfold startsWith. cbn [stripPrefix].
  destruct (eqc x c) eqn:E; [done|].
  destruct (indexOf s [x]) as [n|]; simpl; by rewrite E.
Qed.

(** X4: every name that [extractExistingLinks] returns is trimmed and
    holds no [|]. *)
Theorem extractExistingLinks_names (text : str) :
  Forall (fun link => trim link = link
                      /\ forallb (fun c => negb (eqc "|" c)) link = true)
    (extractExistingLinks text).
Proof.
  unfold extractExistingLinks. apply Forall_concat, Forall_fmap, Forall_forall.
  intros section _. simpl. rewrite linkOfSection_delimited. unfold delimited.
  destruct (indexOf section (lit "]]")) as [j|]; [|done].
  constructor; [|done]. unfold linkedName. split.
  - apply trim_trim.
  - apply forallb_trim. apply upTo_char_free.
Qed.

(** ** The link line *)

(** X5: the link line is the format with its first [{{fileName}}]
    replaced by the name, when the name is a plain replacement text; a
    later [{{fileName}}] of the format stays as it is. *)
Theorem link_line_first_placeholder (before after fileName : str) :
  indexOf (before ++ lit "{{fileName}}" ++ after) (lit "{{fileName}}")
    = Some (length before) ->
  plainTemplate fileName = true ->
  replaceString (before ++ lit "{{fileName}}" ++ after) (lit "{{fileName}}")
    fileName
  = before ++ fileName ++ after.
Proof.
  intros Hfirst Hplain. unfold replaceString. rewrite Hfirst. cbv zeta.
  rewrite getSubstitution_plain by done. rewrite take_app_length.
  f_equal. f_equal. rewrite app_assoc.
  rewrite <- (length_app before). apply drop_app_length.
Qed.

Lemma link_line_first_placeholder_witness :
  replaceString (lit "- [[{{fileName}}]] ({{fileName}})\n")
    (lit "{{fileName}}") (lit "A")
  = lit "- [[A]] ({{fileName}})\n".
Proof.
  apply (link_line_first_placeholder (lit "- [[")
           (lit "]] ({{fileName}})\n") (lit "A")); reflexivity.
Defined.

(** ** Tag extraction: the scalar form *)

Lemma munch_run (p : ascii -> bool) (run rest : str) :
  forallb p run = true ->
  match rest with c :: _ => p c = false | [] => True end ->
  munch p (run ++ rest) = run /\ afterMunch p (run ++ rest) = rest.
Proof.
  intros Hrun Hrest. destruct (munch_app p run rest Hrun) as [-> ->].
  destruct rest as [|c rest]; [by rewrite app_nil_r|].
  destruct (munch_stop p c rest Hrest) as [-> ->]. by rewrite app_nil_r.
Qed.

Lemma matchAt_singleTagRe (pre ws1 ws2 value rest : str) :
  forallb isSpace ws1 = true -> forallb isSpace ws2 = true ->
  isScalarValue value = true -> endsValue rest = true ->
  exists b' r',
    matchAt singleTagRe (fun b' r' g => Some (b', r', g)) pre
      (lit "tags" ++ ws1 ++ lit ":" ++ ws2 ++ value ++ rest) None
    = Some (b', r', Some value).
Proof.
  intros H1 H2 Hv Hr. unfold singleTagRe. cbn [matchAt].
  rewrite stripPrefix_app.
  destruct value as [|c v]; [done|]. cbn [isScalarValue forallb] in Hv.
  apply andb_true_iff in Hv as [Hc Hv]. apply negb_true_iff in Hc.
  apply andb_true_iff in Hv as [Hcn Hv].
  destruct (munch_run isSpace ws1 (lit ":" ++ ws2 ++ (c :: v) ++ rest) H1)
    as [Em1 Ea1]; [done|].
  destruct (munch_run isSpace ws2 ((c :: v) ++ rest) H2) as [Em2 Ea2]; [done|].
  assert (Hrest : match rest with
                  | x :: _ => notNewlineOrBracket x = false
                  | [] => True
                  end).
  { destruct rest as [|x rest]; [done|]. simpl in Hr. apply eqc_true in Hr.
    by subst x. }
  destruct (munch_run notNewlineOrBracket v rest Hv Hrest) as [Em3 Ea3].
  set (B := ((pre ++ lit "tags") ++ ws1) ++ lit ":").
  assert (Hend : exists b' r',
            starGreedy notNewlineOrBracket
              (fun b'4 r'4 =>
                 match
                   match stripPrefix (lit "\n") r'4 with
                   | Some r'5 =>
                       Some (b'4 ++ lit "\n", r'5,
                             Some (drop (length (B ++ ws2)) b'4))
                   | None => None
                   end
                 with
                 | Some res => Some res
                 | None =>
                     match r'4 with
                     | [] => Some (b'4, r'4,
                                   Some (drop (length (B ++ ws2)) b'4))
                     | _ :: _ => None
                     end
                 end) ((B ++ ws2) ++ [c]) (v ++ rest)
            = Some (b', r', Some (c :: v))).
  { assert (Hg : drop (length (B ++ ws2)) (((B ++ ws2) ++ [c]) ++ v) = c :: v).
    { rewrite <- app_assoc. by rewrite drop_app_length. }
    destruct rest as [|x rest].
    - eexists _, _. apply starGreedy_munch_some. rewrite Em3, Ea3.
      cbn [stripPrefix lit]. by rewrite Hg.
    - simpl in Hr. apply eqc_true in Hr. subst x.
      eexists _, _. apply starGreedy_munch_some. rewrite Em3, Ea3.
      cbn [stripPrefix lit]. rewrite eqc_refl. by rewrite Hg. }
  destruct Hend as (b' & r' & Hend). exists b', r'.
  apply starGreedy_munch_some. rewrite Em1, Ea1. rewrite stripPrefix_app.
  apply starGreedy_munch_some. rewrite Em2, Ea2. cbn [app].
  rewrite Hcn. exact Hend.
Qed.

Lemma singleTag_scalar (pre ws1 ws2 value rest : str) :
  indexOf (pre ++ lit "tags" ++ ws1 ++ lit ":" ++ ws2 ++ value ++ rest)
    (lit "tags") = Some (length pre) ->
  forallb isSpace ws1 = true -> forallb isSpace ws2 = true ->
  isScalarValue value = true -> endsValue rest = true ->
  singleTag (pre ++ lit "tags" ++ ws1 ++ lit ":" ++ ws2 ++ value ++ rest)
  = [trim value].
Proof.
  intros Hfirst H1 H2 Hv Hr.
  destruct (matchAt_singleTagRe pre ws1 ws2 value rest H1 H2 Hv Hr)
    as (b' & r' & Hm).
  unfold singleTag, exec. unfold singleTagRe in Hm |- *.
  rewrite (search_literal_first (lit "tags") _ [] _ (length pre) b' r'
             (Some value)); [|done|done|].
  - destruct value; [done|reflexivity].
  - cbn [app]. by rewrite take_app_length, drop_app_length.
Qed.

(** X6: the scalar form.  When the first [tags] of the front-matter is
    followed by optional white space, a colon, optional white space and a
    value without line feed and bracket that runs up to a line feed or the
    end of the front-matter, the first tag of the note is the trimmed
    value. *)
Theorem extractTags_scalar (text pre ws1 ws2 value rest : str) :
  frontMatterOf text
    = Some (pre ++ lit "tags" ++ ws1 ++ lit ":" ++ ws2 ++ value ++ rest) ->
  indexOf (pre ++ lit "tags" ++ ws1 ++ lit ":" ++ ws2 ++ value ++ rest)
    (lit "tags") = Some (length pre) ->
  forallb isSpace ws1 = true -> forallb isSpace ws2 = true ->
  isScalarValue value = true -> endsValue rest = true ->
  hd_error (extractTags text) = Some (trim value).
Proof.
  intros Hfm Hfirst H1 H2 Hv Hr. unfold extractTags.
  rewrite frontmatterTags_frontMatterOf, Hfm.
  pose proof (singleTag_scalar pre ws1 ws2 value rest Hfirst H1 H2 Hv Hr)
    as Hs.
  destruct (pre ++ lit "tags" ++ ws1 ++ lit ":" ++ ws2 ++ value ++ rest)
    as [|c fm]; [done|].
  by rewrite Hs.
Qed.

Lemma extractTags_scalar_witness :
  hd_error (extractTags (lit "---\ntitle: Limits\ntags: maths \n---\nText"))
  = Some (lit "maths").
Proof.
  apply (extractTags_scalar
           (lit "---\ntitle: Limits\ntags: maths \n---\nText")
           (lit "title: Limits\n") [] (lit " ") (lit "maths ") []);
    vm_compute; reflexivity.
Defined.

(** ** Tags of notes without a [tags] key *)

Lemma indexOf_None_startsWith (s p : str) :
  indexOf s p = None -> startsWith s p = false.
Proof. destruct s; simpl; by destruct (startsWith _ p). Qed.

Lemma indexOf_occurs (a p r : str) : is_Some (indexOf (a ++ p ++ r) p).
Proof.
  induction a as [|c a IH].
  - simpl. assert (startsWith (p ++ r) p = true) as H.
    { unfold startsWith. by rewrite stripPrefix_app. }
    destruct (p ++ r); simpl in *; rewrite H; by eexists.
  - cbn [app]. rewrite indexOf_cons. destruct (startsWith _ p); [by eexists|].
    destruct IH as [n ->]. by eexists.
Qed.

Lemma search_literal_absent (lit0 : str) (re : regex) (b r : str) :
  indexOf r lit0 = None -> search (Cat (Lit lit0) re) b r = None.
Proof.
  revert b. induction r as [|c r IH]; intros b H.
  - apply indexOf_None_startsWith in H. unfold startsWith in H.
    cbn [search matchAt]. by destruct (stripPrefix lit0 []).
  - pose proof (indexOf_None_startsWith _ _ H) as Hs.
    rewrite indexOf_cons, Hs in H. unfold startsWith in Hs.
    cbn [search matchAt]. destruct (stripPrefix lit0 (c :: r)); [done|].
    apply IH. by destruct (indexOf r lit0).
Qed.

(** Every piece of a split is a part of the text. *)
Lemma split_pieces (n : nat) (s sep piece : str) :
  sep <> [] -> length s <= n -> piece ∈ split s sep ->
  exists a b, s = a ++ piece ++ b.
Proof.
  intros Hsep. revert s. induction n as [|n IH]; intros s Hn Hp;
    rewrite split_indexOf in Hp by done.
  - destruct s; [|simpl in Hn; lia]. rewrite indexOf_nil in Hp by done.
    apply list_elem_of_singleton in Hp as ->. by exists [], [].
  - destruct (indexOf s sep) as [i|] eqn:E.
    + apply elem_of_cons in Hp as [->|Hp].
      * exists [], (drop i s). simpl. by rewrite take_drop.
      * apply IH in Hp as (a & b & Hs).
        -- exists (take (i + length sep) s ++ a), b.
           rewrite <- app_assoc, <- Hs. by rewrite take_drop.
        -- rewrite length_drop. destruct sep; [done|]. simpl. lia.
    + apply list_elem_of_singleton in Hp as ->. exists [], []. simpl.
      by rewrite app_nil_r.
Qed.

Lemma opensBlock_tags (line : str) :
  opensBlock line = true -> exists r, line = lit "tags" ++ r.
Proof.
  unfold opensBlock. destruct (stripPrefix (lit "tags") line) as [r|] eqn:E; [|done].
  intros _. apply stripPrefix_Some in E. by exists r.
Qed.

Lemma frontmatter_without_tags (fm : str) :
  indexOf fm (lit "tags") = None ->
  singleTag fm ++ inlineArrayTags fm
  ++ multilineTags false (split fm (lit "\n")) = [].
Proof.
  intros H. unfold singleTag, inlineArrayTags, exec, singleTagRe, inlineArrayRe.
  rewrite !search_literal_absent by done. simpl.
  apply multilineTags_outside. apply forallb_forall. intros line Hl.
  apply negb_true_iff. destruct (opensBlock line) eqn:E; [|done].
  apply opensBlock_tags in E as [r ->].
  apply list_elem_of_In in Hl.
  apply (split_pieces (length fm)) in Hl as (a & b & Hfm); [|done|lia].
  rewrite <- app_assoc in Hfm.
  destruct (indexOf_occurs a (lit "tags") (r ++ b)) as [n Hn].
  congruence.
Qed.

(** X7: a note without a front-matter block, or with a front-matter block
    in which the word [tags] does not occur, has exactly its inline tags. *)
Theorem extractTags_without_tags_key (text : str) :
  match frontMatterOf text with
  | Some frontmatter => indexOf frontmatter (lit "tags") = None
  | None => True
  end ->
  extractTags text = inline_tags_spec text.
Proof.
  intros H. unfold extractTags.
  rewrite frontmatterTags_frontMatterOf, bodyTags_spec.
  destruct (frontMatterOf text) as [[|c fm]|]; try done.
  by rewrite frontmatter_without_tags.
Qed.

Lemma extractTags_without_tags_key_witness :
  extractTags (lit "---\ntitle: Limits\n---\nSee #maths and #a-b.")
  = inline_tags_spec (lit "---\ntitle: Limits\n---\nSee #maths and #a-b.").
Proof. apply extractTags_without_tags_key. vm_compute. reflexivity. Defined.

(** ** The shape of inline tags *)

(** X8: every inline tag is a non-empty run of the characters
    [A-Za-z0-9_-], and there are no more inline tags than [#] in the
    text. *)
Theorem bodyTags_word_runs (text : str) :
  Forall (fun t => t <> [] /\ forallb wordChar t = true) (bodyTags text)
  /\ length (bodyTags text) <= occurrences (lit "#") text.
Proof.
  rewrite bodyTags_spec. change (lit "#") with ["#"]. induction text as [|c s [IH1 IH2]];
    [split; [constructor|apply Nat.le_0_l]|].
  cbn [inline_tags_spec occurrences]. unfold startsWith at 1.
  cbn [stripPrefix]. split.
  - apply Forall_app. split; [|done].
    destruct (eqc "#" c); [|done].
    pose proof (munch_all wordChar s) as Hm.
    destruct (munch wordChar s) eqn:E; [done|]. by repeat constructor.
  - rewrite length_app. destruct (eqc "#" c); [|exact IH2].
    destruct (munch wordChar s); simpl.
    + by apply Nat.le_le_succ_r.
    + by apply le_n_S.
Qed.

(** ** The files of a folder *)

Lemma TAbstractFile_nested_ind (P : TAbstractFile -> Prop) :
  (forall f, P (AFile f)) ->
  (forall folderPath children,
     Forall P children -> P (AFolder folderPath children)) ->
  forall node, P node.
Proof.
  intros Hfile Hfolder. fix IH 1. intros [f|p children].
  - apply Hfile.
  - apply Hfolder.
    exact ((fix all (l : list TAbstractFile) : Forall P l :=
              match l with
              | [] => Forall_nil_2 P
              | child :: l' => Forall_cons_2 P child l' (IH child) (all l')
              end) children).
Qed.

Lemma collectFile_below (node : TAbstractFile) (f : TFile) :
  f ∈ collectFile node <-> fileBelow f node /\ extension f = lit "md".
Proof.
  induction node as [g|p children IH] using TAbstractFile_nested_ind.
  - cbn [collectFile]. destruct (eqs (extension g) (lit "md")) eqn:E.
    + apply eqs_true in E. rewrite list_elem_of_singleton. split.
      * intros ->. split; [constructor|done].
      * intros [H _]. by inversion H.
    + split; [intros H; by apply elem_of_nil in H|].
      intros [H Hmd]. inversion H; subst.
      apply eqs_true in Hmd. congruence.
  - rewrite Forall_forall in IH. cbn [collectFile]. split.
    + intros H. apply list_elem_of_In, in_concat in H as (l & Hl & Hf).
      apply in_map_iff in Hl as (child & <- & Hc).
      apply list_elem_of_In in Hf, Hc.
      apply IH in Hf as [Hb Hmd]; [|done]. split; [|done]. by econstructor.
    + intros [H Hmd]. inversion H as [|? ? child Hc Hb]; subst.
      apply list_elem_of_In, in_concat. exists (collectFile child). split.
      * apply in_map. by apply list_elem_of_In.
      * apply list_elem_of_In, IH; done.
Qed.

(** X9: for a search path other than [/], [getFilesInPath] returns the
    files with the extension [md] that are below the folder at that path,
    at any depth, and nothing else; it returns no file when the path does
    not resolve to a folder. *)
Theorem getFilesInPath_folder (host : Host) (searchPath : str) (f : TFile) :
  searchPath <> lit "/" ->
  f ∈ getFilesInPath host searchPath <->
  exists folderPath children,
    getAbstractFileByPath host searchPath = Some (AFolder folderPath children)
    /\ fileBelow f (AFolder folderPath children)
    /\ extension f = lit "md".
Proof.
  intros Hp. unfold getFilesInPath.
  destruct (eqs searchPath (lit "/")) eqn:E; [by apply eqs_true in E|].
  destruct (getAbstractFileByPath host searchPath) as [[g|p children]|].
  - split; [intros H; by apply elem_of_nil in H|]. by intros (? & ? & ? & _).
  - change (concat (map collectFile children)) with (collectFile (AFolder p children)).
    rewrite collectFile_below. split.
    + intros [H1 H2]. by exists p, children.
    + intros (? & ? & [= <- <-] & H1 & H2). done.
  - split; [intros H; by apply elem_of_nil in H|]. by intros (? & ? & ? & _).
Qed.

Lemma getFilesInPath_folder_witness :
  noteB ∈ getFilesInPath folderHost (lit "notes") <->
  exists folderPath children,
    getAbstractFileByPath folderHost (lit "notes")
      = Some (AFolder folderPath children)
    /\ fileBelow noteB (AFolder folderPath children)
    /\ extension noteB = lit "md".
Proof. apply getFilesInPath_folder. discriminate. Defined.

(** ** What a run writes *)

Section Writes.
Variable host : Host.
Variable settings : Settings.

Lemma matchingMappings_subseteq (noteTag : str) (mapping : Mapping) :
  mapping ∈ matchingMappings settings noteTag ->
  mapping ∈ tagMappings settings.
Proof.
  unfold matchingMappings. intros H.
  by apply list_elem_of_filter in H as [_ H].
Qed.

Lemma hubFilePaths_resolved (mapping : Mapping) (f : TFile) :
  mapping ∈ tagMappings settings ->
  mocPath mapping <> [] ->
  getAbstractFileByPath host (ensureMdExtension (mocPath mapping))
    = Some (AFile f) ->
  path f ∈ hubFilePaths host settings.
Proof.
  intros Hm Hne Hf. unfold hubFilePaths. apply list_elem_of_bind.
  exists mapping. split; [|done]. rewrite Hf.
  destruct (mocPath mapping); [done|]. by apply list_elem_of_singleton.
Qed.

(** An invariant of the logging and of the loading of notes and hubs that
    the writes to the hubs keep is an invariant of a run. *)
Lemma run_invariant (P : State -> Prop) (st : State) :
  (forall s e, P s -> P (log s e)) ->
  (forall s s1 file fileData,
     loadFile host s file = Some (s1, fileData) -> P s -> P s1) ->
  (forall s file mapping,
     mapping ∈ tagMappings settings ->
     P s -> P (processMapping host settings file s mapping)) ->
  P (setMocLinksCache
       (log (setTotalNotesAdded st 0)
          (NoticeProcessing (length (filesOfRun host settings)))) ∅) ->
  P (runAutoIndex host settings st).
Proof.
  intros Hlog Hload Hmap H0. unfold runAutoIndex.
  apply Hlog, Hlog. fold (filesOfRun host settings).
  apply batchLoop_invariant; [| |done].
  - intros s f _ Hs. apply processFile_invariant; [| |done].
    + intros s1 fileData _ Hl. split; [by eapply Hload|].
      intros noteTag mapping s' _ Hm. apply Hmap.
      by eapply matchingMappings_subseteq.
    + intros _. by apply Hlog.
  - intros s a b. apply Hlog.
Qed.

(** X10: a run changes the text of no file but those that the hub paths
    of the mappings resolve to. *)
Theorem run_writes_hub_files_only (st : State) (p : str) :
  p ∉ hubFilePaths host settings ->
  vaultText (runAutoIndex host settings st) !! p = vaultText st !! p.
Proof.
  intros Hp.
  apply (run_invariant (fun s => vaultText s !! p = vaultText st !! p));
    try done.
  - intros s s1 file fileData Hl Hs.
    apply loadFile_fields in Hl as (_ & -> & _). done.
  - intros s file mapping Hm Hs.
    destruct (processMapping_outcome host settings file s mapping)
      as [ | | | ? ? ? _ _ Hl _ | ? ? ? _ _ Hl _ _ | mocFile s1 ? s3 Hne Hf Hl _ Hw];
      try done.
    + apply loadMoc_fields in Hl as (_ & _ & -> & _). done.
    + apply loadMoc_fields in Hl as (_ & _ & Hv & _). simpl. by rewrite Hv.
    + apply loadMoc_fields in Hl as (_ & _ & Hv & _).
      apply vaultModify_fields in Hw as (_ & _ & _ & f & -> & _ & Hv3).
      simpl. rewrite Hv3. simpl. rewrite lookup_insert_ne.
      * by rewrite Hv.
      * intros <-. apply Hp. by eapply hubFilePaths_resolved.
Qed.


(** ** The caches and the vault *)

Lemma vaultModify_notifying (s s3 : State) (f : TFile) (data : str) :
  raisesModify host = true ->
  vaultModify host s (AFile f) data = Some s3 ->
  vaultText s3 = <[path f := data]> (vaultText s)
  /\ fileCache s3 = match path f with
                    | [] => fileCache s
                    | _ => delete (path f) (fileCache s)
                    end.
Proof.
  intros Hr. unfold vaultModify. rewrite Hr.
  destruct (modifyFails host (path f)); [done|].
  intros H. injection H as <-. unfold onModify.
  by destruct (path f).
Qed.

Lemma coherentNotes_ext (s s' : State) :
  vaultText s' = vaultText s -> fileCache s' = fileCache s ->
  coherentNotes s -> coherentNotes s'.
Proof. unfold coherentNotes. intros -> ->. done. Qed.

Lemma loadMoc_fileCache (s s1 : State) (p : str) (mocFile : TAbstractFile)
    (d : MocData.t) :
  loadMoc host s p mocFile = Some (s1, d) -> fileCache s1 = fileCache s.
Proof. intros H. by apply loadMoc_Some in H as [[_ ->]|(_ & -> & _)]. Qed.

(** X12: on a host that raises ['modify'] after a write, a run keeps the
    cache of the notes in agreement with the vault: every entry holds the
    current text of its file and the tags of that text. *)
Theorem run_keeps_notes_coherent (st : State) :
  raisesModify host = true ->
  coherentNotes st -> coherentNotes (runAutoIndex host settings st).
Proof.
  intros Hr Hst. apply (run_invariant coherentNotes); try done.
  - intros s s1 file fileData Hl Hs. unfold loadFile in Hl.
    destruct (fileCache s !! path file) as [d|] eqn:Ec.
    { by injection Hl as <- <-. }
    unfold vaultRead in Hl. destruct (readFails host (path file)); [done|].
    destruct (vaultText s !! path file) as [text|] eqn:Ev; [|done].
    injection Hl as <- <-. intros p d Hne. simpl.
    destruct (decide (p = path file)) as [->|Hp].
    + rewrite lookup_insert_eq. intros [= <-]. simpl. done.
    + rewrite lookup_insert_ne by done. by apply Hs.
  - intros s file mapping Hm Hs.
    destruct (processMapping_outcome host settings file s mapping)
      as [ | | | ? ? ? _ _ Hl _ | ? ? ? _ _ Hl _ _ | mocFile s1 ? s3 Hne Hf Hl _ Hw];
      try done.
    + apply (coherentNotes_ext s); [|by eapply loadMoc_fileCache|done].
      by apply loadMoc_fields in Hl as (_ & _ & -> & _).
    + apply (coherentNotes_ext s);
        [|simpl; by eapply loadMoc_fileCache|done].
      simpl. by apply loadMoc_fields in Hl as (_ & _ & -> & _).
    + pose proof (loadMoc_fileCache _ _ _ _ _ Hl) as Hfc.
      apply loadMoc_fields in Hl as (_ & _ & Hv & _).
      destruct mocFile as [f|]; [|done].
      apply (vaultModify_notifying _ _ _ _ Hr) in Hw as [Hv3 Hfc3].
      intros p d Hp. simpl. rewrite Hv3, Hfc3. simpl. rewrite Hv, Hfc.
      destruct (decide (p = path f)) as [->|Hpf].
      * destruct (path f); [done|]. by rewrite lookup_delete_eq.
      * rewrite lookup_insert_ne by done. intros Hd. apply Hs; [done|].
        destruct (path f); [done|]. by rewrite lookup_delete_ne in Hd.
Qed.

(** X13: on a host that resolves a path to the file at that path, the
    content that the cache of the hubs holds for a hub after a run is the
    text of the hub in the vault. *)
Theorem run_keeps_hubs_coherent (st : State) (p : str) (d : MocData.t) :
  resolvesByPath host ->
  mocLinksCache (runAutoIndex host settings st) !! p = Some d ->
  vaultText (runAutoIndex host settings st) !! p = Some (MocData.content d).
Proof.
  intros Hhost. revert p d.
  apply (run_invariant
           (fun s => forall p d, mocLinksCache s !! p = Some d ->
                                 vaultText s !! p = Some (MocData.content d)));
    try done.
  - intros s s1 file fileData Hl Hs.
    apply loadFile_fields in Hl as (-> & -> & _). done.
  - intros s file mapping Hm Hs.
    assert (Hload : forall mocFile s1 mocData,
              getAbstractFileByPath host (ensureMdExtension (mocPath mapping))
                = Some mocFile ->
              loadMoc host s (ensureMdExtension (mocPath mapping)) mocFile
                = Some (s1, mocData) ->
              forall p d, mocLinksCache s1 !! p = Some d ->
                          vaultText s1 !! p = Some (MocData.content d)).
    { intros mocFile s1 mocData Hf Hl.
      apply loadMoc_Some in Hl as [[_ ->]|(_ & -> & text & Hread & ->)]; [done|].
      intros p d. simpl.
      destruct (decide (p = ensureMdExtension (mocPath mapping))) as [->|Hp].
      - rewrite lookup_insert_eq. intros [= <-]. simpl.
        destruct mocFile as [f|]; [|done]. simpl in Hread.
        rewrite <- (Hhost _ _ Hf). by destruct (readFails host (path f)).
      - rewrite lookup_insert_ne by done. apply Hs. }
    destruct (processMapping_outcome host settings file s mapping)
      as [ | | | ? ? ? _ Hf Hl _ | ? ? ? _ Hf Hl _ _ | mocFile s1 ? s3 Hne Hf Hl _ Hw];
      try done.
    + by eapply Hload.
    + simpl. by eapply Hload.
    + specialize (Hload _ _ _ Hf Hl).
      apply vaultModify_fields in Hw as (Hc3 & _ & _ & f & -> & _ & Hv3).
      intros p d. simpl. rewrite Hv3, Hc3. simpl.
      rewrite (Hhost _ _ Hf).
      destruct (decide (p = ensureMdExtension (mocPath mapping))) as [->|Hp].
      * rewrite !lookup_insert_eq. by intros [= <-].
      * rewrite !lookup_insert_ne by done. apply Hload.
Qed.

End Writes.

Lemma run_writes_hub_files_only_witness :
  vaultText
    (runAutoIndex (scenarioHost false true never never) scenarioSettings
       scenarioState) !! lit "A.md"
  = vaultText scenarioState !! lit "A.md".
Proof.
  apply run_writes_hub_files_only. vm_compute.
  intros H. inversion H as [|? ? ? H']; subst. inversion H'.
Defined.


Lemma run_keeps_notes_coherent_witness :
  coherentNotes
    (runAutoIndex (scenarioHost false true never never) scenarioSettings
       scenarioState).
Proof.
  apply run_keeps_notes_coherent; [reflexivity|].
  intros p d _ H. simpl in H. by rewrite lookup_empty in H.
Defined.

Lemma run_keeps_hubs_coherent_witness :
  vaultText
    (runAutoIndex (scenarioHost false true never never) scenarioSettings
       scenarioState) !! lit "MOC.md"
  = Some (lit "## Links\n- [[A]]\n").
Proof.
  apply (run_keeps_hubs_coherent (scenarioHost false true never never)
           scenarioSettings scenarioState (lit "MOC.md")
           {| MocData.content := lit "## Links\n- [[A]]\n";
              MocData.links := [lit "A"] |}).
  - intros p f. unfold scenarioHost. cbn [getAbstractFileByPath].
    destruct (eqs p (lit "MOC.md")) eqn:E1.
    { apply eqs_true in E1. intros H. injection H as H. by subst. }
    destruct (eqs p (lit "A.md")) eqn:E2; [|done].
    apply eqs_true in E2. intros H. injection H as H. by subst.
  - vm_compute. reflexivity.
Defined.

(** ** The batch size *)

Section BatchSize.
Variable host : Host.
Variable settings : Settings.

Lemma batchLoop_step (files : list TFile) (i filesProcessed : nat) (st : State) :
  i < length files ->
  batchLoop host settings files i filesProcessed st =
    batchLoop host settings files (i + Pos.to_nat (batchSize settings))
      (filesProcessed
       + length (slice files i (i + Pos.to_nat (batchSize settings))))
      (if ((filesProcessed
            + length (slice files i (i + Pos.to_nat (batchSize settings))))
             mod 100 =? 0)
          || (filesProcessed
              + length (slice files i (i + Pos.to_nat (batchSize settings)))
              =? length files)
       then log (processBatch host settings
                   (slice files i (i + Pos.to_nat (batchSize settings))) st)
              (NoticeProcessed
                 (filesProcessed
                  + length (slice files i (i + Pos.to_nat (batchSize settings))))
                 (length files))
       else processBatch host settings
              (slice files i (i + Pos.to_nat (batchSize settings))) st).
Proof.
  intros Hi. rewrite batchLoop_equation_1.
  destruct (decide (i < length files)) as [l|]; [|done].
  by rewrite batchLoop_clause_1_equation_1.
Qed.

Lemma batchLoop_done (files : list TFile) (i filesProcessed : nat) (st : State) :
  ~ i < length files ->
  batchLoop host settings files i filesProcessed st = st.
Proof.
  intros Hi. rewrite batchLoop_equation_1.
  by destruct (decide (i < length files)).
Qed.

Lemma addsToConsole_id : addsToConsole (fun st => st).
Proof. intros [? ? ? ? ?]. unfold setConsole. simpl. by rewrite app_nil_r. Qed.

Lemma addsToConsole_log (e : Event) : addsToConsole (fun st => log st e).
Proof. by intros [? ? ? ? ?]. Qed.

Lemma addsToConsole_comp (f g : State -> State) :
  addsToConsole f -> addsToConsole g -> addsToConsole (fun st => g (f st)).
Proof.
  intros Hf Hg st. rewrite (Hg (f st)), (Hf st). simpl.
  rewrite (Hg (f (setConsole st []))). unfold setConsole. simpl.
  by rewrite app_assoc.
Qed.

Lemma addsToConsole_foldl {X : Type} (f : State -> X -> State) (l : list X) :
  (forall x, addsToConsole (fun st => f st x)) ->
  addsToConsole (fun st => foldl f st l).
Proof.
  intros Hf. induction l as [|x l IH]; [apply addsToConsole_id|].
  simpl. apply (addsToConsole_comp (fun st => f st x) (fun st => foldl f st l));
    [apply Hf|apply IH].
Qed.

Lemma loadMoc_setConsole (st : State) (events : list Event) (p : str)
    (mocFile : TAbstractFile) :
  loadMoc host (setConsole st events) p mocFile
  = (fun r => (setConsole r.1 events, r.2)) <$> loadMoc host st p mocFile.
Proof.
  unfold loadMoc, vaultRead. simpl.
  destruct (mocLinksCache st !! p); [done|].
  destruct mocFile as [f|]; [|done].
  destruct (readFails host (path f)); [done|].
  by destruct (vaultText st !! path f).
Qed.

Lemma vaultModify_setConsole (st : State) (events : list Event)
    (mocFile : TAbstractFile) (data : str) :
  vaultModify host (setConsole st events) mocFile data
  = (fun r => setConsole r events) <$> vaultModify host st mocFile data.
Proof.
  unfold vaultModify, onModify. destruct mocFile as [f|]; [|done].
  destruct (modifyFails host (path f)); [done|]. simpl.
  destruct (raisesModify host); [|done]. by destruct (path f).
Qed.

Lemma addsToConsole_mapping (file : TFile) (mapping : Mapping) :
  addsToConsole (fun st => processMapping host settings file st mapping).
Proof.
  intros st. unfold processMapping.
  destruct (mocPath mapping) as [|c0 r0]; [exact (addsToConsole_id st)|].
  destruct (getAbstractFileByPath host _) as [mocFile|];
    [|exact (addsToConsole_log _ st)].
  rewrite (loadMoc_setConsole st []).
  destruct (loadMoc host st _ mocFile) as [[st1 d]|] eqn:Hl;
    [|exact (addsToConsole_log _ st)].
  apply loadMoc_fields in Hl as (_ & _ & _ & _ & _ & Hc).
  cbn [fmap option_fmap option_map fst snd]. cbv zeta.
  destruct (includes (MocData.links d) (basename file)).
  { rewrite <- Hc. destruct st1. unfold setConsole. simpl.
    by rewrite app_nil_r. }
  match goal with
  | |- context [vaultModify host (log (setConsole st1 []) ?e) ?f ?data] =>
      change (log (setConsole st1 []) e) with (setConsole (log st1 e) [e]);
      rewrite (vaultModify_setConsole (log st1 e) [e] f data);
      destruct (vaultModify host (log st1 e) f data) as [st3|] eqn:Hw
  end.
  - apply vaultModify_fields in Hw as (_ & _ & Hc3 & _).
    cbn [fmap option_fmap option_map]. simpl in Hc3.
    destruct st3. simpl in *. subst. unfold setConsole, log, setMocLinksCache,
      setTotalNotesAdded. simpl. rewrite Hc. by rewrite <- !app_assoc.
  - cbn [fmap option_fmap option_map]. rewrite <- Hc.
    destruct st1. unfold setConsole, log. simpl. by rewrite <- !app_assoc.
Qed.

Lemma addsToConsole_file (file : TFile) :
  addsToConsole (fun st => processFile host settings st file).
Proof.
  intros st. unfold processFile.
  destruct (negb (eqs (extension file) (lit "md")));
    [exact (addsToConsole_id st)|].
  assert (Hload : loadFile host (setConsole st []) file
                  = (fun r => (setConsole r.1 [], r.2)) <$> loadFile host st file).
  { unfold loadFile, vaultRead. simpl.
    destruct (fileCache st !! path file); [done|].
    destruct (readFails host (path file)); [done|].
    by destruct (vaultText st !! path file). }
  rewrite Hload.
  destruct (loadFile host st file) as [[st1 fileData]|] eqn:Hl;
    [|exact (addsToConsole_log _ st)].
  apply loadFile_fields in Hl as (_ & _ & _ & Hc).
  cbn [fmap option_fmap option_map fst snd]. rewrite <- Hc.
  assert (Htags : addsToConsole
                    (fun s => foldl (processTag host settings file) s
                                (FileData.tags fileData))).
  { apply addsToConsole_foldl. intros noteTag s. unfold processTag.
    destruct (matchingMappings settings noteTag) as [|m ms] eqn:Em;
      [exact (addsToConsole_id s)|].
    unfold processTagMappings.
    apply (addsToConsole_foldl (processMapping host settings file)).
    intros mapping. apply addsToConsole_mapping. }
  destruct (FileData.tags fileData); [exact (addsToConsole_id st1)|].
  apply Htags.
Qed.

Lemma addsToConsole_batch (files : list TFile) :
  addsToConsole (processBatch host settings files).
Proof.
  unfold processBatch.
  apply (addsToConsole_foldl (processFile host settings)).
  apply addsToConsole_file.
Qed.

Lemma withoutProgress_step (step : State -> State) (st st' : State) :
  addsToConsole step ->
  withoutProgress st = withoutProgress st' ->
  withoutProgress (step st) = withoutProgress (step st').
Proof.
  intros Hstep H. rewrite (Hstep st), (Hstep st').
  assert (setConsole st [] = setConsole st' []) as ->.
  { destruct st, st'. unfold withoutProgress, setConsole in *. simpl in *.
    by injection H as -> -> -> -> _. }
  assert (List.filter (fun e => negb (isProgress e)) (console st)
          = List.filter (fun e => negb (isProgress e)) (console st')) as Hc.
  { destruct st, st'. unfold withoutProgress, setConsole in *. simpl in *.
    by injection H. }
  unfold withoutProgress, setConsole. simpl.
  by rewrite !List.filter_app, Hc.
Qed.

Lemma withoutProgress_notice (st : State) (a b : nat) :
  withoutProgress (log st (NoticeProcessed a b)) = withoutProgress st.
Proof.
  unfold withoutProgress, setConsole. simpl.
  rewrite List.filter_app. simpl. by rewrite app_nil_r.
Qed.

Lemma slice_drop (files : list TFile) (i b : nat) :
  slice files i (i + b) ++ drop (i + b) files = drop i files.
Proof.
  unfold slice. replace (i + b - i) with b by lia.
  rewrite <- drop_drop. apply take_drop.
Qed.

Lemma processBatch_app (files files' : list TFile) (st : State) :
  processBatch host settings (files ++ files') st
  = processBatch host settings files' (processBatch host settings files st).
Proof. unfold processBatch. apply foldl_app. Qed.

Lemma batchLoop_processBatch (files : list TFile) (i filesProcessed : nat)
    (st : State) :
  withoutProgress (batchLoop host settings files i filesProcessed st)
  = withoutProgress (processBatch host settings (drop i files) st).
Proof.
  funelim (batchLoop host settings files i filesProcessed st).
  - rewrite H. clear H.
    rewrite <- (slice_drop files i (Pos.to_nat (batchSize settings))).
    rewrite processBatch_app.
    apply (withoutProgress_step (processBatch host settings _));
      [apply addsToConsole_batch|].
    cbv zeta. destruct (_ || _); [|done]. apply withoutProgress_notice.
  - rewrite drop_ge by lia. done.
Qed.

End BatchSize.

(** X14: the batch size changes nothing but the progress notices: two
    runs from the same state that differ in the batch size only end with
    the same vault, the same caches, the same count and, the progress
    notices apart, the same console. *)
Theorem batch_size_only_progress (host : Host) (settings : Settings)
    (value : positive) (st : State) :
  withoutProgress (runAutoIndex host (setBatchSize settings value) st)
  = withoutProgress (runAutoIndex host settings st).
Proof.
  unfold runAutoIndex.
  apply (withoutProgress_step
           (fun s => log (log s (NoticeComplete (totalNotesAdded s)))
                       (LogComplete (totalNotesAdded s)))).
  { intros [? ? ? ? ?]. unfold setConsole, log. simpl.
    by rewrite <- app_assoc. }
  rewrite !batchLoop_processBatch. reflexivity.
Qed.

(** ** The notices of a run *)

Lemma slice_length (files : list TFile) (i j : nat) :
  length (slice files i j) = Nat.min (j - i) (length files - i).
Proof. unfold slice. by rewrite length_take, length_drop. Qed.

Lemma batchLoop_last_notice (host : Host) (settings : Settings)
    (files : list TFile) (i : nat) (st : State) :
  i < length files ->
  exists events,
    console (batchLoop host settings files i i st)
    = events ++ [NoticeProcessed (length files) (length files)].
Proof.
  remember (length files - i) as k eqn:Hk. revert i st Hk.
  induction k as [k IH] using lt_wf_ind. intros i st Hk Hi.
  rewrite batchLoop_step by done. rewrite slice_length.
  replace (i + Pos.to_nat (batchSize settings) - i)
    with (Pos.to_nat (batchSize settings)) by lia.
  destruct (decide (i + Pos.to_nat (batchSize settings) < length files))
    as [Hlt|Hge].
  - rewrite Nat.min_l by lia.
    apply (IH (length files - (i + Pos.to_nat (batchSize settings)))); lia.
  - rewrite Nat.min_r by lia.
    replace (i + (length files - i)) with (length files) by lia.
    rewrite batchLoop_done by lia.
    rewrite Nat.eqb_refl, orb_true_r. by eexists.
Qed.

(** X15: a run over at least one file ends with the progress notice for
    all files, the notice of completion and the log line of completion,
    in this order. *)
Theorem run_final_notices (host : Host) (settings : Settings) (st : State) :
  filesOfRun host settings <> [] ->
  exists events,
    console (runAutoIndex host settings st)
    = events
      ++ [NoticeProcessed (length (filesOfRun host settings))
            (length (filesOfRun host settings));
          NoticeComplete (totalNotesAdded (runAutoIndex host settings st));
          LogComplete (totalNotesAdded (runAutoIndex host settings st))].
Proof.
  intros Hfiles. unfold runAutoIndex. fold (filesOfRun host settings).
  destruct (batchLoop_last_notice host settings (filesOfRun host settings) 0
              (setMocLinksCache
                 (log (setTotalNotesAdded st 0)
                    (NoticeProcessing (length (filesOfRun host settings)))) ∅))
    as [events He].
  { destruct (filesOfRun host settings); [done|simpl; lia]. }
  exists events. simpl. rewrite He. by rewrite <- !app_assoc.
Qed.

Lemma run_final_notices_witness :
  exists events,
    console
      (runAutoIndex (scenarioHost false true never never) scenarioSettings
         scenarioState)
    = events
      ++ [NoticeProcessed
            (length (filesOfRun (scenarioHost false true never never)
                       scenarioSettings))
            (length (filesOfRun (scenarioHost false true never never)
                       scenarioSettings));
          NoticeComplete
            (totalNotesAdded
               (runAutoIndex (scenarioHost false true never never)
                  scenarioSettings scenarioState));
          LogComplete
            (totalNotesAdded
               (runAutoIndex (scenarioHost false true never never)
                  scenarioSettings scenarioState))].
Proof. apply run_final_notices. discriminate. Defined.

(** ** Mappings without a hub path *)

Lemma foldl_ext_all {S X : Type} (f g : S -> X -> S) (l : list X) (s : S) :
  (forall s' x, f s' x = g s' x) -> foldl f s l = foldl g s l.
Proof.
  intros H. revert s. induction l as [|x l IH]; intros s; [done|].
  simpl. by rewrite H, IH.
Qed.

Lemma processTag_foldl (host : Host) (settings : Settings) (file : TFile)
    (st : State) (noteTag : str) :
  processTag host settings file st noteTag
  = foldl (processMapping host settings file) st
      (matchingMappings settings noteTag).
Proof.
  unfold processTag, processTagMappings.
  by destruct (matchingMappings settings noteTag).
Qed.

Lemma processFile_ext (host : Host) (s1 s2 : Settings) :
  (forall file st noteTag,
     processTag host s1 file st noteTag = processTag host s2 file st noteTag) ->
  forall st file, processFile host s1 st file = processFile host s2 st file.
Proof.
  intros H st file. unfold processFile.
  destruct (negb _); [done|].
  destruct (loadFile host st file) as [[st1 fileData]|]; [|done].
  destruct (FileData.tags fileData) as [|t ts]; [done|].
  apply foldl_ext_all. intros. apply H.
Qed.

Lemma batchLoop_ext (host : Host) (s1 s2 : Settings) (files : list TFile)
    (i filesProcessed : nat) (st : State) :
  (forall st file, processFile host s1 st file = processFile host s2 st file) ->
  batchSize s1 = batchSize s2 ->
  batchLoop host s1 files i filesProcessed st
  = batchLoop host s2 files i filesProcessed st.
Proof.
  intros Hfile Hsize.
  assert (Hbatch : forall fs s, processBatch host s1 fs s
                                = processBatch host s2 fs s).
  { intros fs s. unfold processBatch. by apply foldl_ext_all. }
  remember (length files - i) as k eqn:Hk.
  revert i filesProcessed st Hk.
  induction k as [k IH] using lt_wf_ind. intros i filesProcessed st Hk.
  destruct (decide (i < length files)) as [Hi|Hi].
  - rewrite (batchLoop_step host s1), (batchLoop_step host s2) by done.
    rewrite <- Hsize, !Hbatch.
    apply (IH (length files - (i + Pos.to_nat (batchSize s1)))); lia.
  - by rewrite !batchLoop_done.
Qed.

(** X16: a mapping with an empty hub path, as the button
    [Add New Mapping] creates it, has no effect on a run, wherever it
    stands in the table and whatever its tag is. *)
Theorem empty_hub_path_is_inert (host : Host) (settings : Settings)
    (before after : list Mapping) (mapping : Mapping) (st : State) :
  mocPath mapping = [] ->
  runAutoIndex host (setTagMappings settings (before ++ mapping :: after)) st
  = runAutoIndex host (setTagMappings settings (before ++ after)) st.
Proof.
  intros Hempty. unfold runAutoIndex.
  rewrite (batchLoop_ext host
             (setTagMappings settings (before ++ mapping :: after))
             (setTagMappings settings (before ++ after))); [done| |done].
  apply processFile_ext. intros file s noteTag.
  rewrite !processTag_foldl. unfold matchingMappings. simpl.
  rewrite !filter_app, filter_cons, !foldl_app.
  destruct (decide _); [|done]. simpl.
  unfold processMapping at 2. rewrite Hempty. done.
Qed.

Lemma empty_hub_path_is_inert_witness :
  runAutoIndex (scenarioHost false true never never)
    (addNewMapping scenarioSettings) scenarioState
  = runAutoIndex (scenarioHost false true never never)
      scenarioSettings scenarioState.
Proof.
  exact (empty_hub_path_is_inert (scenarioHost false true never never)
           scenarioSettings [mappingTo "maths" "MOC"] []
           {| tag := []; mocPath := [] |} scenarioState eq_refl).
Defined.

(** ** The hub path in the settings tab *)

Lemma matchAt_mdSuffixRe {A : Type} (k : str -> str -> option str -> option A)
    (b r : str) (g : option str) :
  matchAt mdSuffixRe k b r g =
    match r with
    | [x; y; z] => if isMdSuffix x y z
                   then k (((b ++ lit ".") ++ [y]) ++ [z]) [] g else None
    | _ => None
    end.
Proof.
  unfold mdSuffixRe, isMdSuffix. cbn [matchAt stripPrefix lit].
  destruct r as [|x [|y [|z [|w r]]]]; try done.
  - by destruct (eqc "." x).
  - destruct (eqc "." x) eqn:E; [|by destruct (eqc x ".")].
    by destruct (letterM y).
  - destruct (eqc "." x) eqn:E.
    + apply eqc_true in E. subst x. rewrite eqc_refl. simpl.
      destruct (letterM y); [|done]. by destruct (letterD z).
    + destruct (eqc x ".") eqn:E'; [|done]. apply eqc_true in E'. subst x.
      by rewrite eqc_refl in E.
  - destruct (eqc "." x); [|done]. destruct (letterM y); [|done].
    by destruct (letterD z).
Qed.

Lemma ensureMdExtension_cases (path : str) :
  ensureMdExtension path =
    match path with
    | [] => []
    | _ => if hasMdExtension path then path else path ++ lit ".md"
    end.
Proof.
  destruct path as [|c p]; [reflexivity|].
  unfold ensureMdExtension. by rewrite endsWith_lower_md.
Qed.

Lemma hasMdExtension_suffix (path : str) :
  hasMdExtension path = true <->
  exists stem x y z, path = stem ++ [x; y; z] /\ isMdSuffix x y z = true.
Proof.
  unfold hasMdExtension, isMdSuffix, letterM, letterD. split.
  - destruct (rev path) as [|d [|m [|dot r]]] eqn:E; try done.
    intros H. exists (rev r), dot, m, d. split; [|done].
    rewrite <- (rev_involutive path), E. simpl. by rewrite <- !app_assoc.
  - intros (stem & x & y & z & -> & H). rewrite rev_app_distr. done.
Qed.

Lemma matchAt_mdSuffixRe_long {A : Type}
    (k : str -> str -> option str -> option A) (b r : str) (g : option str) :
  length r <> 3 -> matchAt mdSuffixRe k b r g = None.
Proof.
  intros H. rewrite matchAt_mdSuffixRe.
  by destruct r as [|x [|y [|z [|w r]]]].
Qed.

Lemma search_mdSuffixRe_found (b stem : str) (x y z : ascii) :
  isMdSuffix x y z = true ->
  search mdSuffixRe b (stem ++ [x; y; z])
  = Some (Result (b ++ stem) [x; y; z] None []).
Proof.
  intros H. revert b. induction stem as [|c stem IH]; intros b.
  - cbn [app search]. rewrite matchAt_mdSuffixRe, H, app_nil_r.
    f_equal. f_equal. rewrite <- !app_assoc, drop_app_length.
    unfold isMdSuffix in H. apply andb_true_iff in H as [H _].
    apply andb_true_iff in H as [H _]. apply eqc_true in H. by subst x.
  - cbn [app search]. rewrite matchAt_mdSuffixRe_long.
    + rewrite IH. by rewrite <- app_assoc.
    + simpl. rewrite length_app. simpl. lia.
Qed.

Lemma search_mdSuffixRe_none (b r : str) :
  hasMdExtension r = false -> search mdSuffixRe b r = None.
Proof.
  intros H.
  assert (Hno : forall stem x y z,
            r = stem ++ [x; y; z] -> isMdSuffix x y z = false).
  { intros stem x y z ->. destruct (isMdSuffix x y z) eqn:E; [|done].
    assert (hasMdExtension (stem ++ [x; y; z]) = true)
      by (apply hasMdExtension_suffix; by exists stem, x, y, z).
    congruence. }
  clear H. revert b. induction r as [|c r IH]; intros b.
  - cbn [search]. by rewrite matchAt_mdSuffixRe.
  - cbn [search]. rewrite matchAt_mdSuffixRe.
    assert (Hhere : match c :: r with
                    | [x; y; z] => isMdSuffix x y z = false
                    | _ => True
                    end).
    { destruct r as [|y [|z [|w r]]]; try done. by apply (Hno []). }
    rewrite IH.
    + destruct r as [|y [|z [|w r]]]; try done. by rewrite Hhere.
    + intros stem x y z ->. by apply (Hno (c :: stem)).
Qed.

Lemma shownMocPath_stem (stem : str) (x y z : ascii) :
  isMdSuffix x y z = true -> shownMocPath (stem ++ [x; y; z]) = stem.
Proof.
  intros H. unfold shownMocPath, replace, exec.
  rewrite search_mdSuffixRe_found by done. simpl.
  rewrite app_nil_r. by destruct stem.
Qed.

Lemma shownMocPath_unchanged (mocPath : str) :
  hasMdExtension mocPath = false -> shownMocPath mocPath = mocPath.
Proof.
  intros H. unfold shownMocPath, replace, exec.
  rewrite search_mdSuffixRe_none by done. by destruct mocPath.
Qed.

(** X17: the hub path that the settings tab shows for a stored path
    resolves, as [ensureMdExtension] completes it, to the same path as the
    stored one exactly when the stored path has no markdown extension or
    is a non-empty path without markdown extension followed by [.md] in
    lower case. *)
Theorem shownMocPath_resolves (mocPath : str) :
  ensureMdExtension (shownMocPath mocPath) = ensureMdExtension mocPath <->
  hasMdExtension mocPath = false
  \/ exists stem,
       stem <> [] /\ hasMdExtension stem = false
       /\ mocPath = stem ++ lit ".md".
Proof.
  destruct (hasMdExtension mocPath) eqn:E.
  - apply hasMdExtension_suffix in E as (stem & x & y & z & -> & Hs).
    rewrite (shownMocPath_stem stem x y z Hs).
    assert (Hp : ensureMdExtension (stem ++ [x; y; z]) = stem ++ [x; y; z]).
    { rewrite ensureMdExtension_cases.
      assert (hasMdExtension (stem ++ [x; y; z]) = true) as ->
        by (apply hasMdExtension_suffix; by exists stem, x, y, z).
      by destruct stem. }
    rewrite Hp, ensureMdExtension_cases. split.
    + intros H. right. exists stem.
      assert (Hlen : stem <> stem ++ [x; y; z]).
      { intros Heq. apply (f_equal length) in Heq.
        rewrite length_app in Heq. simpl in Heq. lia. }
      destruct stem as [|c stem]; [done|].
      destruct (hasMdExtension (c :: stem)); [done|].
      apply app_inv_head in H. by rewrite H.
    + intros [H|(stem' & Hne & Hmd & Heq)]; [done|].
      change (lit ".md") with ["."; "m"; "d"] in Heq.
      apply app_inj_2 in Heq as [-> ->]; [|done].
      destruct stem' as [|c stem']; [done|]. by rewrite Hmd.
  - rewrite shownMocPath_unchanged by done. split; [by left|done].
Qed.

(** ** Tag extraction: an inline list of any length *)

Lemma exec_inlineArrayRe_list (pre ws1 ws2 inner post : str) :
  indexOf (pre ++ lit "tags" ++ ws1 ++ lit ":" ++ ws2 ++ lit "[" ++ inner
           ++ lit "]" ++ post) (lit "tags") = Some (length pre) ->
  forallb isSpace ws1 = true -> forallb isSpace ws2 = true ->
  forallb listChar inner = true ->
  mGroup <$> exec inlineArrayRe
               (pre ++ lit "tags" ++ ws1 ++ lit ":" ++ ws2 ++ lit "[" ++ inner
                ++ lit "]" ++ post)
  = Some (Some inner).
Proof.
  intros Hfirst H1 H2 Hin.
  destruct (munch_run isSpace ws1
              (lit ":" ++ ws2 ++ lit "[" ++ inner ++ lit "]" ++ post) H1)
    as [Em1 Ea1]; [done|].
  destruct (munch_run isSpace ws2 (lit "[" ++ inner ++ lit "]" ++ post) H2)
    as [Em2 Ea2]; [done|].
  set (B := ((((pre ++ lit "tags") ++ ws1) ++ lit ":") ++ ws2) ++ lit "[").
  assert (Hm : matchAt inlineArrayRe (fun b' r' g => Some (b', r', g))
                 ([] ++ take (length pre)
                          (pre ++ lit "tags" ++ ws1 ++ lit ":" ++ ws2
                           ++ lit "[" ++ inner ++ lit "]" ++ post))
                 (drop (length pre)
                    (pre ++ lit "tags" ++ ws1 ++ lit ":" ++ ws2
                     ++ lit "[" ++ inner ++ lit "]" ++ post)) None
               = Some ((B ++ inner) ++ ["]"], post, Some inner)).
  { cbn [app]. rewrite take_app_length, drop_app_length.
    unfold inlineArrayRe. cbn [matchAt]. rewrite stripPrefix_app.
    apply starGreedy_munch_some. rewrite Em1, Ea1, stripPrefix_app.
    apply starGreedy_munch_some. rewrite Em2, Ea2, stripPrefix_app.
    change (lit "]" ++ post) with ("]" :: post). change (lit "]") with ["]"].
    fold B.
    rewrite (starLazy_until dot "]"
               (fun b'1 r'4 => (b'1 ++ ["]"], r'4, Some (drop (length B) b'1))))
      by done.
    by rewrite drop_app_length. }
  unfold exec. unfold inlineArrayRe in Hm |- *.
  by rewrite (search_literal_first (lit "tags") _ [] _ (length pre) _ _ _
                ltac:(done) Hfirst Hm).
Qed.

Lemma inlineArrayTags_list (pre ws1 ws2 inner post : str) :
  indexOf (pre ++ lit "tags" ++ ws1 ++ lit ":" ++ ws2 ++ lit "[" ++ inner
           ++ lit "]" ++ post) (lit "tags") = Some (length pre) ->
  forallb isSpace ws1 = true -> forallb isSpace ws2 = true ->
  forallb listChar inner = true ->
  inlineArrayTags
    (pre ++ lit "tags" ++ ws1 ++ lit ":" ++ ws2 ++ lit "[" ++ inner
     ++ lit "]" ++ post)
  = filter (fun entry => 0 < length entry)
      (map trim (split inner (lit ","))).
Proof.
  intros Hfirst H1 H2 Hin. unfold inlineArrayTags.
  rewrite truthyGroup_group, (exec_inlineArrayRe_list _ _ _ _ _ Hfirst H1 H2 Hin).
  destruct inner; [|done]. vm_compute. reflexivity.
Qed.

(** X18: an inline list of any length.  When the first [tags] of the
    front-matter is followed by optional white space, a colon, optional
    white space and a bracketed text without closing bracket and line
    terminator, the tags of the note are, in this order, the tag of the
    scalar form if that pattern matches, the entries of the bracketed
    text between its commas, trimmed and without the empty ones, the tags
    of the block form, and the inline tags. *)
Theorem extractTags_inline_list_entries
    (text pre ws1 ws2 inner post : str) :
  frontMatterOf text
    = Some (pre ++ lit "tags" ++ ws1 ++ lit ":" ++ ws2 ++ lit "[" ++ inner
            ++ lit "]" ++ post) ->
  indexOf (pre ++ lit "tags" ++ ws1 ++ lit ":" ++ ws2 ++ lit "[" ++ inner
           ++ lit "]" ++ post) (lit "tags") = Some (length pre) ->
  forallb isSpace ws1 = true -> forallb isSpace ws2 = true ->
  forallb listChar inner = true ->
  extractTags text
  = singleTag (pre ++ lit "tags" ++ ws1 ++ lit ":" ++ ws2 ++ lit "[" ++ inner
               ++ lit "]" ++ post)
    ++ filter (fun entry => 0 < length entry)
         (map trim (split inner (lit ",")))
    ++ multilineTags false
         (split (pre ++ lit "tags" ++ ws1 ++ lit ":" ++ ws2 ++ lit "["
                 ++ inner ++ lit "]" ++ post) (lit "\n"))
    ++ inline_tags_spec text.
Proof.
  intros Hfm Hfirst H1 H2 Hin. unfold extractTags.
  rewrite frontmatterTags_frontMatterOf, Hfm, bodyTags_spec.
  pose proof (inlineArrayTags_list pre ws1 ws2 inner post Hfirst H1 H2 Hin)
    as Hl.
  destruct (pre ++ lit "tags" ++ ws1 ++ lit ":" ++ ws2 ++ lit "[" ++ inner
            ++ lit "]" ++ post) as [|c fm] eqn:E.
  { destruct pre; discriminate. }
  by rewrite Hl, <- !app_assoc.
Qed.

Lemma extractTags_inline_list_entries_witness :
  extractTags
    (lit "---\ntitle: Limits\ntags : [maths, , real analysis,x]\n---\n#y")
  = [lit "maths"; lit "real analysis"; lit "x"; lit "y"].
Proof.
  apply (extractTags_inline_list_entries
           (lit "---\ntitle: Limits\ntags : [maths, , real analysis,x]\n---\n#y")
           (lit "title: Limits\n") (lit " ") (lit " ")
           (lit "maths, , real analysis,x") []); reflexivity.
Defined.
